(** * groupcache core: consistent-hash ring, LRU cache, singleflight, peer picking

    A shallow embedding of
    - [consistenthash] (the ring: [New], [IsEmpty], [Add], [Get]),
    - [lru] (the cache: [New], [Add], [Get], [Remove], [RemoveOldest],
      [removeElement], [Len], [Clear]),
    - [HTTPPool] ([NewHTTPPoolOpts], [Set], [PickPeer]),
    - [singleflight] ([Group.Do], as an interleaving semantics of goroutines)
    together with the properties the specification states about them.

    Conventions.  Go's [int] is taken to be 64 bits wide, so that the
    conversion [int(uint32)] is the identity; lengths and hashes are far
    from its bounds and are modelled in [Z] and [nat].  A [uint32] result
    is written [uint32 z], the wrap-around to 32 bits. *)

From Stdlib Require Import Ascii.
From stdpp Require Import gmap strings list sorting pretty.

Local Open Scope Z_scope.

(** ** Machine integers and library functions the ring relies on *)

Definition uint32 (z : Z) : Z := z mod 2 ^ 32.

(** [strconv.Itoa]: the decimal representation. *)
Definition Itoa (i : Z) : string := pretty i.

(** [sort.Ints]: increasing order.  On integers the result of a sort is
    determined by its input, whatever the algorithm. *)
Definition sort_Ints (l : list Z) : list Z := merge_sort Z.le l.

(** [sort.Search(n, f)]: the library's binary search,
<<
    i, j := 0, n
    for i < j {
        h := int(uint(i+j) >> 1)
        if !f(h) { i = h + 1 } else { j = h }
    }
    return i
>>
    The loop is unrolled on a fuel that [Search] sets to [n]; the interval
    [j - i] shrinks at every turn, so the loop has ended when the fuel is
    used up (see [Search_loop_fuel]). *)
Fixpoint Search_loop (fuel : nat) (f : nat → bool) (i j : nat) : nat :=
  match fuel with
  | O => i
  | S fuel' =>
      if decide (i < j)%nat then
        let h := ((i + j) / 2)%nat in
        if negb (f h) then Search_loop fuel' f (h + 1)%nat j
        else Search_loop fuel' f i h
      else i
  end.

Definition Search (n : nat) (f : nat → bool) : nat := Search_loop n f 0%nat n.

(** [crc32.ChecksumIEEE], bit by bit (reflected polynomial 0xEDB88320). *)
Definition crc32_bit (crc : Z) : Z :=
  Z.lxor (Z.shiftr crc 1) (if Z.testbit crc 0 then 0xEDB88320 else 0).

Definition crc32_byte (crc : Z) (b : Z) : Z :=
  Nat.iter 8 crc32_bit (Z.lxor crc b).

Fixpoint crc32_update (crc : Z) (s : string) : Z :=
  match s with
  | EmptyString => crc
  | String a s' => crc32_update (crc32_byte crc (Z.of_N (Ascii.N_of_ascii a))) s'
  end.

Definition ChecksumIEEE (data : string) : Z :=
  Z.lxor (crc32_update 0xFFFFFFFF data) 0xFFFFFFFF.

(** ** The consistent-hash ring *)

Module consistenthash.

(** [type Hash func(data []byte) uint32]; a Go string converts to its
    bytes, which a Rocq [string] already is. *)
Definition Hash : Type := string → Z.

Record Map : Type := mkMap {
  hash : Hash;
  replicas : Z;
  keys : list Z;              (* Sorted *)
  hashMap : gmap Z string
}.

Definition New (replicas : Z) (fn : option Hash) : Map :=
  {| replicas := replicas;
     hash := match fn with Some h => h | None => ChecksumIEEE end;
     keys := [];
     hashMap := ∅ |}.

Definition IsEmpty (m : Map) : bool := bool_decide (length (keys m) = 0%nat).

(** One turn of the inner loop of [Add]:
    [hash := int(m.hash([]byte(strconv.Itoa(i) + key)))], then the append
    and the binding. *)
Definition add_replica (key : string) (m : Map) (i : Z) : Map :=
  let h := uint32 (hash m (Itoa i +:+ key)) in
  {| hash := hash m; replicas := replicas m;
     keys := keys m ++ [h];
     hashMap := <[h := key]> (hashMap m) |}.

(** [for i := 0; i < m.replicas; i++] *)
Definition add_key (m : Map) (key : string) : Map :=
  foldl (add_replica key) m (seqZ 0 (replicas m)).

Definition Add (m : Map) (ks : list string) : Map :=
  let m' := foldl add_key m ks in
  {| hash := hash m'; replicas := replicas m';
     keys := sort_Ints (keys m');
     hashMap := hashMap m' |}.

(** [m.keys[i]] and [m.hashMap[h]]: [Get] indexes the slice within its
    bounds only (the probes of [Search] are below the length, and the index
    it returns is wrapped), and a Go map yields the zero value, the empty
    string, at a key it does not hold. *)
Definition Get (m : Map) (key : string) : string :=
  if IsEmpty m then ""
  else
    let h := uint32 (hash m key) in
    let idx := Search (length (keys m)) (λ i, bool_decide (h ≤ keys m !!! i)) in
    let idx := if decide (idx = length (keys m)) then 0%nat else idx in
    default "" (hashMap m !! (keys m !!! idx)).

(** A ring as the program builds it: [New], then any number of [Add]s. *)
Inductive built : Map → Prop :=
  | built_New r fn : built (New r fn)
  | built_Add m ks : built m → built (Add m ks).

End consistenthash.

(** The hash of the ring's tests, [strconv.Atoi] then [uint32(i)]: the
    bytes read as a decimal number.  The test's function panics on other
    input; here such input hashes to 0. *)
Fixpoint Atoi_digits (acc : Z) (s : string) : option Z :=
  match s with
  | EmptyString => Some acc
  | String a s' =>
      let d := Z.of_N (Ascii.N_of_ascii a) - 48 in
      if decide (0 ≤ d ≤ 9) then Atoi_digits (10 * acc + d) s' else None
  end.

Definition Atoi (s : string) : option Z :=
  match s with
  | EmptyString => None
  | String "-"%char s' => if decide (s' = EmptyString) then None else Z.opp <$> Atoi_digits 0 s'
  | String "+"%char s' => if decide (s' = EmptyString) then None else Atoi_digits 0 s'
  | _ => Atoi_digits 0 s
  end.

Definition parse_decimal : consistenthash.Hash := λ s, uint32 (default 0 (Atoi s)).

(** ** The LRU cache *)

Module lru.

(** [type Key interface{}]: "any value that is comparable".  [K] is the
    type of the keys up to Go's [==]: two different values of [K] are never
    [==], and [self_equal k] tells whether [k == k].  It does not for a
    floating-point NaN and for a value that holds one; it does for a
    string, an integer, a pointer. *)
Class Comparable (K : Type) := self_equal : K → bool.

Section lru.

(** [V] is the type of the stored values and [E] what one call of the
    eviction callback produces: a mutator returns, in order, the results
    of the calls it made. *)
Context {K : Type} `{Countable K} `{Comparable K} {V E : Type}.

(** [k1 == k2]. *)
Definition equal (k1 k2 : K) : bool := bool_decide (k1 = k2) && self_equal k1.

Record entry : Type := mkEntry { key : K; value : V }.

(** A [*list.Element]: [ptr] is its address, [Value] the entry it holds. *)
Record Element : Type := mkElement { ptr : nat; Value : entry }.

(** [map[interface{}]*list.Element].  A key that is not [==] to itself is
    never found again: a lookup of it misses, an assignment under it adds
    a binding every time, [delete] of it removes nothing, and only [range]
    visits these bindings.  [found] holds the bindings of the keys that
    are equal to themselves, [lost] those of the others, each with the
    element it points to, whether that element is still in the list or
    not (no lookup returns it, so no statement changes its entry). *)
Record keymap : Type := mkMap { found : gmap K nat; lost : list Element }.

#[global] Instance keymap_empty : Empty keymap := mkMap ∅ [].

(** [m[k]] *)
#[global] Instance keymap_lookup : Lookup K nat keymap :=
  λ k m, if self_equal k then found m !! k else None.

(** [m[k] = e] *)
Definition map_store (m : keymap) (k : K) (e : Element) : keymap :=
  if self_equal k then mkMap (<[k := ptr e]> (found m)) (lost m)
  else mkMap (found m) (lost m ++ [e]).

(** [delete(m, k)] *)
Definition map_delete (m : keymap) (k : K) : keymap :=
  if self_equal k then mkMap (delete k (found m)) (lost m) else m.

(** [ll] and [cache] are [None] when the Go field is nil.  [next] is the
    allocator: the address the next element gets. *)
Record Cache : Type := mkCache {
  MaxEntries : Z;
  OnEvicted : option (K → V → E);
  ll : option (list Element);
  cache : option keymap;
  next : nat
}.

Definition with_store (c : Cache) (l : option (list Element))
    (m : option keymap) : Cache :=
  {| MaxEntries := MaxEntries c; OnEvicted := OnEvicted c;
     ll := l; cache := m; next := next c |}.

Definition with_OnEvicted (c : Cache) (f : option (K → V → E)) : Cache :=
  {| MaxEntries := MaxEntries c; OnEvicted := f;
     ll := ll c; cache := cache c; next := next c |}.

Definition with_MaxEntries (c : Cache) (n : Z) : Cache :=
  {| MaxEntries := n; OnEvicted := OnEvicted c;
     ll := ll c; cache := cache c; next := next c |}.

(** The zero value [Cache{}]. *)
Definition zero : Cache :=
  {| MaxEntries := 0; OnEvicted := None; ll := None; cache := None; next := 0 |}.

Definition New (maxEntries : Z) : Cache :=
  {| MaxEntries := maxEntries; OnEvicted := None;
     ll := Some []; cache := Some ∅; next := 0 |}.

(** *** [container/list], front of the list first *)

(** Reading through an element pointer. *)
Definition deref (l : list Element) (p : nat) : option Element :=
  List.find (λ e, bool_decide (ptr e = p)) l.

(** [l.Remove(e)]: unlinks [e] if it is an element of [l]. *)
Definition list_Remove (l : list Element) (p : nat) : list Element :=
  filter (λ e, ptr e ≠ p) l.

(** [l.MoveToFront(e)]: no change if [e] is not an element of [l]. *)
Definition list_MoveToFront (l : list Element) (p : nat) : list Element :=
  match deref l p with
  | Some e => e :: list_Remove l p
  | None => l
  end.

(** [l.Back()]: the last element or nil. *)
Definition list_Back (l : list Element) : option Element := last l.

(** The assignment to the [value] field of the entry of element [p]. *)
Definition set_value (l : list Element) (p : nat) (v : V) : list Element :=
  (λ e, if bool_decide (ptr e = p)
        then mkElement (ptr e) (mkEntry (key (Value e)) v) else e) <$> l.

(** *** The operations

    A mutator returns the cache it leaves and the results of the callback
    calls it made; [None] is a run-time panic (a method called on the nil
    list).  The model is also stuck where the map holds, under a key
    that is equal to itself, a pointer to an element that is not in the
    list, which no operation brings about (see [wf]). *)

Definition fire (c : Cache) (kv : entry) : list E :=
  match OnEvicted c with
  | Some f => [f (key kv) (value kv)]
  | None => []
  end.

Definition removeElement (c : Cache) (e : Element) : option (Cache * list E) :=
  l ← ll c;
  let l := list_Remove l (ptr e) in
  let kv := Value e in
  let m := (λ m, map_delete m (key kv)) <$> cache c in   (* on a nil map: no-op *)
  Some (with_store c (Some l) m, fire c kv).

Definition RemoveOldest (c : Cache) : option (Cache * list E) :=
  match cache c with
  | None => Some (c, [])
  | Some _ =>
      l ← ll c;
      match list_Back l with
      | Some ele => removeElement c ele
      | None => Some (c, [])
      end
  end.

Definition Add (c : Cache) (k : K) (v : V) : option (Cache * list E) :=
  let c := match cache c with
           | None => with_store c (Some []) (Some ∅)
           | Some _ => c
           end in
  m ← cache c;
  l ← ll c;
  match m !! k with
  | Some ee =>
      _ ← deref l ee;
      let l := list_MoveToFront l ee in
      let l := set_value l ee v in
      Some (with_store c (Some l) (Some m), [])
  | None =>
      let ele := mkElement (next c) (mkEntry k v) in
      let l := ele :: l in
      let c := {| MaxEntries := MaxEntries c; OnEvicted := OnEvicted c;
                  ll := Some l; cache := Some (map_store m k ele);
                  next := S (next c) |} in
      if decide (MaxEntries c ≠ 0 ∧ MaxEntries c < Z.of_nat (length l))
      then RemoveOldest c
      else Some (c, [])
  end.

Definition Get (c : Cache) (k : K) : option (Cache * option V) :=
  match cache c with
  | None => Some (c, None)
  | Some m =>
      match m !! k with
      | Some ele =>
          l ← ll c;
          e ← deref l ele;
          Some (with_store c (Some (list_MoveToFront l ele)) (Some m),
                Some (value (Value e)))
      | None => Some (c, None)
      end
  end.

Definition Remove (c : Cache) (k : K) : option (Cache * list E) :=
  match cache c with
  | None => Some (c, [])
  | Some m =>
      match m !! k with
      | Some ele =>
          l ← ll c;
          e ← deref l ele;
          removeElement c e
      | None => Some (c, [])
      end
  end.

Definition Len (c : Cache) : option Z :=
  match cache c with
  | None => Some 0
  | Some _ => l ← ll c; Some (Z.of_nat (length l))
  end.

(** [for _, e := range c.cache]: Go visits the map in an unspecified
    order; the model visits the bindings of [found] in the order of
    [map_to_list] and then those of [lost], and the statements about
    [Clear] are up to a permutation of the calls. *)
Definition Clear (c : Cache) : option (Cache * list E) :=
  evs ← match OnEvicted c with
        | Some f =>
            match cache c with
            | Some m =>
                l ← ll c;
                evs ← mapM (λ kp, e ← deref l kp.2;
                                   Some (f (key (Value e)) (value (Value e))))
                           (map_to_list (found m));
                Some (evs ++ ((λ e, f (key (Value e)) (value (Value e))) <$> lost m))
            | None => Some []
            end
        | None => Some []
        end;
  Some (with_store c None None, evs).

(** The entries the cache holds, most recently used first. *)
Definition entries (c : Cache) : list (K * V) :=
  match ll c with
  | Some l => (λ e, (key (Value e), value (Value e))) <$> l
  | None => []
  end.

(** A sequence of [Add]s, collecting the callback results. *)
Fixpoint Adds (c : Cache) (kvs : list (K * V)) : option (Cache * list E) :=
  match kvs with
  | [] => Some (c, [])
  | (k, v) :: kvs' =>
      r ← Add c k v;
      r' ← Adds r.1 kvs';
      Some (r'.1, r.2 ++ r'.2)
  end.

(** The caches a program can hold: the zero value or the result of
    [New], then assignments to the two public fields and calls of the
    methods. *)
Inductive built : Cache → Prop :=
  | built_zero : built zero
  | built_New n : built (New n)
  | built_MaxEntries c n : built c → built (with_MaxEntries c n)
  | built_OnEvicted c f : built c → built (with_OnEvicted c f)
  | built_Add c k v c' evs : built c → Add c k v = Some (c', evs) → built c'
  | built_Get c k c' r : built c → Get c k = Some (c', r) → built c'
  | built_Remove c k c' evs : built c → Remove c k = Some (c', evs) → built c'
  | built_RemoveOldest c c' evs : built c → RemoveOldest c = Some (c', evs) → built c'
  | built_Clear c c' evs : built c → Clear c = Some (c', evs) → built c'.

End lru.
Arguments entry : clear implicits.
Arguments Element : clear implicits.
Arguments keymap K {_ _} V.
Arguments Cache K {_ _} V E.
End lru.

(** ** The HTTP pool as a peer picker *)

Module groupcache.

Definition defaultBasePath : string := "/_groupcache/".
Definition defaultReplicas : Z := 50.

Record HTTPPoolOptions : Type := mkOptions {
  BasePath : string;
  Replicas : Z;
  HashFn : option consistenthash.Hash      (* nil: crc32.ChecksumIEEE *)
}.

(** The handle of a peer.  Its [transport] field is the pool's, the same
    for every peer, and is left out. *)
Record httpGetter : Type := mkGetter { baseURL : string }.

(** The fields of the pool that picking a peer reads or writes.  The mutex
    is held for the whole of [Set] and of [PickPeer], which are therefore
    atomic. *)
Record HTTPPool : Type := mkPool {
  self : string;
  opts : HTTPPoolOptions;
  peers : consistenthash.Map;
  httpGetters : gmap string httpGetter
}.

(** [NewHTTPPoolOpts]; [o] is [None] for a nil pointer, and the zero
    value of the options is blank path, 0 replicas, nil hash.  (The panic
    on a second call and the registration as the process's peer picker
    concern the global state and are not modelled.) *)
Definition NewHTTPPoolOpts (self : string) (o : option HTTPPoolOptions) : HTTPPool :=
  let o := default (mkOptions "" 0 None) o in
  let o := if decide (BasePath o = "")
           then mkOptions defaultBasePath (Replicas o) (HashFn o) else o in
  let o := if decide (Replicas o = 0)
           then mkOptions (BasePath o) defaultReplicas (HashFn o) else o in
  {| self := self; opts := o;
     peers := consistenthash.New (Replicas o) (HashFn o);
     httpGetters := ∅ |}.

(** [HTTPPool.Set] ([Set] is a reserved word here). *)
Definition Set_ (p : HTTPPool) (ps : list string) : HTTPPool :=
  {| self := self p; opts := opts p;
     peers := consistenthash.Add
                (consistenthash.New (Replicas (opts p)) (HashFn (opts p))) ps;
     httpGetters :=
       foldl (λ g peer, <[peer := mkGetter (peer +:+ BasePath (opts p))]> g) ∅ ps |}.

(** [PickPeer]: the handle is [None] for a nil [ProtoGetter]. *)
Definition PickPeer (p : HTTPPool) (key : string) : option httpGetter * bool :=
  if consistenthash.IsEmpty (peers p) then (None, false)
  else
    let peer := consistenthash.Get (peers p) key in
    if decide (peer ≠ self p) then (httpGetters p !! peer, true)
    else (None, false).

End groupcache.

(** ** The HTTP pool as a server and as a client

    [ServeHTTP] and the URL of [httpGetter.Get], with the functions of
    [strings] and [net/url] they call. *)

Module groupcache_http.
Import groupcache.

(** The bytes of a string. *)
Definition bytes (s : string) : list ascii := Strings.String.list_ascii_of_string s.
Global Arguments bytes : simpl never.

(** [strings.HasPrefix(s, prefix)]. *)
Fixpoint HasPrefix (s prefix : string) : bool :=
  match prefix with
  | EmptyString => true
  | String a prefix' =>
      match s with
      | String b s' => bool_decide (a = b) && HasPrefix s' prefix'
      | EmptyString => false
      end
  end.

(** [s[n:]]; [ServeHTTP] takes it with [n] the length of a prefix of [s],
    where the slice is in range. *)
Fixpoint slice_from (n : nat) (s : string) : string :=
  match n, s with
  | O, _ => s
  | S n', String _ s' => slice_from n' s'
  | S _, EmptyString => EmptyString
  end.

(** The parts of [s] before and after the first ["/"], if there is one. *)
Fixpoint cut_slash (s : string) : option (string * string) :=
  match s with
  | EmptyString => None
  | String a s' =>
      if bool_decide (a = "/"%char) then Some (EmptyString, s')
      else (λ xy, (String a xy.1, xy.2)) <$> cut_slash s'
  end.

(** [strings.SplitN(s, "/", 2)]: [s] alone if it has no ["/"], else the
    part before the first ["/"] and the part after it. *)
Definition SplitN_slash_2 (s : string) : list string :=
  match cut_slash s with
  | Some (x, y) => [x; y]
  | None => [s]
  end.

(** [shouldEscape(c, encodeQueryComponent)] of [net/url]: letters, digits
    and [-_.~] are not escaped, every other byte is. *)
Definition shouldEscape (c : ascii) : bool :=
  let n := Z.of_N (N_of_ascii c) in
  negb (bool_decide (97 ≤ n ≤ 122) || bool_decide (65 ≤ n ≤ 90) ||
        bool_decide (48 ≤ n ≤ 57) ||
        bool_decide (c = "-"%char) || bool_decide (c = "_"%char) ||
        bool_decide (c = "."%char) || bool_decide (c = "~"%char)).

(** The bytes [QueryEscape] leaves as they are. *)
Definition unreserved (c : ascii) : Prop := shouldEscape c = false.

(** [upperhex[n]] for [n] below 16. *)
Definition upperhex (n : Z) : ascii :=
  if decide (n < 10) then ascii_of_N (Z.to_N (48 + n))
  else ascii_of_N (Z.to_N (55 + n)).

(** [url.QueryEscape]: a space becomes [+], a byte to escape becomes [%]
    and its two hexadecimal digits, upper case. *)
Fixpoint QueryEscape (s : string) : string :=
  match s with
  | EmptyString => EmptyString
  | String c s' =>
      let n := Z.of_N (N_of_ascii c) in
      if bool_decide (c = " "%char) then String "+"%char (QueryEscape s')
      else if shouldEscape c
      then String "%"%char
             (String (upperhex (Z.shiftr n 4))
                (String (upperhex (Z.land n 15)) (QueryEscape s')))
      else String c (QueryEscape s')
  end.

(** The URL [httpGetter.Get] requests:
    [fmt.Sprintf("%v%v/%v", h.baseURL, url.QueryEscape(group),
    url.QueryEscape(key))]. *)
Definition Get_url (h : httpGetter) (group key : string) : string :=
  baseURL h +:+ QueryEscape group +:+ "/" +:+ QueryEscape key.

Definition StatusBadRequest : Z := 400.
Definition StatusNotFound : Z := 404.
Definition StatusInternalServerError : Z := 500.

Section ServeHTTP.

(** What [ServeHTTP] calls outside this file: the registry of groups
    ([GetGroup]), the lookup in a group ([Group.Get] with a sink that
    allocates the value; an error is given by its text), and the encoding
    of the response message ([proto.Marshal] of a [GetResponse] with the
    value).  [Ctx] is [context.Context]. *)
Context {Group Ctx Bytes : Type}.
Variable GetGroup : string → option Group.
Variable group_Get : Group → Ctx → string → Bytes + string.
Variable Marshal : Bytes → Bytes + string.

(** The request: [r.URL.Path] and [r.Context()]. *)
Record Request : Type := mkRequest { Path : string; req_ctx : Ctx }.

(** What the handler does with the response writer: a call of
    [http.Error], or the content type set and the body written. *)
Inductive response : Type :=
  | Error_ (msg : string) (code : Z)
  | Written (content_type : string) (body : Bytes).

(** [ServeHTTP]; [Context] is the field [p.Context], [None] for nil.
    With the response comes the group whose [Stats.ServerRequests] was
    incremented, if any.  [None] is the panic. *)
Definition ServeHTTP (Context : option (Request → Ctx)) (p : HTTPPool) (r : Request)
    : option (response * option Group) :=
  if negb (HasPrefix (Path r) (BasePath (opts p))) then None
  else
    match SplitN_slash_2 (slice_from (String.length (BasePath (opts p))) (Path r)) with
    | [groupName; key] =>
        match GetGroup groupName with
        | None =>
            Some (Error_ ("no such group: " +:+ groupName) StatusNotFound, None)
        | Some group =>
            let ctx := match Context with
                       | Some f => f r
                       | None => req_ctx r
                       end in
            match group_Get group ctx key with
            | inr err => Some (Error_ err StatusInternalServerError, Some group)
            | inl value =>
                match Marshal value with
                | inr err => Some (Error_ err StatusInternalServerError, Some group)
                | inl body => Some (Written "application/x-protobuf" body, Some group)
                end
            end
        end
    | _ => Some (Error_ "bad request" StatusBadRequest, None)
    end.

(** What the handler answers once the group name and the key are known. *)
Definition answer (ctx : Ctx) (groupName key : string) : response * option Group :=
  match GetGroup groupName with
  | None => (Error_ ("no such group: " +:+ groupName) StatusNotFound, None)
  | Some group =>
      match group_Get group ctx key with
      | inr err => (Error_ err StatusInternalServerError, Some group)
      | inl value =>
          match Marshal value with
          | inr err => (Error_ err StatusInternalServerError, Some group)
          | inl body => (Written "application/x-protobuf" body, Some group)
          end
      end
  end.

(** The context the handler passes on. *)
Definition context_of (Context : option (Request → Ctx)) (r : Request) : Ctx :=
  match Context with
  | Some f => f r
  | None => req_ctx r
  end.

End ServeHTTP.

(** [NewHTTPPool]: the pool of the default options; it is then registered
    as the handler of its base path. *)
Definition NewHTTPPool (self : string) : HTTPPool * string :=
  let p := NewHTTPPoolOpts self None in (p, BasePath (opts p)).

End groupcache_http.

(** ** singleflight: goroutines calling [Group.Do]

    The goroutines of a program that call [Do] on one [Group], as an
    interleaving semantics: a state holds the group, the call records
    allocated so far and, for every goroutine, its arguments, its program
    counter and its local variable [c]; a step runs one statement of one
    goroutine.  The statements between [Lock] and [Unlock] that touch only
    [g.m] and a record no other goroutine can reach yet are one step. *)

Module singleflight.
Section singleflight.

(** [V] is what [fn] returns as [interface{}] and [Err] as [error];
    [None] is nil. *)
Context {V Err : Type}.

Definition outcome : Type := option V * option Err.

(** [type call]: [wg] is the counter of the wait group. *)
Record call : Type := mkCall { wg : nat; val : option V; err : option Err }.

Inductive pc : Type :=
  | pLock        (* g.mu.Lock() *)
  | pLookup      (* if g.m == nil { g.m = make(..) }; if c, ok := g.m[key]; ok *)
  | pHitUnlock   (*   g.mu.Unlock() *)
  | pWait        (*   c.wg.Wait() *)
  | pHitRet      (*   return c.val, c.err *)
  | pRegister    (* c := new(call); c.wg.Add(1); g.m[key] = c *)
  | pUnlock1     (* g.mu.Unlock() *)
  | pCall        (* fn is entered *)
  | pFnRet       (* c.val, c.err = the results of fn *)
  | pWgDone      (* c.wg.Done() *)
  | pLock2       (* g.mu.Lock() *)
  | pDelete      (* delete(g.m, key) *)
  | pUnlock2     (* g.mu.Unlock() *)
  | pRet         (* return c.val, c.err *)
  | pHitDone     (* returned as a duplicate *)
  | pDone.       (* returned after running fn *)

#[global] Instance pc_eq_dec : EqDecision pc.
Proof. solve_decision. Defined.

(** A goroutine in [Do(key, fn)].  [fn] is instrumented: the state counts
    the calls of work functions, and the call number [i] (from 0) returns
    [fn i].  [inv] is the number of the call this goroutine made, [ret]
    what [Do] returned to it. *)
Record goroutine : Type := mkG {
  key : string;
  fn : nat → outcome;
  at_pc : pc;
  c : option nat;
  inv : option nat;
  ret : option outcome
}.

Record state : Type := mkState {
  mu : bool;                          (* the mutex is locked *)
  m : option (gmap string nat);       (* lazily initialized *)
  heap : list call;                   (* the records, by address *)
  calls : nat;                        (* calls of work functions so far *)
  gs : list goroutine
}.

(** A goroutine that has just called [Do(key, fn)]. *)
Definition caller (k : string) (f : nat → outcome) : goroutine :=
  {| key := k; fn := f; at_pc := pLock; c := None; inv := None; ret := None |}.

(** The zero [Group] and the given callers. *)
Definition init (callers : list goroutine) : state :=
  {| mu := false; m := None; heap := []; calls := 0; gs := callers |}.

Definition goto (g : goroutine) (p : pc) : goroutine :=
  {| key := key g; fn := fn g; at_pc := p; c := c g; inv := inv g; ret := ret g |}.

Definition set_c (g : goroutine) (p : pc) (l : nat) : goroutine :=
  {| key := key g; fn := fn g; at_pc := p; c := Some l; inv := inv g; ret := ret g |}.

Definition set_inv (g : goroutine) (p : pc) (i : nat) : goroutine :=
  {| key := key g; fn := fn g; at_pc := p; c := c g; inv := Some i; ret := ret g |}.

Definition set_ret (g : goroutine) (p : pc) (r : outcome) : goroutine :=
  {| key := key g; fn := fn g; at_pc := p; c := c g; inv := inv g; ret := Some r |}.

Definition upd (s : state) (t : nat) (g : goroutine) : list goroutine :=
  <[t := g]> (gs s).

(** One step of goroutine [t]; [None] when it cannot move: it is blocked
    on the mutex or on the wait group, it has returned, or there is no
    such goroutine (or, in states the program does not reach, it would
    panic). *)
Definition step (s : state) (t : nat) : option state :=
  g ← gs s !! t;
  match at_pc g with
  | pLock | pLock2 =>
      if mu s then None
      else Some {| mu := true; m := m s; heap := heap s; calls := calls s;
                   gs := upd s t (goto g (if decide (at_pc g = pLock)
                                          then pLookup else pDelete)) |}
  | pLookup =>
      let mp := default ∅ (m s) in
      match mp !! key g with
      | Some l => Some {| mu := mu s; m := Some mp; heap := heap s; calls := calls s;
                          gs := upd s t (set_c g pHitUnlock l) |}
      | None => Some {| mu := mu s; m := Some mp; heap := heap s; calls := calls s;
                        gs := upd s t (goto g pRegister) |}
      end
  | pHitUnlock | pUnlock1 | pUnlock2 =>
      Some {| mu := false; m := m s; heap := heap s; calls := calls s;
              gs := upd s t (goto g (match at_pc g with
                                     | pHitUnlock => pWait
                                     | pUnlock1 => pCall
                                     | _ => pRet
                                     end)) |}
  | pWait =>
      l ← c g; r ← heap s !! l;
      if decide (wg r = 0%nat)
      then Some {| mu := mu s; m := m s; heap := heap s; calls := calls s;
                   gs := upd s t (goto g pHitRet) |}
      else None
  | pHitRet | pRet =>
      l ← c g; r ← heap s !! l;
      Some {| mu := mu s; m := m s; heap := heap s; calls := calls s;
              gs := upd s t (set_ret g (if decide (at_pc g = pHitRet)
                                        then pHitDone else pDone)
                                     (val r, err r)) |}
  | pRegister =>
      mp ← m s;
      let l := length (heap s) in
      Some {| mu := mu s; m := Some (<[key g := l]> mp);
              heap := heap s ++ [mkCall 1 None None]; calls := calls s;
              gs := upd s t (set_c g pUnlock1 l) |}
  | pCall =>
      Some {| mu := mu s; m := m s; heap := heap s; calls := S (calls s);
              gs := upd s t (set_inv g pFnRet (calls s)) |}
  | pFnRet =>
      l ← c g; r ← heap s !! l; i ← inv g;
      Some {| mu := mu s; m := m s;
              heap := <[l := mkCall (wg r) (fn g i).1 (fn g i).2]> (heap s);
              calls := calls s;
              gs := upd s t (goto g pWgDone) |}
  | pWgDone =>
      l ← c g; r ← heap s !! l;
      match wg r with
      | O => None                      (* negative WaitGroup counter *)
      | S n => Some {| mu := mu s; m := m s;
                       heap := <[l := mkCall n (val r) (err r)]> (heap s);
                       calls := calls s;
                       gs := upd s t (goto g pLock2) |}
      end
  | pDelete =>
      Some {| mu := mu s; m := delete (key g) <$> m s; heap := heap s;
              calls := calls s;
              gs := upd s t (goto g pUnlock2) |}
  | pHitDone | pDone => None
  end.

(** A schedule names the goroutine that moves at each step. *)
Fixpoint run (s : state) (sched : list nat) : option state :=
  match sched with
  | [] => Some s
  | t :: sched' => s' ← step s t; run s' sched'
  end.

(** [g.m[key]], also on the nil map. *)
Definition registry (s : state) (k : string) : option nat :=
  default ∅ (m s) !! k.

(** Where a goroutine is in [Do]. *)

(** It has yet to look its key up. *)
Definition arriving (p : pc) : bool :=
  match p with pLock | pLookup => true | _ => false end.

(** It holds the mutex. *)
Definition holding (p : pc) : bool :=
  match p with
  | pLookup | pHitUnlock | pRegister | pUnlock1 | pDelete | pUnlock2 => true
  | _ => false
  end.

(** It found no record: it is to register one or has done so. *)
Definition missed (p : pc) : bool :=
  match p with
  | pRegister | pUnlock1 | pCall | pFnRet | pWgDone | pLock2 | pDelete
  | pUnlock2 | pRet | pDone => true
  | _ => false
  end.

(** It has registered a record, which is its [c]. *)
Definition owner (p : pc) : bool :=
  match p with
  | pUnlock1 | pCall | pFnRet | pWgDone | pLock2 | pDelete
  | pUnlock2 | pRet | pDone => true
  | _ => false
  end.

(** Its record is the one registered under its key: an execution for the
    key is in flight. *)
Definition registered (p : pc) : bool :=
  match p with
  | pUnlock1 | pCall | pFnRet | pWgDone | pLock2 | pDelete => true
  | _ => false
  end.

(** It has entered [fn]. *)
Definition called (p : pc) : bool :=
  match p with
  | pFnRet | pWgDone | pLock2 | pDelete | pUnlock2 | pRet | pDone => true
  | _ => false
  end.

(** It has released the wait group: its record has its final contents. *)
Definition released (p : pc) : bool :=
  match p with
  | pLock2 | pDelete | pUnlock2 | pRet | pDone => true
  | _ => false
  end.

(** It has removed its record from the map. *)
Definition removed (p : pc) : bool :=
  match p with pUnlock2 | pRet | pDone => true | _ => false end.

(** It found a record: it is a duplicate caller. *)
Definition duplicate (p : pc) : bool :=
  match p with
  | pHitUnlock | pWait | pHitRet | pHitDone => true
  | _ => false
  end.

(** It has passed [c.wg.Wait()]. *)
Definition woken (p : pc) : bool :=
  match p with pHitRet | pHitDone => true | _ => false end.

Definition returned (p : pc) : bool :=
  match p with pHitDone | pDone => true | _ => false end.




End singleflight.
Arguments outcome : clear implicits.
Arguments call : clear implicits.
Arguments goroutine : clear implicits.
Arguments state : clear implicits.
End singleflight.

(** * Definitions for the statements and the proofs *)

(** ** The ring *)

Section ring_defs.
Import consistenthash.

(** The hashes [Add m ks] appends, in the order of the two loops. *)
Definition replica_hashes (m : Map) (key : string) : list Z :=
  (λ i, uint32 (hash m (Itoa i +:+ key))) <$> seqZ 0 (replicas m).

Definition new_hashes (m : Map) (ks : list string) : list Z :=
  ks ≫= replica_hashes m.

(** Every hash of the sequence is bound, to an owner that satisfies [P]. *)
Definition bound_in (P : string → Prop) (m : Map) : Prop :=
  ∀ h, h ∈ keys m → ∃ o, hashMap m !! h = Some o ∧ P o.

(** The ring of the tests, and a ring on which two members collide. *)
Definition ring_642 : Map := Add (New 3 (Some parse_decimal)) ["6"; "4"; "2"].

Definition ring_collide : Map := Add (New 2 (Some parse_decimal)) ["6"; "16"].

End ring_defs.

(** ** The LRU cache *)

Section lru_defs.
Import lru.
Context {K : Type} `{Countable K} `{Comparable K} {V E : Type}.

(** The element pointers the map holds under the keys that are equal to
    themselves are exactly the elements of the list with such a key, each
    under the key of its entry; the other bindings of the map are under
    keys that are not equal to themselves; no element is in the list
    twice; the allocator is ahead of every element. *)
Definition wf (c : Cache K V E) : Prop :=
  match cache c, ll c with
  | None, None => True
  | Some m, Some l =>
      NoDup (ptr <$> l) ∧
      (∀ k p, found m !! k = Some p ↔
              self_equal k ∧ ∃ e, e ∈ l ∧ ptr e = p ∧ key (Value e) = k) ∧
      (∀ e, e ∈ l → (ptr e < next c)%nat) ∧
      (∀ e, e ∈ lost m → ¬ self_equal (key (Value e)))
  | _, _ => False
  end.

(** No key that is equal to itself is there twice. *)
Definition once (ks : list K) : Prop := NoDup (filter (λ k, self_equal k) ks).

(** The entries hold an entry whose key is [==] to [k]. *)
Definition present {A} (k : K) (es : list (K * A)) : Prop :=
  self_equal k ∧ k ∈ es.*1.

Definition ent (e : Element K V) : K * V := (key (Value e), value (Value e)).

(** The bindings of the map under keys that are not equal to themselves,
    as entries. *)
Definition lost_entries (c : Cache K V E) : list (K * V) :=
  match cache c with
  | Some m => ent <$> lost m
  | None => []
  end.

(** A use of [k] in an order of recency: [k] comes first. *)
Definition touch {A} (k : K) (x : A) (l : list (K * A)) : list (K * A) :=
  (k, x) :: filter (λ kv, kv.1 ≠ k) l.


(** The lazy initialization of [Add]. *)
Definition initialized (c : Cache K V E) : Cache K V E :=
  match cache c with
  | None => with_store c (Some []) (Some ∅)
  | Some _ => c
  end.

(** What [Add] does to the entries: the entries it leaves and the ones it
    evicts.  The new entry goes in front; one entry, the last, leaves when
    the bound is set and the length is over it. *)
Definition add_entries (M : Z) (k : K) (v : V) (es : list (K * V))
    : list (K * V) * list (K * V) :=
  if decide (present k es) then (touch k v es, [])
  else
    let es' := (k, v) :: es in
    if decide (M ≠ 0 ∧ M < Z.of_nat (length es'))
    then (take (length es) es', drop (length es) es')
    else (es', []).

(** The results of the callback on the entries [evs], if it is set. *)
Definition fired (c : Cache K V E) (kv : K * V) : list E :=
  match OnEvicted c with
  | Some f => [f kv.1 kv.2]
  | None => []
  end.

(** The callback [f] is called on exactly the entries that leave the
    cache [c], once each: for each operation, the entries that stay and
    the entries [gone], on which [f] was called, make up the entries that
    were there (for [Add], with the added entry in place of an old one
    under that key); no key is there twice.  [Clear] calls [f] on every
    entry, in some order. *)
Definition callback_exact (c : Cache K V E) (f : K → V → E) : Prop :=
  NoDup (entries c).*1 ∧
  (∀ k v, ∃ c' gone,
     Add c k v = Some (c', (λ kv, f kv.1 kv.2) <$> gone) ∧
     entries c' ++ gone ≡ₚ touch k v (entries c)) ∧
  (∀ k, ∃ c' gone,
     Remove c k = Some (c', (λ kv, f kv.1 kv.2) <$> gone) ∧
     entries c' ++ gone ≡ₚ entries c ∧ k ∉ (entries c').*1) ∧
  (∃ c' gone,
     RemoveOldest c = Some (c', (λ kv, f kv.1 kv.2) <$> gone) ∧
     entries c' ++ gone = entries c ∧ (length gone ≤ 1)%nat ∧
     (entries c ≠ [] → length gone = 1%nat)) ∧
  (∃ c' evs,
     Clear c = Some (c', evs) ∧
     evs ≡ₚ (λ kv, f kv.1 kv.2) <$> entries c ∧ entries c' = []).

End lru_defs.

(** A string is equal to itself. *)
#[global] Instance string_comparable : lru.Comparable string := λ _, true.

(** Keys of type [float64]: a number, here an integer, or NaN, which is
    not equal to itself. *)
Inductive float_key : Type := NaN | number (n : Z).

#[global] Instance float_key_eq_dec : EqDecision float_key.
Proof. solve_decision. Defined.

#[global] Instance float_key_countable : Countable float_key.
Proof.
  refine (inj_countable' (λ x, match x with NaN => None | number n => Some n end)
                         (λ o, match o with None => NaN | Some n => number n end) _).
  by intros [].
Defined.

#[global] Instance float_key_comparable : lru.Comparable float_key :=
  λ x, match x with NaN => false | number _ => true end.

(** The caches of the examples: the callback records its arguments. *)
Definition abc : list (string * Z) := [("A", 1); ("B", 2); ("C", 3)].

Definition lru_two : lru.Cache string Z (string * Z) :=
  lru.with_OnEvicted (lru.New 2) (Some pair).

(** Capacity 2, full: C and B, after A was evicted. *)
Definition lru_full : lru.Cache string Z (string * Z) :=
  default lru.zero (fst <$> lru.Adds lru_two abc).

(** Three entries, then [MaxEntries] set to 1. *)
Definition lru_over : lru.Cache string Z (string * Z) :=
  lru.with_MaxEntries
    (default lru.zero (fst <$> lru.Adds (lru.with_OnEvicted (lru.New 0) (Some pair)) abc))
    1.

(** ** singleflight *)

Section sf_defs.
Local Open Scope nat_scope.
Import singleflight.
Context {V Err : Type}.
Abbreviation goroutine := (goroutine V Err).
Abbreviation state := (state V Err).
Abbreviation call := (call V Err).

(** The contents of the record of a goroutine that has registered one:
    the counter is 1 until [Done], the results are those of its call of
    [fn] from when [fn] has returned. *)
Definition record_of (g : goroutine) : option call :=
  match at_pc g with
  | pUnlock1 | pCall => Some (mkCall 1 None None)
  | pFnRet => _ ← inv g; Some (mkCall 1 None None)
  | pWgDone => i ← inv g; Some (mkCall 1 (fn g i).1 (fn g i).2)
  | pLock2 | pDelete | pUnlock2 | pRet | pDone =>
      i ← inv g; Some (mkCall 0 (fn g i).1 (fn g i).2)
  | _ => None
  end.

(** The invariant of the reachable states. *)
Record Inv (s : state) : Prop := mkInv {
  (* the mutex *)
  inv_mutex : ∀ t1 t2 g1 g2,
    gs s !! t1 = Some g1 → gs s !! t2 = Some g2 →
    holding (at_pc g1) → holding (at_pc g2) → t1 = t2;
  inv_free : mu s = false → ∀ t g, gs s !! t = Some g → ¬ holding (at_pc g);
  inv_held : mu s = true → ∃ t g, gs s !! t = Some g ∧ holding (at_pc g);
  (* the map and the goroutines whose record it holds *)
  inv_reg_owner : ∀ k l, registry s k = Some l →
    ∃ t g, gs s !! t = Some g ∧ registered (at_pc g) ∧ key g = k ∧ c g = Some l;
  inv_owner_reg : ∀ t g, gs s !! t = Some g → registered (at_pc g) →
    registry s (key g) = c g;
  inv_register : ∀ t g, gs s !! t = Some g → at_pc g = pRegister →
    is_Some (m s) ∧ registry s (key g) = None;
  (* the records *)
  inv_record : ∀ t g, gs s !! t = Some g → owner (at_pc g) →
    ∃ l r, c g = Some l ∧ record_of g = Some r ∧ heap s !! l = Some r;
  inv_owner_inj : ∀ t1 t2 g1 g2,
    gs s !! t1 = Some g1 → gs s !! t2 = Some g2 →
    owner (at_pc g1) → owner (at_pc g2) → c g1 = c g2 → t1 = t2;
  (* the duplicate callers *)
  inv_dup : ∀ t g, gs s !! t = Some g → duplicate (at_pc g) →
    ∃ t' g', gs s !! t' = Some g' ∧ owner (at_pc g') ∧ c g' = c g ∧
             key g' = key g ∧ (woken (at_pc g) → released (at_pc g'));
  inv_dup_ret : ∀ t g, gs s !! t = Some g → at_pc g = pHitDone →
    ∃ t' g', gs s !! t' = Some g' ∧ owner (at_pc g') ∧ c g' = c g ∧
             key g' = key g ∧ ∃ i, inv g' = Some i ∧ ret g = Some (fn g' i);
  inv_ret : ∀ t g, gs s !! t = Some g → at_pc g = pDone →
    ∃ i, inv g = Some i ∧ ret g = Some (fn g i);
  (* the calls of the work functions *)
  inv_called : ∀ t g i, gs s !! t = Some g → inv g = Some i →
    called (at_pc g) ∧ i < calls s;
  inv_called_inj : ∀ t1 t2 g1 g2 i,
    gs s !! t1 = Some g1 → gs s !! t2 = Some g2 →
    inv g1 = Some i → inv g2 = Some i → t1 = t2;
  inv_calls : ∀ i, i < calls s → ∃ t g, gs s !! t = Some g ∧ inv g = Some i
}.


(** All goroutines have just called [Do]. *)
Definition fresh (cs : list goroutine) : Prop :=
  Forall (λ g, at_pc g = pLock ∧ c g = None ∧ inv g = None ∧ ret g = None) cs.

(** The steps, one by one. *)
Inductive trans (s : state) (t : nat) (g : goroutine) : state → Prop :=
  | t_Lock : at_pc g = pLock → mu s = false →
      trans s t g (mkState true (m s) (heap s) (calls s) (<[t := goto g pLookup]> (gs s)))
  | t_Lock2 : at_pc g = pLock2 → mu s = false →
      trans s t g (mkState true (m s) (heap s) (calls s) (<[t := goto g pDelete]> (gs s)))
  | t_Hit l : at_pc g = pLookup → registry s (key g) = Some l →
      trans s t g (mkState (mu s) (Some (default ∅ (m s))) (heap s) (calls s)
                     (<[t := set_c g pHitUnlock l]> (gs s)))
  | t_Miss : at_pc g = pLookup → registry s (key g) = None →
      trans s t g (mkState (mu s) (Some (default ∅ (m s))) (heap s) (calls s)
                     (<[t := goto g pRegister]> (gs s)))
  | t_HitUnlock : at_pc g = pHitUnlock →
      trans s t g (mkState false (m s) (heap s) (calls s) (<[t := goto g pWait]> (gs s)))
  | t_Unlock1 : at_pc g = pUnlock1 →
      trans s t g (mkState false (m s) (heap s) (calls s) (<[t := goto g pCall]> (gs s)))
  | t_Unlock2 : at_pc g = pUnlock2 →
      trans s t g (mkState false (m s) (heap s) (calls s) (<[t := goto g pRet]> (gs s)))
  | t_Wait l r : at_pc g = pWait → c g = Some l → heap s !! l = Some r → wg r = 0 →
      trans s t g (mkState (mu s) (m s) (heap s) (calls s) (<[t := goto g pHitRet]> (gs s)))
  | t_HitRet l r : at_pc g = pHitRet → c g = Some l → heap s !! l = Some r →
      trans s t g (mkState (mu s) (m s) (heap s) (calls s)
                     (<[t := set_ret g pHitDone (val r, err r)]> (gs s)))
  | t_Ret l r : at_pc g = pRet → c g = Some l → heap s !! l = Some r →
      trans s t g (mkState (mu s) (m s) (heap s) (calls s)
                     (<[t := set_ret g pDone (val r, err r)]> (gs s)))
  | t_Register mp : at_pc g = pRegister → m s = Some mp →
      trans s t g (mkState (mu s) (Some (<[key g := length (heap s)]> mp))
                     (heap s ++ [mkCall 1 None None]) (calls s)
                     (<[t := set_c g pUnlock1 (length (heap s))]> (gs s)))
  | t_Call : at_pc g = pCall →
      trans s t g (mkState (mu s) (m s) (heap s) (S (calls s))
                     (<[t := set_inv g pFnRet (calls s)]> (gs s)))
  | t_FnRet l r i : at_pc g = pFnRet → c g = Some l → heap s !! l = Some r → inv g = Some i →
      trans s t g (mkState (mu s) (m s)
                     (<[l := mkCall (wg r) (fn g i).1 (fn g i).2]> (heap s)) (calls s)
                     (<[t := goto g pWgDone]> (gs s)))
  | t_WgDone l r n : at_pc g = pWgDone → c g = Some l → heap s !! l = Some r → wg r = S n →
      trans s t g (mkState (mu s) (m s)
                     (<[l := mkCall n (val r) (err r)]> (heap s)) (calls s)
                     (<[t := goto g pLock2]> (gs s)))
  | t_Delete : at_pc g = pDelete →
      trans s t g (mkState (mu s) (delete (key g) <$> m s) (heap s) (calls s)
                     (<[t := goto g pUnlock2]> (gs s))).

End sf_defs.

Section sf_example_defs.
Import singleflight.
Local Open Scope nat_scope.

(** The work function of the examples returns the number of its call. *)
Definition count : nat → outcome nat string := λ i, (Some i, None).

Definition two_callers : list (goroutine nat string) :=
  [caller "x" count; caller "x" count].


(** Goroutine 0 registers, goroutine 1 finds the record and waits,
    goroutine 0 runs [fn] and leaves, goroutine 1 returns. *)
Definition sched_joined : list nat :=
  [0; 0; 0; 0; 1; 1; 1; 0; 0; 0; 0; 0; 0; 0; 1; 1].


Definition final (cs : list (goroutine nat string)) (sched : list nat) : state nat string :=
  default (init cs) (run (init cs) sched).

End sf_example_defs.

(** ** Further definitions: the ring, singleflight *)

Section ring_more_defs.
Import consistenthash.

(** A ring with the members it was built from: [New], then [Add]s. *)
Inductive built_from : list string → Map → Prop :=
  | built_from_New r fn : built_from [] (New r fn)
  | built_from_Add ms m ks : built_from ms m → built_from (ms ++ ks) (Add m ks).

(** [x] is the position [Get] picks in the sequence [l] for the hash [h]:
    the least hash of [l] that is at least [h], or, when there is none,
    the least hash of [l]. *)
Definition picks (l : list Z) (h x : Z) : Prop :=
  x ∈ l ∧
  ((h ≤ x ∧ ∀ y, y ∈ l → h ≤ y → x ≤ y) ∨
   ((∀ y, y ∈ l → y < h) ∧ ∀ y, y ∈ l → x ≤ y)).

End ring_more_defs.

Section sf_more_defs.
Import singleflight.
Local Open Scope nat_scope.
Context {V Err : Type}.
Abbreviation goroutine := (goroutine V Err).
Abbreviation state := (state V Err).

(** The number of statements a goroutine at [p] has before it at most. *)
Definition rank (p : pc) : nat :=
  match p with
  | pLock => 11 | pLookup => 10 | pRegister => 9 | pUnlock1 => 8 | pCall => 7
  | pFnRet => 6 | pWgDone => 5 | pLock2 => 4 | pDelete => 3 | pUnlock2 => 2
  | pRet => 1 | pDone => 0
  | pHitUnlock => 3 | pWait => 2 | pHitRet => 1 | pHitDone => 0
  end.

Definition potential (s : state) : nat :=
  sum_list_with (λ g, rank (at_pc g)) (gs s).

(** The number of goroutines that have entered their work function. *)
Definition entered (s : state) : nat :=
  sum_list_with (λ g, if called (at_pc g) then 1 else 0) (gs s).

(** The number of goroutines that found a record. *)
Definition duplicates (s : state) : nat :=
  sum_list_with (λ g, if duplicate (at_pc g) then 1 else 0) (gs s).

(** Why a goroutine cannot move: it has returned, it waits for the mutex,
    which is held, or it waits on the record of a caller with its key
    that has not called [Done] yet. *)
Definition waits (s : state) (g : goroutine) : Prop :=
  returned (at_pc g) ∨
  ((at_pc g = pLock ∨ at_pc g = pLock2) ∧ mu s = true) ∨
  (at_pc g = pWait ∧
   ∃ t' g', gs s !! t' = Some g' ∧ key g' = key g ∧ c g' = c g ∧
            owner (at_pc g') ∧ ¬ released (at_pc g')).

End sf_more_defs.

(** * The ring and the peer picker *)

Section ring_theory.
Import consistenthash.

Section search.
Local Open Scope nat_scope.

Lemma Search_loop_S (f : nat → bool) fuel i j :
  Search_loop (S fuel) f i j =
  if decide (i < j) then
    if negb (f ((i + j) / 2)) then Search_loop fuel f ((i + j) / 2 + 1) j
    else Search_loop fuel f i ((i + j) / 2)
  else i.
Proof. done. Qed.

Lemma Search_loop_spec (f : nat → bool) (n : nat) :
  (∀ a b, a ≤ b → b < n → f a = true → f b = true) →
  ∀ fuel i j, i ≤ j ≤ n → j - i ≤ fuel →
    (∀ a, a < i → f a = false) → (∀ b, j ≤ b < n → f b = true) →
    i ≤ Search_loop fuel f i j ≤ j ∧
    (∀ a, a < Search_loop fuel f i j → f a = false) ∧
    (∀ b, Search_loop fuel f i j ≤ b < n → f b = true).
Proof.
  intros Hmono. induction fuel as [|fuel IH]; intros i j Hij Hfuel Hlo Hhi;
    [simpl | rewrite Search_loop_S].
  - assert (i = j) as -> by lia. repeat split; auto; lia.
  - destruct (decide (i < j)) as [Hlt|Hge].
    + assert (i ≤ (i + j) / 2 < j) as Hh.
      { split; [apply Nat.div_le_lower_bound | apply Nat.Div0.div_lt_upper_bound]; lia. }
      destruct (f ((i + j) / 2)) eqn:Hf; cbn [negb].
      * assert (∀ b, (i + j) / 2 ≤ b < n → f b = true) as Hhi'.
        { intros b Hb. apply (Hmono ((i + j) / 2)); [lia|lia|done]. }
        destruct (IH i ((i + j) / 2) ltac:(lia) ltac:(lia) Hlo Hhi') as ([??]&?&?).
        split; [lia|]. split; auto.
      * assert (∀ a, a < (i + j) / 2 + 1 → f a = false) as Hlo'.
        { intros a Ha. destruct (f a) eqn:Hfa; [|done].
          rewrite <- Hf. symmetry. apply (Hmono a); [lia|lia|done]. }
        destruct (IH ((i + j) / 2 + 1) j ltac:(lia) ltac:(lia) Hlo' Hhi) as ([??]&?&?).
        split; [lia|]. split; auto.
    + assert (i = j) as -> by lia. repeat split; auto; lia.
Qed.

(** The fuel [Search] gives the loop is enough: more changes nothing. *)
Lemma Search_loop_fuel (f : nat → bool) fuel fuel' i j :
  j - i ≤ fuel → j - i ≤ fuel' → Search_loop fuel f i j = Search_loop fuel' f i j.
Proof.
  revert fuel' i j. induction fuel as [|fuel IH]; intros [|fuel'] i j H1 H2;
    rewrite ?Search_loop_S; try done.
  - simpl. destruct (decide (i < j)); [lia|done].
  - simpl. destruct (decide (i < j)); [lia|done].
  - destruct (decide (i < j)) as [Hlt|]; [|done].
    assert (i ≤ (i + j) / 2 < j) as Hh.
    { split; [apply Nat.div_le_lower_bound | apply Nat.Div0.div_lt_upper_bound]; lia. }
    destruct (f ((i + j) / 2)); cbn [negb]; apply IH; lia.
Qed.

Lemma Search_spec (f : nat → bool) (n : nat) :
  (∀ a b, a ≤ b → b < n → f a = true → f b = true) →
  Search n f ≤ n ∧
  (∀ a, a < Search n f → f a = false) ∧
  (∀ b, Search n f ≤ b < n → f b = true).
Proof.
  intros Hmono. unfold Search.
  assert (∀ a, a < 0 → f a = false) as Hlo by (intros; lia).
  assert (∀ b, n ≤ b < n → f b = true) as Hhi by (intros; lia).
  destruct (Search_loop_spec f n Hmono n 0 n ltac:(lia) ltac:(lia) Hlo Hhi) as ([??]&?&?).
  auto.
Qed.

Lemma StronglySorted_lookup_le (l : list Z) i j x y :
  StronglySorted Z.le l → i ≤ j → l !! i = Some x → l !! j = Some y → (x ≤ y)%Z.
Proof.
  intros Hs. revert i j. induction Hs as [|a l Hs IH Hall]; intros i j Hij Hi Hj; [done|].
  destruct i as [|i], j as [|j]; simpl in *; simplify_eq; try lia.
  - rewrite Forall_forall in Hall. apply Hall. by eapply list_elem_of_lookup_2.
  - eapply (IH i j); [lia|done..].
Qed.

End search.

(** *** How [Add] changes the ring *)

Lemma foldl_invariant {A B} (P : A → Prop) (Q : B → Prop) (f : A → B → A) l a :
  (∀ a x, Q x → P a → P (f a x)) → Forall Q l → P a → P (foldl f a l).
Proof.
  intros Hf Hl. revert a. induction Hl; simpl; auto.
Qed.

Lemma add_key_hash m key : hash (add_key m key) = hash m.
Proof.
  unfold add_key. apply (foldl_invariant (λ m', hash m' = hash m) (λ _, True)); auto.
  by apply Forall_forall.
Qed.

Lemma add_key_replicas m key : replicas (add_key m key) = replicas m.
Proof.
  unfold add_key. apply (foldl_invariant (λ m', replicas m' = replicas m) (λ _, True)); auto.
  by apply Forall_forall.
Qed.

Lemma foldl_add_replica_keys key l m :
  keys (foldl (add_replica key) m l)
  = keys m ++ ((λ i, uint32 (hash m (Itoa i +:+ key))) <$> l).
Proof.
  revert m. induction l as [|i l IH]; intros m; simpl.
  - by rewrite app_nil_r.
  - rewrite IH. simpl. by rewrite <- app_assoc.
Qed.

Lemma add_key_keys m key : keys (add_key m key) = keys m ++ replica_hashes m key.
Proof. apply foldl_add_replica_keys. Qed.

Lemma foldl_add_key_hash m ks : hash (foldl add_key m ks) = hash m.
Proof.
  revert m. induction ks as [|k ks IH]; intros m; simpl; [done|].
  by rewrite IH, add_key_hash.
Qed.

Lemma foldl_add_key_replicas m ks : replicas (foldl add_key m ks) = replicas m.
Proof.
  revert m. induction ks as [|k ks IH]; intros m; simpl; [done|].
  by rewrite IH, add_key_replicas.
Qed.

Lemma replica_hashes_ext m m' key :
  hash m' = hash m → replicas m' = replicas m →
  replica_hashes m' key = replica_hashes m key.
Proof. unfold replica_hashes. by intros -> ->. Qed.

Lemma foldl_add_key_keys m ks :
  keys (foldl add_key m ks) = keys m ++ new_hashes m ks.
Proof.
  revert m. induction ks as [|k ks IH]; intros m; simpl.
  - by rewrite app_nil_r.
  - rewrite IH, add_key_keys, <- app_assoc. f_equal.
    unfold new_hashes. simpl. f_equal.
    apply list_bind_ext; [|done]. intros k'.
    apply replica_hashes_ext; [apply add_key_hash | apply add_key_replicas].
Qed.

Lemma Add_keys m ks : keys (Add m ks) = sort_Ints (keys m ++ new_hashes m ks).
Proof. unfold Add. simpl. by rewrite foldl_add_key_keys. Qed.

Lemma Add_keys_Permutation m ks : keys (Add m ks) ≡ₚ keys m ++ new_hashes m ks.
Proof. rewrite Add_keys. apply merge_sort_Permutation. Qed.

Lemma Add_hash m ks : hash (Add m ks) = hash m.
Proof. apply foldl_add_key_hash. Qed.

Lemma Add_replicas m ks : replicas (Add m ks) = replicas m.
Proof. apply foldl_add_key_replicas. Qed.

Lemma Add_sorted m ks : StronglySorted Z.le (keys (Add m ks)).
Proof. rewrite Add_keys. apply StronglySorted_merge_sort; apply _. Qed.

Lemma add_replica_bound P key m i : P key → bound_in P m → bound_in P (add_replica key m i).
Proof.
  intros HP Hm h. unfold add_replica; simpl. intros Hh.
  destruct (decide (h = uint32 (hash m (Itoa i +:+ key)))) as [->|Hne].
  - exists key. by rewrite lookup_insert_eq.
  - rewrite lookup_insert_ne by done. apply Hm.
    apply elem_of_app in Hh as [?|Hh]; [done|]. apply list_elem_of_singleton in Hh. done.
Qed.

Lemma add_key_bound P m key : P key → bound_in P m → bound_in P (add_key m key).
Proof.
  intros HP. unfold add_key.
  apply (foldl_invariant (bound_in P) (λ _, True)).
  - intros. by apply add_replica_bound.
  - by apply Forall_forall.
Qed.

Lemma Add_bound P m ks : Forall P ks → bound_in P m → bound_in P (Add m ks).
Proof.
  intros Hks Hm h Hh. unfold Add in *. simpl in *.
  unfold sort_Ints in Hh. rewrite merge_sort_Permutation in Hh.
  revert h Hh. fold (bound_in P (foldl add_key m ks)).
  apply (foldl_invariant (bound_in P) P); auto.
  intros. by apply add_key_bound.
Qed.

Lemma New_bound P r fn : bound_in P (New r fn).
Proof. intros h Hh. simpl in Hh. by apply elem_of_nil in Hh. Qed.

Lemma built_sorted m : built m → StronglySorted Z.le (keys m).
Proof. destruct 1; [constructor | apply Add_sorted]. Qed.

Lemma built_bound m : built m → bound_in (λ _, True) m.
Proof.
  induction 1; [apply New_bound|]. apply Add_bound; [|done]. by apply Forall_forall.
Qed.

(** *** [Get] *)

Lemma Get_Search_mono (l : list Z) (h : Z) :
  StronglySorted Z.le l →
  ∀ a b : nat, (a ≤ b)%nat → (b < length l)%nat →
    bool_decide (h ≤ l !!! a) = true → bool_decide (h ≤ l !!! b) = true.
Proof.
  intros Hs a b Hab Hb Ha. apply bool_decide_eq_true in Ha. apply bool_decide_eq_true.
  assert (l !!! a ≤ l !!! b); [|lia].
  apply (StronglySorted_lookup_le l a b); [done|done|..];
    apply list_lookup_lookup_total_lt; lia.
Qed.

(** C2.  On a ring built by [New] and [Add], with whatever hash function:
    [Get] returns the empty string if the ring is empty; otherwise, with
    [h] the hash of the key, the binary search yields the least index [i]
    whose hash is at least [h] (every hash before [i] is below [h], the
    hash at [i], if any, is not), the length when there is none, and [Get]
    returns the owner bound to the hash at [i], or at 0 when [i] is the
    length. *)
Theorem Get_least_successor (m : Map) (key : string) :
  built m →
  (IsEmpty m = true → Get m key = "") ∧
  (IsEmpty m = false →
     let h := uint32 (hash m key) in
     ∃ i : nat,
       Search (length (keys m)) (λ i, bool_decide (h ≤ keys m !!! i)) = i ∧
       (i ≤ length (keys m))%nat ∧
       (∀ j x, (j < i)%nat → keys m !! j = Some x → x < h) ∧
       (∀ x, keys m !! i = Some x → h ≤ x) ∧
       ∃ x owner,
         keys m !! (if decide (i = length (keys m)) then 0%nat else i) = Some x ∧
         hashMap m !! x = Some owner ∧
         Get m key = owner).
Proof.
  intros Hb. split.
  - intros He. unfold Get. by rewrite He.
  - intros He h. unfold Get. rewrite He. fold h.
    pose proof (built_sorted m Hb) as Hs.
    destruct (Search_spec (λ i, bool_decide (h ≤ keys m !!! i)) (length (keys m))
                (Get_Search_mono (keys m) h Hs)) as (Hle & Hlo & Hhi).
    set (i := Search (length (keys m)) (λ i, bool_decide (h ≤ keys m !!! i))) in *.
    exists i. split; [done|]. split; [done|]. split; [|split].
    + intros j x Hj Hx. specialize (Hlo j Hj). apply bool_decide_eq_false in Hlo.
      rewrite (list_lookup_total_correct _ _ _ Hx) in Hlo. lia.
    + intros x Hx. assert (i < length (keys m))%nat as Hi by (by eapply lookup_lt_Some).
      specialize (Hhi i (conj (le_n _) Hi)). apply bool_decide_eq_true in Hhi.
      by rewrite (list_lookup_total_correct _ _ _ Hx) in Hhi.
    + unfold IsEmpty in He. apply bool_decide_eq_false in He.
      set (i' := if decide (i = length (keys m)) then 0%nat else i).
      assert (i' < length (keys m))%nat as Hi'.
      { unfold i'. destruct (decide (i = length (keys m))); lia. }
      destruct (lookup_lt_is_Some_2 _ _ Hi') as [x Hx].
      destruct (built_bound m Hb x) as (o & Ho & _).
      { by eapply list_elem_of_lookup_2. }
      exists x, o. split; [done|]. split; [done|].
      by rewrite (list_lookup_total_correct _ _ _ Hx), Ho.
Qed.

Lemma Get_least_successor_witness :
  built ring_642 ∧
  (IsEmpty ring_642 = false →
   ∃ i : nat,
     Search (length (keys ring_642))
       (λ i, bool_decide (uint32 (hash ring_642 "23") ≤ keys ring_642 !!! i)) = i ∧
     (i ≤ length (keys ring_642))%nat ∧
     (∀ j x, (j < i)%nat → keys ring_642 !! j = Some x → x < uint32 (hash ring_642 "23")) ∧
     (∀ x, keys ring_642 !! i = Some x → uint32 (hash ring_642 "23") ≤ x) ∧
     ∃ x owner,
       keys ring_642 !! (if decide (i = length (keys ring_642)) then 0%nat else i) = Some x ∧
       hashMap ring_642 !! x = Some owner ∧
       Get ring_642 "23" = owner).
Proof.
  assert (built ring_642) as Hb by (apply built_Add, built_New).
  split; [exact Hb|].
  exact (proj2 (Get_least_successor ring_642 "23" Hb)).
Defined.

(** C6.  The ring of the tests: decimal hash, 3 replicas, members 6, 4, 2;
    then member 8. *)
Theorem ring_smoke :
  keys ring_642 = [2; 4; 6; 12; 14; 16; 22; 24; 26] ∧
  Get ring_642 "2" = "2" ∧
  Get ring_642 "11" = "2" ∧
  Get ring_642 "23" = "4" ∧
  Get ring_642 "27" = "2" ∧
  Get (Add ring_642 ["8"]) "27" = "8".
Proof. vm_compute. repeat split. Qed.

(** *** The invariants of the ring *)

(** C8, as stated, fails: replica 1 of member 6 and replica 0 of member 16
    both hash to 16 under the decimal hash, and the sequence holds 16
    twice. *)
Lemma ring_not_strictly_sorted :
  built ring_collide ∧
  keys ring_collide = [6; 16; 16; 116] ∧
  ¬ StronglySorted Z.lt (keys ring_collide) ∧
  ¬ NoDup (keys ring_collide).
Proof.
  split; [apply built_Add, built_New|]. split; [reflexivity|].
  change (keys ring_collide) with [6; 16; 16; 116]. split.
  - intros Hs. inversion Hs as [|?? Hs' _]; subst.
    inversion Hs' as [|?? _ Hall]; subst.
    inversion Hall as [|?? Hlt _]; subst. lia.
  - intros Hn. inversion Hn as [|?? _ Hn']; subst.
    inversion Hn' as [|?? Hnotin _]; subst.
    apply Hnotin. constructor.
Qed.

Lemma replica_hashes_length m key :
  length (replica_hashes m key) = Z.to_nat (replicas m).
Proof. unfold replica_hashes. by rewrite length_fmap, length_seqZ. Qed.

Lemma new_hashes_length m ks :
  length (new_hashes m ks) = (length ks * Z.to_nat (replicas m))%nat.
Proof.
  unfold new_hashes. induction ks as [|k ks IH]; [done|].
  rewrite bind_cons, length_app, IH, replica_hashes_length. simpl. lia.
Qed.

Lemma add_replica_dom key m i h :
  is_Some (hashMap m !! h) → is_Some (hashMap (add_replica key m i) !! h).
Proof.
  intros Hh. unfold add_replica; simpl.
  destruct (decide (uint32 (hash m (Itoa i +:+ key)) = h)) as [->|Hne].
  - rewrite lookup_insert_eq. eauto.
  - by rewrite lookup_insert_ne.
Qed.

Lemma Add_dom m ks h :
  is_Some (hashMap m !! h) → is_Some (hashMap (Add m ks) !! h).
Proof.
  intros Hh. unfold Add; simpl.
  apply (foldl_invariant (λ m', is_Some (hashMap m' !! h)) (λ _, True));
    [|by apply Forall_forall|done].
  intros m' k _ Hm'. unfold add_key.
  apply (foldl_invariant (λ m', is_Some (hashMap m' !! h)) (λ _, True));
    [|by apply Forall_forall|done].
  intros. by apply add_replica_dom.
Qed.

(** C8, amended.  After every sequence of [Add]s, with whatever hash
    function: the sequence is in ascending order (a hash may occur more
    than once), every hash of the sequence is bound to an owner, and an
    [Add] only adds: the new sequence is the old one and the hashes of the
    new replicas, rearranged, so that every old hash stays, as often as it
    occurred, and every bound hash stays bound. *)
Theorem ring_sorted_bound_growing (m : Map) :
  built m →
  StronglySorted Z.le (keys m) ∧
  (∀ h, h ∈ keys m → ∃ owner, hashMap m !! h = Some owner) ∧
  (∀ ks,
     keys (Add m ks) ≡ₚ keys m ++ new_hashes m ks ∧
     keys m ⊆+ keys (Add m ks) ∧
     length (keys (Add m ks))
       = (length (keys m) + length ks * Z.to_nat (replicas m))%nat ∧
     (∀ h, is_Some (hashMap m !! h) → is_Some (hashMap (Add m ks) !! h))).
Proof.
  intros Hb. split; [by apply built_sorted|]. split.
  - intros h Hh. destruct (built_bound m Hb h Hh) as (o & Ho & _). eauto.
  - intros ks. pose proof (Add_keys_Permutation m ks) as Hp.
    split; [done|]. split; [|split].
    + rewrite Hp. by apply submseteq_inserts_r.
    + by rewrite Hp, length_app, new_hashes_length.
    + intros h. apply Add_dom.
Qed.

Lemma ring_sorted_bound_growing_witness :
  built ring_collide ∧
  StronglySorted Z.le (keys ring_collide) ∧
  (∀ h, h ∈ keys ring_collide → ∃ owner, hashMap ring_collide !! h = Some owner) ∧
  (∀ ks,
     keys (Add ring_collide ks) ≡ₚ keys ring_collide ++ new_hashes ring_collide ks ∧
     keys ring_collide ⊆+ keys (Add ring_collide ks) ∧
     length (keys (Add ring_collide ks))
       = (length (keys ring_collide) + length ks * Z.to_nat (replicas ring_collide))%nat ∧
     (∀ h, is_Some (hashMap ring_collide !! h) →
           is_Some (hashMap (Add ring_collide ks) !! h))).
Proof.
  assert (built ring_collide) as Hb by (apply built_Add, built_New).
  split; [exact Hb|]. exact (ring_sorted_bound_growing ring_collide Hb).
Defined.

(** *** Picking a peer *)

Section search_bound.
Local Open Scope nat_scope.

Lemma Search_loop_bounds (f : nat → bool) fuel i j :
  i ≤ j → i ≤ Search_loop fuel f i j ≤ j.
Proof.
  revert i j. induction fuel as [|fuel IH]; intros i j Hij; [simpl; lia|].
  rewrite Search_loop_S. destruct (decide (i < j)); [|lia].
  assert (i ≤ (i + j) / 2 < j) as Hh.
  { split; [apply Nat.div_le_lower_bound | apply Nat.Div0.div_lt_upper_bound]; lia. }
  destruct (negb (f ((i + j) / 2))).
  - pose proof (IH ((i + j) / 2 + 1) j ltac:(lia)). lia.
  - pose proof (IH i ((i + j) / 2) ltac:(lia)). lia.
Qed.

Lemma Search_le (f : nat → bool) n : Search n f ≤ n.
Proof. unfold Search. pose proof (Search_loop_bounds f n 0 n ltac:(lia)). lia. Qed.

End search_bound.

Lemma Get_owner P m key :
  bound_in P m → IsEmpty m = false →
  ∃ x, x ∈ keys m ∧ hashMap m !! x = Some (Get m key) ∧ P (Get m key).
Proof.
  intros Hbd He. unfold Get. rewrite He.
  set (h := uint32 (hash m key)).
  set (i := Search (length (keys m)) (λ i, bool_decide (h ≤ keys m !!! i))).
  pose proof (Search_le (λ i, bool_decide (h ≤ keys m !!! i)) (length (keys m))) as Hle.
  fold i in Hle.
  unfold IsEmpty in He. apply bool_decide_eq_false in He.
  set (i' := if decide (i = length (keys m)) then 0%nat else i).
  assert (i' < length (keys m))%nat as Hi'.
  { unfold i'. destruct (decide (i = length (keys m))); lia. }
  destruct (lookup_lt_is_Some_2 _ _ Hi') as [x Hx].
  assert (x ∈ keys m) as Hin by (by eapply list_elem_of_lookup_2).
  destruct (Hbd x Hin) as (o & Ho & HP).
  exists x. rewrite (list_lookup_total_correct _ _ _ Hx), Ho. simpl. done.
Qed.

Import groupcache.

Lemma Set_getters base (ps : list string) (g : gmap string httpGetter) peer :
  foldl (λ g peer, <[peer := mkGetter (peer +:+ base)]> g) g ps !! peer
  = if decide (peer ∈ ps) then Some (mkGetter (peer +:+ base)) else g !! peer.
Proof.
  revert g. induction ps as [|p ps IH]; intros g; simpl.
  - destruct (decide (peer ∈ [])) as [Hin|]; [by apply elem_of_nil in Hin|done].
  - rewrite IH. destruct (decide (peer ∈ ps)) as [Hin|Hnin].
    + rewrite decide_True; [done|by right].
    + destruct (decide (p = peer)) as [->|Hne].
      * rewrite lookup_insert_eq. rewrite decide_True; [done|by left].
      * rewrite lookup_insert_ne by done. rewrite decide_False; [done|].
        intros Hin. apply elem_of_cons in Hin as [?|?]; congruence.
Qed.

(** The pool a program gets from [NewHTTPPoolOpts] never has 0 replicas:
    0 in the options stands for the default. *)
Lemma NewHTTPPoolOpts_Replicas self o :
  Replicas (opts (NewHTTPPoolOpts self o)) ≠ 0 ∧
  (∀ base fn, Replicas (opts (NewHTTPPoolOpts self (Some (mkOptions base 0 fn)))) = 50).
Proof.
  split.
  - unfold NewHTTPPoolOpts. simpl.
    repeat (case_decide; simpl in * ); done.
  - intros base fn. unfold NewHTTPPoolOpts. simpl.
    repeat (case_decide; simpl in * ); done.
Qed.

(** C7.  [PickPeer] answers found=false exactly when the ring is empty or
    the owner of the key is this process, and then with a nil handle;
    otherwise it answers found=true with the handle registered for the
    owner, which after [Set] is the getter of one of the peers set.  A
    ring with 0 replicas stays empty whatever is added, and a pool over
    such a ring answers found=false for every key. *)
Theorem PickPeer_found (p : HTTPPool) (key : string) :
  ((PickPeer p key).2 = false ↔
     IsEmpty (peers p) = true ∨ Get (peers p) key = self p) ∧
  ((PickPeer p key).2 = false ↔ PickPeer p key = (None, false)) ∧
  ((PickPeer p key).2 = true ↔
     PickPeer p key = (httpGetters p !! Get (peers p) key, true)) ∧
  (∀ ps, (PickPeer (Set_ p ps) key).2 = true →
     ∃ owner, owner ∈ ps ∧ owner ≠ self p ∧
       Get (peers (Set_ p ps)) key = owner ∧
       PickPeer (Set_ p ps) key
       = (Some (mkGetter (owner +:+ BasePath (opts p))), true)) ∧
  (∀ fn ks, keys (Add (New 0 fn) ks) = [] ∧ IsEmpty (Add (New 0 fn) ks) = true) ∧
  (∀ self base fn ring getters ps,
     PickPeer (Set_ (mkPool self (mkOptions base 0 fn) ring getters) ps) key
     = (None, false)).
Proof.
  assert (∀ fn ks, keys (Add (New 0 fn) ks) = []) as Hzero.
  { intros fn ks. apply length_zero_iff_nil.
    pose proof (Add_keys_Permutation (New 0 fn) ks) as Hp.
    rewrite Hp, length_app, new_hashes_length. simpl. lia. }
  repeat split.
  - unfold PickPeer. destruct (IsEmpty (peers p)); [by left|].
    destruct (decide (Get (peers p) key ≠ self p)) as [Hne|Heq]; simpl; [done|].
    intros _. right. by apply dec_stable.
  - unfold PickPeer. intros [->|Heq]; [done|].
    destruct (IsEmpty (peers p)); [done|]. by rewrite decide_False by (by intros ?).
  - unfold PickPeer. destruct (IsEmpty (peers p)); [done|].
    by destruct (decide (Get (peers p) key ≠ self p)).
  - by intros ->.
  - unfold PickPeer. destruct (IsEmpty (peers p)); [done|].
    by destruct (decide (Get (peers p) key ≠ self p)).
  - by intros ->.
  - intros ps. unfold PickPeer.
    destruct (IsEmpty (peers (Set_ p ps))) eqn:He; [done|].
    destruct (decide (Get (peers (Set_ p ps)) key ≠ self (Set_ p ps))) as [Hne|]; [|done].
    intros _.
    destruct (Get_owner (λ o, o ∈ ps) (peers (Set_ p ps)) key) as (x & _ & _ & Hin).
    { apply Add_bound; [by apply Forall_forall|apply New_bound]. }
    { done. }
    exists (Get (peers (Set_ p ps)) key). split; [done|]. split; [done|]. split; [done|].
    f_equal. simpl httpGetters. rewrite Set_getters. by rewrite decide_True.
  - apply Hzero.
  - unfold IsEmpty. by rewrite Hzero.
  - intros s base fn ring getters ps. unfold PickPeer, Set_, IsEmpty.
    cbn [peers opts Replicas HashFn]. by rewrite Hzero.
Qed.

End ring_theory.

(** * The LRU cache *)

Section lru_lists.
Import lru.
Context {K : Type} `{Countable K} `{Comparable K} {V E : Type}.
Implicit Types (l : list (Element K V)) (e : Element K V) (c : Cache K V E).
Implicit Types (m : keymap K V).

Lemma deref_Some l p e : deref l p = Some e → e ∈ l ∧ ptr e = p.
Proof.
  unfold deref. intros Hf. apply find_some in Hf as [Hin Hp].
  apply bool_decide_eq_true in Hp. split; [by apply list_elem_of_In|done].
Qed.

Lemma deref_None l p : deref l p = None → ∀ e, e ∈ l → ptr e ≠ p.
Proof.
  unfold deref. intros Hf e Hin Hp.
  pose proof (find_none _ _ Hf e (proj1 (list_elem_of_In _ _) Hin)) as Hn.
  simpl in Hn. apply bool_decide_eq_false in Hn. done.
Qed.

Lemma NoDup_ptr_inj l e e' :
  NoDup (ptr <$> l) → e ∈ l → e' ∈ l → ptr e = ptr e' → e = e'.
Proof.
  intros Hnd Hin Hin' Hp.
  apply list_elem_of_lookup in Hin as [i Hi]. apply list_elem_of_lookup in Hin' as [j Hj].
  assert (i = j) as ->; [|congruence].
  eapply NoDup_lookup; [exact Hnd|..]; rewrite list_lookup_fmap.
  - by rewrite Hi.
  - rewrite Hj. simpl. by rewrite Hp.
Qed.

Lemma deref_elem l e : NoDup (ptr <$> l) → e ∈ l → deref l (ptr e) = Some e.
Proof.
  intros Hnd Hin. destruct (deref l (ptr e)) as [e'|] eqn:Hd.
  - apply deref_Some in Hd as [Hin' Hp]. f_equal. by eapply NoDup_ptr_inj.
  - by destruct (deref_None _ _ Hd e Hin).
Qed.

Lemma elem_of_list_Remove l p e : e ∈ list_Remove l p ↔ e ∈ l ∧ ptr e ≠ p.
Proof. unfold list_Remove. rewrite list_elem_of_filter. tauto. Qed.

Lemma list_Remove_sublist l p : list_Remove l p `sublist_of` l.
Proof. apply sublist_filter. Qed.

Lemma list_Remove_NoDup l p : NoDup (ptr <$> l) → NoDup (ptr <$> list_Remove l p).
Proof.
  intros Hnd. eapply sublist_NoDup; [exact Hnd|apply fmap_sublist, list_Remove_sublist].
Qed.

(** Removing the last element. *)
Lemma list_Remove_last l e :
  NoDup (ptr <$> (l ++ [e])) → list_Remove (l ++ [e]) (ptr e) = l.
Proof.
  intros Hnd. rewrite fmap_app in Hnd. apply NoDup_app in Hnd as (_ & Hdisj & _).
  unfold list_Remove. rewrite filter_app, filter_cons, decide_False by (by intros ?).
  rewrite filter_nil, app_nil_r.
  induction l as [|e' l IH]; [done|].
  rewrite filter_cons, decide_True.
  - f_equal. apply IH. intros p Hp. apply Hdisj. rewrite fmap_cons. by right.
  - intros Hp. apply (Hdisj (ptr e')); [rewrite fmap_cons; left|].
    rewrite Hp. simpl. left.
Qed.

(** Filtering the elements on their pointer is filtering the entries on
    their key, where the two agree. *)
Lemma list_Remove_ents l p k :
  (∀ e, e ∈ l → ptr e = p ↔ key (Value e) = k) →
  ent <$> list_Remove l p = filter (λ kv, kv.1 ≠ k) (ent <$> l).
Proof.
  unfold list_Remove. induction l as [|e l IH]; intros Hagree; [done|].
  rewrite fmap_cons, !filter_cons. simpl.
  pose proof (Hagree e ltac:(left)) as He.
  specialize (IH (λ e' Hin, Hagree e' (list_elem_of_further _ _ _ Hin))).
  destruct (decide (ptr e ≠ p)), (decide (key (Value e) ≠ k));
    rewrite ?fmap_cons, IH; try done; tauto.
Qed.

Lemma filter_key_notin {A} (k : K) (es : list (K * A)) :
  k ∉ es.*1 → filter (λ kv, kv.1 ≠ k) es = es.
Proof.
  intros Hk. induction es as [|x es IH]; [done|].
  rewrite fmap_cons in Hk. apply not_elem_of_cons in Hk as [??].
  rewrite filter_cons, decide_True by done. by rewrite IH.
Qed.

Lemma filter_key_length_lt {A} (k : K) (es : list (K * A)) :
  k ∈ es.*1 → (length (filter (λ kv, kv.1 ≠ k) es) < length es)%nat.
Proof.
  intros Hk. apply list_elem_of_fmap in Hk as ([k' x] & -> & Hin).
  eapply (length_filter_lt _ _ _ Hin). simpl. by intros ?.
Qed.

Lemma filter_key_last {A} (es : list (K * A)) (x : K * A) :
  NoDup (es ++ [x]).*1 → filter (λ kv, kv.1 ≠ x.1) (es ++ [x]) = es.
Proof.
  intros Hnd. rewrite fmap_app in Hnd. apply NoDup_app in Hnd as (_ & Hdisj & _).
  rewrite filter_app, filter_cons, decide_False by (by intros ?).
  rewrite filter_nil, app_nil_r. apply filter_key_notin.
  intros Hin. apply (Hdisj _ Hin). simpl. left.
Qed.

(** *** Keys and [==] *)

Lemma equal_spec (k1 k2 : K) : equal k1 k2 ↔ k1 = k2 ∧ self_equal k1.
Proof.
  unfold equal. rewrite andb_True, bool_decide_spec. done.
Qed.

(** Against a key that is equal to itself, [!=] is being another key;
    against one that is not, it holds of every key. *)
Lemma filter_equal_self {A} (k : K) (es : list (K * A)) :
  self_equal k →
  filter (λ kv, ¬ equal kv.1 k) es = filter (λ kv, kv.1 ≠ k) es.
Proof.
  intros Hk. apply list_filter_iff. intros [k' x]. simpl.
  rewrite equal_spec. split.
  - intros Hne ->. by apply Hne.
  - intros Hne [-> _]. by apply Hne.
Qed.

Lemma filter_equal_not_self {A} (k : K) (es : list (K * A)) :
  ¬ self_equal k → filter (λ kv, ¬ equal kv.1 k) es = es.
Proof.
  intros Hk. induction es as [|[k' x] es IH]; [done|].
  rewrite filter_cons, decide_True, IH; [done|].
  simpl. rewrite equal_spec. intros [-> ?]. by apply Hk.
Qed.

Lemma once_nil : once [].
Proof. constructor. Qed.

Lemma NoDup_once ks : NoDup ks → once ks.
Proof. apply NoDup_filter. Qed.

Lemma once_NoDup ks : (∀ k, k ∈ ks → self_equal k) → once ks → NoDup ks.
Proof.
  intros Hall. unfold once.
  assert (filter (λ k, self_equal k) ks = ks) as ->; [|done].
  induction ks as [|k ks IH]; [done|].
  rewrite filter_cons, decide_True by (apply Hall; left).
  f_equal. apply IH. intros k' Hk'. apply Hall. by right.
Qed.

Lemma once_cons k ks : once (k :: ks) → once ks ∧ (self_equal k → k ∉ ks).
Proof.
  unfold once. rewrite filter_cons. destruct (decide (self_equal k)) as [Hk|Hk].
  - intros [Hnin Hnd]%NoDup_cons. split; [done|]. intros _ Hin.
    apply Hnin. by apply list_elem_of_filter.
  - intros Hnd. split; [done|]. intros ?. done.
Qed.

Lemma filter_key_length {A} (k : K) (es : list (K * A)) :
  once es.*1 → present k es → S (length (filter (λ kv, kv.1 ≠ k) es)) = length es.
Proof.
  intros Ho [Hk Hin]. induction es as [|x es IH]; [by apply elem_of_nil in Hin|].
  rewrite fmap_cons in Ho, Hin. apply once_cons in Ho as [Ho Hx].
  rewrite filter_cons. destruct (decide (x.1 ≠ k)) as [Hne|Heq].
  - apply elem_of_cons in Hin as [?|Hin]; [done|]. simpl. by rewrite IH.
  - apply dec_stable in Heq. subst k. by rewrite filter_key_notin by auto.
Qed.

Lemma filter_key_Permutation {A} (k : K) (y : A) (es : list (K * A)) :
  once es.*1 → self_equal k → (k, y) ∈ es →
  filter (λ kv, kv.1 ≠ k) es ++ [(k, y)] ≡ₚ es.
Proof.
  intros Ho Hk Hin. induction es as [|x es IH]; [by apply elem_of_nil in Hin|].
  rewrite fmap_cons in Ho. apply once_cons in Ho as [Ho Hx].
  rewrite filter_cons. destruct (decide (x.1 ≠ k)) as [Hne|Heq].
  - apply elem_of_cons in Hin as [Heq|Hin]; [subst x; by destruct Hne|].
    simpl. by rewrite IH.
  - apply dec_stable in Heq. subst k.
    rewrite filter_key_notin by auto.
    apply elem_of_cons in Hin as [<-|Hin].
    + by rewrite Permutation_app_comm.
    + destruct (Hx Hk). apply list_elem_of_fmap. by exists (x.1, y).
Qed.


Lemma filter_fmap {A B} (f : A → B) (P : B → Prop) `{!∀ y, Decision (P y)}
    (xs : list A) :
  filter P (f <$> xs) = f <$> filter (λ x, P (f x)) xs.
Proof.
  induction xs as [|x xs IH]; [done|].
  rewrite fmap_cons, !filter_cons. destruct (decide (P (f x))); by rewrite ?fmap_cons, IH.
Qed.

(** *** What well-formedness gives *)

Section wf.
Context (c : Cache K V E) (m : keymap K V) (l : list (Element K V)).
Context (Hm : cache c = Some m) (Hl : ll c = Some l) (Hwf : wf c).

Lemma wf_NoDup : NoDup (ptr <$> l).
Proof. unfold wf in Hwf. rewrite Hm, Hl in Hwf. tauto. Qed.

Lemma wf_found k p :
  found m !! k = Some p ↔
  self_equal k ∧ ∃ e, e ∈ l ∧ ptr e = p ∧ key (Value e) = k.
Proof. unfold wf in Hwf. rewrite Hm, Hl in Hwf. apply Hwf. Qed.

(** What a lookup in the map finds. *)
Lemma wf_map k p :
  m !! k = Some p ↔ self_equal k ∧ ∃ e, e ∈ l ∧ ptr e = p ∧ key (Value e) = k.
Proof.
  rewrite <- wf_found. unfold lookup at 1, keymap_lookup. split.
  - intros Hf. destruct (self_equal k); done.
  - intros Hf. pose proof (proj1 (proj1 (wf_found k p) Hf)) as Hk.
    destruct (self_equal k); done.
Qed.

Lemma wf_next e : e ∈ l → (ptr e < next c)%nat.
Proof. unfold wf in Hwf. rewrite Hm, Hl in Hwf. apply Hwf. Qed.

Lemma wf_lost e : e ∈ lost m → ¬ self_equal (key (Value e)).
Proof. unfold wf in Hwf. rewrite Hm, Hl in Hwf. apply Hwf. Qed.

Lemma wf_entries : entries c = ent <$> l.
Proof. unfold entries. by rewrite Hl. Qed.

Lemma wf_elem e : e ∈ l → self_equal (key (Value e)) → m !! key (Value e) = Some (ptr e).
Proof. intros Hin Hk. apply wf_map. eauto. Qed.

Lemma wf_agree e e' :
  e ∈ l → e' ∈ l → self_equal (key (Value e)) →
  ptr e' = ptr e ↔ key (Value e') = key (Value e).
Proof.
  intros Hin Hin' Hself. split.
  - intros Hp. by rewrite (NoDup_ptr_inj l e' e wf_NoDup Hin' Hin Hp).
  - intros Hk. pose proof (wf_elem e Hin Hself) as H1.
    rewrite <- Hk in H1, Hself. pose proof (wf_elem e' Hin' Hself) as H2. congruence.
Qed.

Lemma wf_once : once (entries c).*1.
Proof.
  rewrite wf_entries, <- list_fmap_compose. unfold once.
  rewrite filter_fmap.
  apply NoDup_fmap_2_strong.
  - intros e e' [He Hin]%list_elem_of_filter [_ Hin']%list_elem_of_filter Hk.
    simpl in *. eapply NoDup_ptr_inj; [apply wf_NoDup|done..|].
    symmetry. by apply wf_agree.
  - apply NoDup_filter. eapply NoDup_fmap_1, wf_NoDup.
Qed.

Lemma wf_lookup_Some k p :
  m !! k = Some p →
  self_equal k ∧
  ∃ e, deref l p = Some e ∧ e ∈ l ∧ ptr e = p ∧ key (Value e) = k ∧
       (k, value (Value e)) ∈ entries c.
Proof.
  intros Hk. apply wf_map in Hk as (Hself & e & Hin & <- & <-). split; [done|].
  exists e. split; [apply deref_elem; [apply wf_NoDup|done]|].
  repeat split; try done. rewrite wf_entries.
  apply list_elem_of_fmap. by exists e.
Qed.

Lemma wf_lookup_None k : m !! k = None → ¬ present k (entries c).
Proof.
  intros Hk [Hself Hin]. rewrite wf_entries, <- list_fmap_compose in Hin.
  apply list_elem_of_fmap in Hin as (e & -> & Hin).
  simpl in *. by rewrite (wf_elem e Hin Hself) in Hk.
Qed.

Lemma wf_lookup_iff k : present k (entries c) ↔ is_Some (m !! k).
Proof.
  split.
  - intros Hin. destruct (m !! k) eqn:Hk; [eauto|]. by apply wf_lookup_None in Hk.
  - intros [p Hp]. destruct (wf_lookup_Some k p Hp) as (Hself & e & _ & _ & _ & _ & Hin).
    split; [done|]. apply list_elem_of_fmap. by exists (k, value (Value e)).
Qed.

(** Unlinking an element whose key is equal to itself removes the entries
    under its key. *)
Lemma wf_Remove_ents e :
  e ∈ l → self_equal (key (Value e)) →
  ent <$> list_Remove l (ptr e) = filter (λ kv, kv.1 ≠ key (Value e)) (entries c).
Proof.
  intros Hin Hself. rewrite wf_entries. apply list_Remove_ents.
  intros e' Hin'. by apply wf_agree.
Qed.

End wf.

Lemma wf_entries_once c : wf c → once (entries c).*1.
Proof.
  intros Hwf. destruct (ll c) as [l|] eqn:Hl.
  - destruct (cache c) as [m|] eqn:Hm.
    + by apply (wf_once c m l Hm Hl Hwf).
    + unfold wf in Hwf. by rewrite Hm, Hl in Hwf.
  - unfold entries. rewrite Hl. apply once_nil.
Qed.

Lemma fire_fired c e : fire c (Value e) = fired c (ent e).
Proof. done. Qed.

Lemma lookup_map_delete m k k' :
  found (map_delete m k) !! k'
  = if decide (k' = k ∧ self_equal k) then None else found m !! k'.
Proof.
  unfold map_delete. destruct (self_equal k) eqn:Hk; cbn [found].
  - destruct (decide (k' = k)) as [->|Hne].
    + rewrite lookup_delete_eq, decide_True; done.
    + rewrite lookup_delete_ne by done. rewrite decide_False; [done|by intros [? _]].
  - rewrite decide_False; [done|by intros [_ ?]].
Qed.

Lemma lost_map_delete m k : lost (map_delete m k) = lost m.
Proof. unfold map_delete. by destruct (self_equal k). Qed.

(** [removeElement] on an element of the list. *)
Lemma removeElement_spec c m l e :
  cache c = Some m → ll c = Some l → wf c → e ∈ l →
  ∃ c', removeElement c e = Some (c', fired c (ent e)) ∧
        wf c' ∧
        cache c' = Some (map_delete m (key (Value e))) ∧
        ll c' = Some (list_Remove l (ptr e)) ∧
        MaxEntries c' = MaxEntries c ∧ OnEvicted c' = OnEvicted c ∧
        entries c' = ent <$> list_Remove l (ptr e) ∧
        lost_entries c' = lost_entries c.
Proof.
  intros Hm Hl Hwf Hin. unfold removeElement. rewrite Hl, Hm. simpl.
  eexists. split; [reflexivity|].
  split; [|split; [done|split; [done|split; [done|split; [done|split]]]]].
  - unfold wf. simpl. split; [|split; [|split]].
    + apply list_Remove_NoDup. by eapply wf_NoDup.
    + intros k p. rewrite lookup_map_delete.
      destruct (decide (k = key (Value e) ∧ self_equal (key (Value e)))) as [[-> Hself]|Hno].
      * split; [done|]. intros (_ & e' & Hin' & _ & Hk).
        apply elem_of_list_Remove in Hin' as [Hin' Hne].
        by apply (wf_agree c m l Hm Hl Hwf e e' Hin Hin' Hself) in Hk.
      * rewrite (wf_found c m l Hm Hl Hwf). split.
        -- intros (Hself & e' & Hin' & Hp & Hk). split; [done|]. exists e'.
           rewrite elem_of_list_Remove. repeat split; try done.
           intros Hpe. apply Hno. rewrite <- Hk in *.
           assert (e' = e) as -> by (by eapply NoDup_ptr_inj; [eapply wf_NoDup|..]).
           done.
        -- intros (Hself & e' & Hin' & Hp & Hk).
           apply elem_of_list_Remove in Hin' as [Hin' _]. split; [done|]. by exists e'.
    + intros e' Hin'. apply elem_of_list_Remove in Hin' as [Hin' _].
      by eapply wf_next.
    + intros e'. rewrite lost_map_delete. by eapply wf_lost.
  - done.
  - unfold lost_entries. simpl. by rewrite Hm, lost_map_delete.
Qed.

Lemma wf_nil_entries c : wf c → cache c = None → entries c = [].
Proof.
  unfold wf, entries. intros Hwf Hm. rewrite Hm in Hwf. by destruct (ll c).
Qed.

Lemma wf_cases c :
  wf c →
  (cache c = None ∧ ll c = None) ∨ (∃ m l, cache c = Some m ∧ ll c = Some l).
Proof.
  unfold wf. destruct (cache c), (ll c); try done; eauto.
Qed.

Lemma RemoveOldest_spec c :
  wf c →
  ∃ c', wf c' ∧ MaxEntries c' = MaxEntries c ∧ OnEvicted c' = OnEvicted c ∧
        (is_Some (cache c) → is_Some (cache c')) ∧
        entries c' = take (length (entries c) - 1) (entries c) ∧
        lost_entries c' = lost_entries c ∧
        RemoveOldest c
        = Some (c', drop (length (entries c) - 1) (entries c) ≫= fired c).
Proof.
  intros Hwf. destruct (wf_cases c Hwf) as [[Hm Hl]|(m & l & Hm & Hl)].
  - exists c. unfold RemoveOldest. rewrite Hm, (wf_nil_entries c Hwf Hm). done.
  - unfold RemoveOldest. rewrite Hm, Hl. simpl. unfold list_Back.
    destruct (last l) as [e|] eqn:Hlast.
    + apply last_Some in Hlast as [l0 ->].
      destruct (removeElement_spec c m (l0 ++ [e]) e Hm Hl Hwf) as
        (c' & -> & Hwf' & Hm' & _ & HM & HO & Hes & Hlost).
      { apply elem_of_app. right. by left. }
      exists c'. split; [done|]. split; [done|]. split; [done|].
      split; [rewrite Hm'; eauto|].
      rewrite (list_Remove_last l0 e (wf_NoDup c m _ Hm Hl Hwf)) in Hes.
      rewrite (wf_entries c _ Hl) in *. rewrite fmap_app in *. simpl in *.
      rewrite length_app. simpl.
      replace (length (ent <$> l0) + 1 - 1)%nat with (length (ent <$> l0)) by lia.
      rewrite take_app_length, drop_app_length. simpl. rewrite app_nil_r.
      done.
    + apply last_None in Hlast as ->. exists c.
      rewrite (wf_entries c [] Hl). simpl. rewrite Hm. eauto 10.
Qed.

Lemma set_value_notin l p v : (∀ e, e ∈ l → ptr e ≠ p) → set_value l p v = l.
Proof.
  intros Hp. unfold set_value. induction l as [|e l IH]; [done|].
  rewrite fmap_cons, IH by (intros; apply Hp; by right).
  rewrite bool_decide_eq_false_2; [done|]. apply Hp. by left.
Qed.

(** Moving an element of the list to the front, possibly with a new
    value.  The map has found it: its key is equal to itself. *)
Lemma wf_move c m l e v :
  cache c = Some m → ll c = Some l → wf c → e ∈ l → self_equal (key (Value e)) →
  let e' := mkElement (ptr e) (mkEntry (key (Value e)) v) in
  let c' := with_store c (Some (e' :: list_Remove l (ptr e))) (Some m) in
  wf c' ∧ entries c' = touch (key (Value e)) v (entries c).
Proof.
  intros Hm Hl Hwf Hin Hself e' c'. subst c'. split.
  - unfold wf. cbn [cache ll next with_store]. split; [|split; [|split]].
    + rewrite fmap_cons. apply NoDup_cons. split.
      * simpl. intros Hp. apply list_elem_of_fmap in Hp as (e'' & Hp & Hin'').
        apply elem_of_list_Remove in Hin'' as [_ Hne]. congruence.
      * apply list_Remove_NoDup. by eapply wf_NoDup.
    + intros k p. rewrite (wf_found c m l Hm Hl Hwf). split.
      * intros (Hk & e'' & Hin'' & Hp & Hke). split; [done|].
        destruct (decide (ptr e'' = ptr e)) as [Heq|Hne].
        -- exists e'. split; [by left|]. simpl. split; [congruence|].
           rewrite <- Hke. symmetry.
           by apply (wf_agree c m l Hm Hl Hwf e e'' Hin Hin'' Hself).
        -- exists e''. split; [|done]. right. by apply elem_of_list_Remove.
      * intros (Hk & e'' & Hin'' & Hp & Hke). split; [done|].
        apply elem_of_cons in Hin'' as [->|Hin''].
        -- exists e. done.
        -- apply elem_of_list_Remove in Hin'' as [Hin'' _]. by exists e''.
    + intros e'' Hin''. apply elem_of_cons in Hin'' as [->|Hin''].
      * simpl. by eapply wf_next.
      * apply elem_of_list_Remove in Hin'' as [Hin'' _]. by eapply wf_next.
    + by eapply wf_lost.
  - unfold entries at 1. cbn [cache ll next with_store].
    rewrite fmap_cons. unfold touch. f_equal.
    by apply (wf_Remove_ents c m l Hm Hl Hwf).
Qed.

Lemma list_MoveToFront_elem l e :
  NoDup (ptr <$> l) → e ∈ l → list_MoveToFront l (ptr e) = e :: list_Remove l (ptr e).
Proof. intros Hnd Hin. unfold list_MoveToFront. by rewrite deref_elem. Qed.

Lemma set_value_front l e v :
  set_value (e :: list_Remove l (ptr e)) (ptr e) v
  = mkElement (ptr e) (mkEntry (key (Value e)) v) :: list_Remove l (ptr e).
Proof.
  unfold set_value. rewrite fmap_cons, bool_decide_eq_true_2 by done. f_equal.
  apply set_value_notin. intros e' Hin'. by apply elem_of_list_Remove in Hin' as [_ ?].
Qed.

Lemma Element_eta e : mkElement (ptr e) (mkEntry (key (Value e)) (value (Value e))) = e.
Proof. by destruct e as [p [k v]]. Qed.

Lemma nil_not_present {A} (k : K) : ¬ present k ([] : list (K * A)).
Proof. intros [_ Hin]. by apply elem_of_nil in Hin. Qed.

Lemma Get_spec c k :
  wf c →
  (¬ present k (entries c) ∧ Get c k = Some (c, None)) ∨
  (∃ v c', (k, v) ∈ entries c ∧ Get c k = Some (c', Some v) ∧
           wf c' ∧ MaxEntries c' = MaxEntries c ∧ OnEvicted c' = OnEvicted c ∧
           cache c' = cache c ∧
           entries c' = touch k v (entries c) ∧ self_equal k).
Proof.
  intros Hwf. destruct (wf_cases c Hwf) as [[Hm Hl]|(m & l & Hm & Hl)].
  - left. unfold Get. rewrite Hm, (wf_nil_entries c Hwf Hm). split; [|done].
    apply nil_not_present.
  - unfold Get. rewrite Hm. destruct (m !! k) as [p|] eqn:Hk.
    + right.
      destruct (wf_lookup_Some c m l Hm Hl Hwf k p Hk)
        as (Hself & e & Hd & Hin & <- & <- & Hkv).
      rewrite Hl. simpl. rewrite Hd. simpl.
      rewrite list_MoveToFront_elem by (done || by eapply wf_NoDup).
      destruct (wf_move c m l e (value (Value e)) Hm Hl Hwf Hin Hself) as [Hwf' Hes].
      rewrite Element_eta in Hwf', Hes.
      eexists _, _. split; [exact Hkv|]. split; [reflexivity|]. done.
    + left. split; [|done]. by eapply wf_lookup_None.
Qed.

Lemma Remove_spec c k :
  wf c →
  (¬ present k (entries c) ∧ Remove c k = Some (c, [])) ∨
  (∃ v c', (k, v) ∈ entries c ∧ Remove c k = Some (c', fired c (k, v)) ∧
           wf c' ∧ MaxEntries c' = MaxEntries c ∧ OnEvicted c' = OnEvicted c ∧
           is_Some (cache c') ∧
           entries c' = filter (λ kv, kv.1 ≠ k) (entries c) ∧ self_equal k).
Proof.
  intros Hwf. destruct (wf_cases c Hwf) as [[Hm Hl]|(m & l & Hm & Hl)].
  - left. unfold Remove. rewrite Hm, (wf_nil_entries c Hwf Hm). split; [|done].
    apply nil_not_present.
  - unfold Remove. rewrite Hm. destruct (m !! k) as [p|] eqn:Hk.
    + right.
      destruct (wf_lookup_Some c m l Hm Hl Hwf k p Hk)
        as (Hself & e & Hd & Hin & <- & <- & Hkv).
      rewrite Hl. simpl. rewrite Hd. simpl.
      destruct (removeElement_spec c m l e Hm Hl Hwf Hin) as
        (c' & -> & Hwf' & Hm' & _ & HM & HO & Hes & _).
      eexists _, c'. split; [exact Hkv|]. split; [done|].
      rewrite Hm', Hes, (wf_Remove_ents c m l Hm Hl Hwf e Hin Hself). eauto 10.
    + left. split; [|done]. by eapply wf_lookup_None.
Qed.

Lemma Len_spec c : wf c → Len c = Some (Z.of_nat (length (entries c))).
Proof.
  intros Hwf. destruct (wf_cases c Hwf) as [[Hm Hl]|(m & l & Hm & Hl)].
  - unfold Len. by rewrite Hm, (wf_nil_entries c Hwf Hm).
  - unfold Len. rewrite Hm, Hl, (wf_entries c l Hl). simpl. by rewrite length_fmap.
Qed.

Lemma initialized_wf c :
  wf c →
  wf (initialized c) ∧ entries (initialized c) = entries c ∧
  ∃ m l, cache (initialized c) = Some m ∧ ll (initialized c) = Some l.
Proof.
  intros Hwf. unfold initialized.
  destruct (wf_cases c Hwf) as [[Hm Hl]|(m & l & Hm & Hl)]; rewrite Hm.
  - split; [|split].
    + unfold wf. simpl. split; [constructor|]. split; [|split].
      * intros k p. rewrite lookup_empty. split; [done|].
        intros (_ & e & Hin & _). by apply elem_of_nil in Hin.
      * intros e Hin. by apply elem_of_nil in Hin.
      * intros e Hin. by apply elem_of_nil in Hin.
    + by rewrite (wf_nil_entries c Hwf Hm).
    + by eexists _, _.
  - eauto 10.
Qed.

Lemma Add_initialized c k v : Add c k v = Add (initialized c) k v.
Proof.
  unfold initialized. destruct (cache c) eqn:Hm; [done|].
  unfold Add. cbn [cache with_store]. by rewrite Hm.
Qed.

Lemma found_map_store m k e k' :
  found (map_store m k e) !! k'
  = if decide (k' = k ∧ self_equal k) then Some (ptr e) else found m !! k'.
Proof.
  unfold map_store. destruct (self_equal k) eqn:Hk; cbn [found].
  - destruct (decide (k' = k)) as [->|Hne].
    + rewrite lookup_insert_eq, decide_True; done.
    + rewrite lookup_insert_ne by done. rewrite decide_False; [done|by intros [? _]].
  - rewrite decide_False; [done|by intros [_ ?]].
Qed.

Lemma lost_map_store m k e e' :
  e' ∈ lost (map_store m k e) → e' ∈ lost m ∨ (e' = e ∧ ¬ self_equal k).
Proof.
  unfold map_store. destruct (self_equal k) eqn:Hk; cbn [lost]; [by left|].
  intros [?|Heq%list_elem_of_singleton]%elem_of_app; [by left|].
  right. split; [done|]. intros [].
Qed.

Lemma Add_spec c k v :
  wf c →
  ∃ c', wf c' ∧ MaxEntries c' = MaxEntries c ∧ OnEvicted c' = OnEvicted c ∧
        is_Some (cache c') ∧
        entries c' = (add_entries (MaxEntries c) k v (entries c)).1 ∧
        Add c k v
        = Some (c', (add_entries (MaxEntries c) k v (entries c)).2 ≫= fired c).
Proof.
  intros Hwf0. rewrite Add_initialized.
  destruct (initialized_wf c Hwf0) as (Hwf & Hes & m & l & Hm & Hl).
  rewrite <- Hes.
  assert (MaxEntries (initialized c) = MaxEntries c) as HM.
  { unfold initialized. by destruct (cache c). }
  assert (fired (initialized c) = fired c) as HF.
  { unfold initialized, fired. by destruct (cache c). }
  assert (OnEvicted (initialized c) = OnEvicted c) as HO.
  { unfold initialized. by destruct (cache c). }
  rewrite <- HM, <- HO, <- HF.
  clear Hes HM HF HO. generalize dependent (initialized c).
  clear c Hwf0. intros c Hwf Hm Hl.
  unfold Add. rewrite Hm. cbv zeta. rewrite Hm, Hl. cbn [mbind option_bind].
  unfold add_entries.
  destruct (m !! k) as [p|] eqn:Hk.
  - destruct (wf_lookup_Some c m l Hm Hl Hwf k p Hk)
      as (Hself & e & Hd & Hin & <- & <- & Hkv).
    rewrite Hd. cbn [mbind option_bind].
    rewrite list_MoveToFront_elem by (done || by eapply wf_NoDup).
    rewrite set_value_front.
    destruct (wf_move c m l e v Hm Hl Hwf Hin Hself) as [Hwf' Hes'].
    rewrite decide_True.
    2:{ apply (wf_lookup_iff c m l Hm Hl Hwf). eauto. }
    eexists. split; [exact Hwf'|]. simpl. rewrite Hes'. eauto 10.
  - rewrite decide_False by (by eapply wf_lookup_None).
    set (e := mkElement (next c) (mkEntry k v)).
    set (c1 := {| MaxEntries := MaxEntries c; OnEvicted := OnEvicted c;
                  ll := Some (e :: l); cache := Some (map_store m k e);
                  next := S (next c) |}).
    assert (wf c1) as Hwf1.
    { unfold wf. cbn [cache ll next c1]. split; [|split; [|split]].
      - rewrite fmap_cons. apply NoDup_cons. split; [|by eapply wf_NoDup].
        simpl. intros Hp. apply list_elem_of_fmap in Hp as (e' & Hp & Hin').
        pose proof (wf_next c m l Hm Hl Hwf e' Hin'). lia.
      - intros k' p'. rewrite found_map_store.
        destruct (decide (k' = k ∧ self_equal k)) as [[-> Hself]|Hno].
        + split.
          * intros [= <-]. split; [done|]. exists e. split; [by left|done].
          * intros (_ & e' & Hin' & Hp & Hk'). apply elem_of_cons in Hin' as [->|Hin'].
            -- by rewrite <- Hp.
            -- rewrite <- Hk' in Hk, Hself.
               by rewrite (wf_elem c m l Hm Hl Hwf e' Hin' Hself) in Hk.
        + rewrite (wf_found c m l Hm Hl Hwf). split.
          * intros (Hself & e' & Hin' & Hp & Hk'). split; [done|].
            exists e'. split; [by right|done].
          * intros (Hself & e' & Hin' & Hp & Hk'). split; [done|].
            apply elem_of_cons in Hin' as [->|Hin'].
            -- destruct Hno. simpl in Hk'. by subst k'.
            -- by exists e'.
      - intros e' Hin'. simpl. apply elem_of_cons in Hin' as [->|Hin'].
        + simpl. lia.
        + pose proof (wf_next c m l Hm Hl Hwf e' Hin'). lia.
      - intros e' Hin'. apply lost_map_store in Hin' as [Hin'|[-> Hns]].
        + by eapply wf_lost.
        + done. }
    assert (entries c1 = (k, v) :: entries c) as Hes1.
    { unfold entries. simpl. by rewrite Hl. }
    assert (length (e :: l) = length ((k, v) :: entries c)) as Hlen.
    { rewrite (wf_entries c l Hl). simpl. by rewrite length_fmap. }
    fold e. fold c1. cbn [MaxEntries c1]. rewrite Hlen.
    destruct (decide (MaxEntries c ≠ 0 ∧ MaxEntries c < Z.of_nat (length ((k, v) :: entries c))))
      as [Hov|Hov]; cbn [fst snd].
    + destruct (RemoveOldest_spec c1 Hwf1) as (c' & Hwf' & HM' & HO' & Hc' & Hes' & _ & ->).
      exists c'. rewrite Hes1 in *. cbn [length] in *. rewrite Nat.sub_succ, Nat.sub_0_r in *.
      split; [done|]. split; [done|]. split; [done|].
      split; [apply Hc'; eauto|]. done.
    + exists c1. eauto 10.
Qed.

(** *** [Clear] *)

Lemma mapM_Permutation {A B} (g : A → option B) (xs xs' : list A) (ys : list B) :
  xs ≡ₚ xs' → mapM g xs = Some ys → ∃ ys', mapM g xs' = Some ys' ∧ ys ≡ₚ ys'.
Proof.
  intros Hp. revert ys. induction Hp as [|x xs xs' Hp IH|x x' xs|xs xs' xs'' _ IH1 _ IH2];
    intros ys Hys.
  - eauto.
  - simpl in *. destruct (g x) as [y|]; [|done]. simpl in *.
    destruct (mapM g xs) as [ys0|] eqn:Hxs; [|done]. inversion Hys; subst.
    destruct (IH ys0 eq_refl) as (ys' & -> & Hp'). simpl.
    eexists. split; [done|]. by apply Permutation_skip.
  - simpl in *. destruct (g x) as [y|], (g x') as [y'|]; simpl in *; try done;
      destruct (mapM g xs) as [ys0|]; simpl in *; try done.
    inversion Hys; subst. eexists. split; [done|]. apply perm_swap.
  - destruct (IH1 ys Hys) as (ys' & Hys' & Hp1).
    destruct (IH2 ys' Hys') as (ys'' & Hys'' & Hp2).
    exists ys''. split; [done|]. by rewrite Hp1.
Qed.

Lemma mapM_fmap_Some {A B C} (g : A → option B) (j : C → A) (h : C → B) (xs : list C) :
  (∀ x, x ∈ xs → g (j x) = Some (h x)) → mapM g (j <$> xs) = Some (h <$> xs).
Proof.
  induction xs as [|x xs IH]; intros Hg; [done|].
  rewrite !fmap_cons. simpl. rewrite (Hg x) by left. simpl.
  rewrite IH by (intros; apply Hg; by right). done.
Qed.

(** The bindings of the keys that are equal to themselves are the
    elements of the list with such a key. *)
Lemma wf_map_to_list c m l :
  cache c = Some m → ll c = Some l → wf c →
  map_to_list (found m)
  ≡ₚ (λ e, (key (Value e), ptr e)) <$> filter (λ e, self_equal (key (Value e))) l.
Proof.
  intros Hm Hl Hwf. apply NoDup_Permutation.
  - apply NoDup_map_to_list.
  - apply NoDup_fmap_2_strong.
    + intros e e' [_ Hin]%list_elem_of_filter [_ Hin']%list_elem_of_filter Heq.
      simplify_eq. eapply NoDup_ptr_inj; [by eapply wf_NoDup|done..].
    + apply NoDup_filter. eapply NoDup_fmap_1, (wf_NoDup c m l Hm Hl Hwf).
  - intros [k p]. rewrite elem_of_map_to_list, (wf_found c m l Hm Hl Hwf), list_elem_of_fmap.
    split.
    + intros (Hself & e & Hin & <- & <-). exists e. split; [done|].
      by apply list_elem_of_filter.
    + intros (e & Heq & [Hself Hin]%list_elem_of_filter). simplify_eq.
      split; [done|]. by exists e.
Qed.

Lemma bind_fired_None c (es : list (K * V)) : OnEvicted c = None → es ≫= fired c = [].
Proof.
  intros HO. unfold fired. rewrite HO. induction es as [|x es IH]; [done|].
  by rewrite bind_cons, IH.
Qed.

Lemma bind_fired_Some c f (es : list (K * V)) :
  OnEvicted c = Some f → es ≫= fired c = (λ kv, f kv.1 kv.2) <$> es.
Proof.
  intros HO. unfold fired. rewrite HO. induction es as [|x es IH]; [done|].
  by rewrite bind_cons, IH.
Qed.

(** [Clear] calls the callback on every entry whose key is equal to
    itself, and on every element the map holds under another key,
    whether it is still in the list or not. *)
Lemma Clear_spec c :
  wf c →
  ∃ evs, Clear c = Some (with_store c None None, evs) ∧
         evs ≡ₚ (filter (λ kv, self_equal kv.1) (entries c) ++ lost_entries c)
                ≫= fired c.
Proof.
  intros Hwf. unfold Clear. destruct (OnEvicted c) as [f|] eqn:HO.
  - destruct (wf_cases c Hwf) as [[Hm Hl]|(m & l & Hm & Hl)].
    + rewrite Hm. simpl. eexists. split; [done|].
      unfold lost_entries. by rewrite Hm, (wf_nil_entries c Hwf Hm).
    + rewrite Hm, Hl. cbn [mbind option_bind].
      set (l' := filter (λ e, self_equal (key (Value e))) l).
      assert (mapM (λ kp : K * nat, deref l kp.2 ≫= λ e, Some (f (key (Value e)) (value (Value e))))
                ((λ e, (key (Value e), ptr e)) <$> l')
              = Some ((λ e, f (key (Value e)) (value (Value e))) <$> l')) as Hmap.
      { apply mapM_fmap_Some. intros e [_ Hin]%list_elem_of_filter. simpl.
        by rewrite (deref_elem l e (wf_NoDup c m l Hm Hl Hwf) Hin). }
      destruct (mapM_Permutation _ _ _ _
                  (symmetry (wf_map_to_list c m l Hm Hl Hwf)) Hmap) as (evs & -> & Hp).
      cbn [mbind option_bind]. eexists. split; [done|].
      rewrite (bind_fired_Some c f _ HO), fmap_app. apply Permutation_app.
      * rewrite <- Hp, (wf_entries c l Hl).
        rewrite (filter_fmap ent (λ kv, self_equal kv.1) l).
        by rewrite <- list_fmap_compose.
      * unfold lost_entries. rewrite Hm. by rewrite <- list_fmap_compose.
  - simpl. eexists. split; [done|]. by rewrite bind_fired_None.
Qed.

(** *** Built caches are well formed *)

Lemma wf_zero : wf (zero : Cache K V E).
Proof. done. Qed.

Lemma wf_New n : wf (New n : Cache K V E).
Proof.
  unfold wf. simpl. split; [constructor|]. split; [|split].
  - intros k p. rewrite lookup_empty. split; [done|].
    intros (_ & e & Hin & _). by apply elem_of_nil in Hin.
  - intros e Hin. by apply elem_of_nil in Hin.
  - intros e Hin. by apply elem_of_nil in Hin.
Qed.

Lemma built_wf c : built c → wf c.
Proof.
  induction 1 as [|n|c n _ IH|c f _ IH|c k v c' evs _ IH Hop|c k c' r _ IH Hop
                  |c k c' evs _ IH Hop|c c' evs _ IH Hop|c c' evs _ IH Hop].
  - apply wf_zero.
  - apply wf_New.
  - exact IH.
  - exact IH.
  - destruct (Add_spec c k v IH) as (c'' & Hwf & _ & _ & _ & _ & Heq). congruence.
  - destruct (Get_spec c k IH) as [[_ Heq]|(v & c'' & _ & Heq & Hwf & _)]; congruence.
  - destruct (Remove_spec c k IH) as [[_ Heq]|(v & c'' & _ & Heq & Hwf & _)]; congruence.
  - destruct (RemoveOldest_spec c IH) as (c'' & Hwf & _ & _ & _ & _ & _ & Heq). congruence.
  - destruct (Clear_spec c IH) as (evs' & Heq & _). rewrite Heq in Hop. by simplify_eq.
Qed.

(** *** The bound *)






(** [Add] keeps the length within a positive bound, whatever the key. *)
Lemma add_entries_bound (M : Z) (k : K) (v : V) (es : list (K * V)) :
  0 < M → once es.*1 → Z.of_nat (length es) ≤ M →
  Z.of_nat (length (add_entries M k v es).1) ≤ M.
Proof.
  intros HM Ho Hle. unfold add_entries.
  destruct (decide (present k es)) as [Hin|Hnin]; cbn [fst].
  - unfold touch. cbn [length]. pose proof (filter_key_length k es Ho Hin). lia.
  - destruct (decide (M ≠ 0 ∧ M < Z.of_nat (length ((k, v) :: es))))
      as [[_ Hov]|Hno]; cbn [fst].
    + rewrite length_take. cbn [length]. lia.
    + cbn [length] in *. lia.
Qed.

Lemma Adds_built c kvs c' evs : built c → Adds c kvs = Some (c', evs) → built c'.
Proof.
  revert c c' evs. induction kvs as [|[k v] kvs IH]; intros c c' evs Hb Hadds; simpl in Hadds.
  - by simplify_eq.
  - destruct (Add c k v) as [[c1 evs1]|] eqn:Hadd; [|done]. simpl in Hadds.
    destruct (Adds c1 kvs) as [[c2 evs2]|] eqn:Hadds'; [|done]. simpl in Hadds.
    simplify_eq. eapply IH; [|done]. by eapply built_Add.
Qed.





(** Where every key is equal to itself, no key is in the entries twice
    and the map has no other bindings. *)
Lemma reflexive_NoDup c : (∀ k : K, self_equal k) → wf c → NoDup (entries c).*1.
Proof.
  intros Hrefl Hwf. apply once_NoDup; [by intros|]. by apply wf_entries_once.
Qed.

Lemma reflexive_lost c : (∀ k : K, self_equal k) → wf c → lost_entries c = [].
Proof.
  intros Hrefl Hwf. unfold lost_entries.
  destruct (wf_cases c Hwf) as [[-> _]|(m & l & Hm & Hl)]; [done|]. rewrite Hm.
  destruct (lost m) as [|e es] eqn:Hlost; [done|].
  destruct (wf_lost c m l Hm Hl Hwf e); [rewrite Hlost; left|apply Hrefl].
Qed.

Lemma reflexive_filter (es : list (K * V)) :
  (∀ k : K, self_equal k) → filter (λ kv, self_equal kv.1) es = es.
Proof.
  intros Hrefl. induction es as [|x es IH]; [done|].
  by rewrite filter_cons, decide_True, IH.
Qed.

(** With the callback set, it is called on exactly the entries that
    leave a built cache, where every key is equal to itself. *)
Lemma callback_conservation (c : Cache K V E) (f : K → V → E) :
  (∀ k : K, self_equal k) →
  built c → OnEvicted c = Some f → callback_exact c f.
Proof.
  intros Hrefl Hb HO. pose proof (built_wf c Hb) as Hwf. unfold callback_exact.
  pose proof (reflexive_NoDup c Hrefl Hwf) as Hnd.
  pose proof (wf_entries_once c Hwf) as Ho.
  split; [done|]. split; [|split; [|split]].
  - intros k v. destruct (Add_spec c k v Hwf) as (c' & _ & _ & _ & _ & Hes & Hadd).
    exists c', (add_entries (MaxEntries c) k v (entries c)).2.
    rewrite Hadd, (bind_fired_Some c f _ HO). split; [done|]. rewrite Hes.
    unfold add_entries. destruct (decide (present k (entries c))) as [Hin|Hnin]; cbn [fst snd].
    + by rewrite app_nil_r.
    + unfold touch. rewrite filter_key_notin by (intros ?; by apply Hnin).
      destruct (decide _); cbn [fst snd]; [by rewrite take_drop|by rewrite app_nil_r].
  - intros k. destruct (Remove_spec c k Hwf)
      as [[Hnin Hrm]|(v & c' & Hin & Hrm & _ & _ & _ & _ & Hes & Hk)].
    + exists c, []. rewrite Hrm. rewrite app_nil_r. split; [done|]. split; [done|].
      intros ?. by apply Hnin.
    + exists c', [(k, v)]. rewrite Hrm. unfold fired. rewrite HO. split; [done|].
      rewrite Hes. split; [by eapply filter_key_Permutation|].
      intros Hin'. apply list_elem_of_fmap in Hin' as (y & -> & Hy).
      by apply list_elem_of_filter in Hy as [? _].
  - destruct (RemoveOldest_spec c Hwf) as (c' & _ & _ & _ & _ & Hes & _ & Hro).
    exists c', (drop (length (entries c) - 1) (entries c)).
    rewrite Hro, (bind_fired_Some c f _ HO), Hes, take_drop.
    split; [done|]. split; [done|]. rewrite length_drop. split; [lia|].
    intros Hne. destruct (entries c); [done|]. simpl. lia.
  - destruct (Clear_spec c Hwf) as (evs & Hcl & Hp).
    eexists _, evs. split; [exact Hcl|]. split; [|done].
    rewrite Hp, (reflexive_lost c Hrefl Hwf), app_nil_r, (reflexive_filter _ Hrefl).
    by rewrite (bind_fired_Some c f _ HO).
Qed.

(** C9.  [Add] under a key the cache holds: the value is replaced and the
    entry moves to the front; the length, the map, the bound and the
    callback stay; every other entry keeps its value and its place among
    the others; there is no call of the callback, whatever the length and
    [MaxEntries] are. *)
Theorem Add_present_frame (c : Cache K V E) (k : K) (v : V) (m : keymap K V) (p : nat) :
  built c → cache c = Some m → m !! k = Some p →
  ∃ c', Add c k v = Some (c', []) ∧
        entries c' = (k, v) :: filter (λ kv, kv.1 ≠ k) (entries c) ∧
        (∃ v0, (k, v0) ∈ entries c) ∧
        length (entries c') = length (entries c) ∧
        Len c' = Len c ∧
        cache c' = cache c ∧
        MaxEntries c' = MaxEntries c ∧
        OnEvicted c' = OnEvicted c ∧
        (∀ k' v', k' ≠ k → (k', v') ∈ entries c' ↔ (k', v') ∈ entries c).
Proof.
  intros Hb Hm Hk. pose proof (built_wf c Hb) as Hwf.
  destruct (wf_cases c Hwf) as [[Hm' _]|(m' & l & Hm' & Hl)]; [congruence|].
  assert (m' = m) as -> by congruence.
  assert (present k (entries c)) as Hin by (apply (wf_lookup_iff c m l Hm Hl Hwf); eauto).
  destruct (wf_lookup_Some c m l Hm Hl Hwf k p Hk) as (_ & e & _ & _ & _ & _ & Hkv).
  destruct (Add_spec c k v Hwf) as (c' & Hwf' & HM & HO & _ & Hes & Hadd).
  unfold add_entries in *. rewrite decide_True in * by done. cbn [fst snd] in *.
  assert (length (entries c') = length (entries c)) as Hlen.
  { rewrite Hes. unfold touch. cbn [length].
    apply filter_key_length; [|done]. by apply wf_entries_once. }
  exists c'. split; [done|]. split; [done|]. split; [eauto|]. split; [done|].
  split; [by rewrite !Len_spec, Hlen|].
  split.
  - unfold Add in Hadd. rewrite Hm in Hadd. cbv zeta in Hadd.
    rewrite Hm, Hl in Hadd. cbn [mbind option_bind] in Hadd. rewrite Hk in Hadd.
    destruct (deref l p); [|done]. cbn [mbind option_bind] in Hadd.
    injection Hadd as <-. done.
  - split; [done|]. split; [done|].
    intros k' v' Hne. rewrite Hes. unfold touch.
    rewrite elem_of_cons, list_elem_of_filter. simpl. split.
    + intros [?|[_ ?]]; [congruence|done].
    + intros ?. by right.
Qed.

(** C10.  On a cache whose list and map are nil, whatever its other
    fields: [Get] misses, [Remove] and [RemoveOldest] change nothing and
    call nothing, [Len] is 0, and [Add] is [Add] on the cache with an
    empty list and an empty map: it succeeds and leaves both set, with the
    new entry as the only one (or, with a negative [MaxEntries], evicted
    at once).  [Clear] succeeds on every cache and leaves the list and the
    map nil, also a second time.  [Remove] of a key the map does not hold
    changes nothing, so that a second [Remove] of a key does nothing. *)
Theorem nil_cache_total (M : Z) (f : option (K → V → E)) (n : nat) (k : K) (v : V) :
  let c := mkCache M f None None n in
  Get c k = Some (c, None) ∧
  Remove c k = Some (c, []) ∧
  RemoveOldest c = Some (c, []) ∧
  Len c = Some 0 ∧
  Add c k v = Add (with_store c (Some []) (Some ∅)) k v ∧
  (∃ c' evs, Add c k v = Some (c', evs) ∧
             is_Some (ll c') ∧ is_Some (cache c') ∧
             entries c' = (if decide (M < 0) then [] else [(k, v)]) ∧
             evs = (if decide (M < 0) then fired c (k, v) else [])) ∧
  (∃ evs, Clear c = Some (c, evs)) ∧
  (∀ c0 : Cache K V E, built c0 →
     ∃ c' evs, Clear c0 = Some (c', evs) ∧ ll c' = None ∧ cache c' = None ∧
               Len c' = Some 0 ∧ Clear c' = Some (c', [])) ∧
  (∀ (c0 : Cache K V E) m, cache c0 = Some m → m !! k = None →
     Remove c0 k = Some (c0, [])) ∧
  (∀ (c0 c' : Cache K V E) evs, built c0 → Remove c0 k = Some (c', evs) →
     Remove c' k = Some (c', [])).
Proof.
  intros c. split; [done|]. split; [done|]. split; [done|]. split; [done|].
  split; [done|]. split; [|split; [|split; [|split]]].
  - destruct (Add_spec c k v) as (c' & Hwf' & _ & _ & Hc' & Hes & Hadd); [done|].
    exists c', ((add_entries M k v []).2 ≫= fired c). split; [exact Hadd|].
    destruct (wf_cases c' Hwf') as [[Hm' _]|(m' & l' & Hm' & Hl')].
    { rewrite Hm' in Hc'. by destruct Hc'. }
    split; [rewrite Hl'; eauto|]. split; [done|].
    rewrite Hes. unfold add_entries. cbn [entries ll c MaxEntries].
    rewrite decide_False by apply nil_not_present. cbn [length].
    destruct (decide (M < 0)) as [Hneg|Hpos];
      destruct (decide (M ≠ 0 ∧ M < Z.of_nat 1)) as [[H1 H2]|Hno]; try lia.
    + cbn. by rewrite app_nil_r.
    + done.
  - unfold Clear. cbn [OnEvicted cache c]. destruct f; cbn; eauto.
  - intros c0 Hb. destruct (Clear_spec c0 (built_wf c0 Hb)) as (evs & -> & _).
    eexists _, _. split; [done|]. cbn [ll cache with_store]. split; [done|].
    split; [done|]. split; [done|].
    unfold Clear. cbn [OnEvicted cache with_store]. by destruct (OnEvicted c0).
  - intros c0 m Hm Hk. unfold Remove. by rewrite Hm, Hk.
  - intros c0 c' evs Hb Hrm.
    destruct (Remove_spec c0 k (built_wf c0 Hb)) as
      [[Hnin Hrm']|(v' & c'' & Hin & Hrm' & Hwf' & _ & _ & _ & Hes & Hself)];
      rewrite Hrm' in Hrm; simplify_eq; [done|].
    destruct (Remove_spec c' k Hwf') as [[_ ?]|(v'' & c'' & Hin' & _)]; [done|].
    rewrite Hes in Hin'. by apply list_elem_of_filter in Hin' as [? _].
Qed.

End lru_lists.

(** *** The examples *)

Section lru_examples.
Import lru.



(** C5, amended.  Where every key is equal to itself, with the callback
    set, an operation on a built cache calls it on exactly the entries
    that leave the cache, once each, with the key and the value of the
    entry, and [Clear] calls it on every entry, in some order
    ([callback_exact]).  With capacity 2, adding (A,1), (B,2), (C,3)
    calls the callback once, on (A,1), and leaves C and B, on which
    [Clear] calls it. *)
Theorem lru_callback_exact :
  (∀ (K : Type) `(Countable K) `(Comparable K) (V E : Type)
     (c : Cache K V E) (f : K → V → E),
     (∀ k : K, self_equal k) →
     built c → OnEvicted c = Some f → callback_exact c f) ∧
  (∃ c, Adds lru_two abc = Some (c, [("A", 1)]) ∧
        entries c = [("C", 3); ("B", 2)] ∧
        ∃ c' evs, Clear c = Some (c', evs) ∧
                  evs ≡ₚ [("C", 3); ("B", 2)] ∧ entries c' = []).
Proof.
  split.
  - intros. by apply callback_conservation.
  - vm_compute. eexists. split; [reflexivity|]. split; [reflexivity|].
    eexists _, _. split; [reflexivity|]. split; [|reflexivity].
    first [reflexivity | apply perm_swap].
Qed.

Lemma lru_full_built : built lru_full.
Proof.
  eapply (Adds_built lru_two abc _ [("A", 1)]).
  - apply built_OnEvicted, built_New.
  - vm_compute. reflexivity.
Qed.

Lemma lru_callback_exact_witness :
  (∀ k : string, self_equal k) ∧ built lru_full ∧
  OnEvicted lru_full = Some pair ∧ callback_exact lru_full pair.
Proof.
  assert (∀ k : string, self_equal k) as Hrefl by (intros k; exact I).
  split; [exact Hrefl|]. split; [exact lru_full_built|]. split; [reflexivity|].
  destruct lru_callback_exact as [Hall _].
  apply Hall; [exact Hrefl|exact lru_full_built|reflexivity].
Defined.

(** C5, as stated, fails on a key that is not equal to itself.  With
    capacity 1 and the callback set, [Add(NaN, 1)] and [Add(NaN, 2)] evict
    the first entry and call the callback on (NaN, 1); [delete] does not
    remove its binding from the map, and [Clear] calls the callback on
    (NaN, 1) again, though the cache holds (NaN, 2) alone. *)
Lemma lru_NaN_callback_twice :
  ∃ c, Adds (with_OnEvicted (New 1) (Some pair) : Cache float_key Z (float_key * Z))
            [(NaN, 1); (NaN, 2)] = Some (c, [(NaN, 1)]) ∧
       entries c = [(NaN, 2)] ∧
       ∃ c' evs, Clear c = Some (c', evs) ∧ (NaN, 1) ∈ evs ∧ (NaN, 2) ∈ evs ∧
                 length evs = 2%nat.
Proof.
  eexists. split; [vm_compute; reflexivity|]. split; [reflexivity|].
  eexists _, _. split; [vm_compute; reflexivity|].
  split; [|split; [|reflexivity]].
  - left.
  - right. left.
Qed.

Lemma lru_over_built : built lru_over.
Proof.
  apply built_MaxEntries.
  eapply (Adds_built (with_OnEvicted (New 0) (Some pair)) abc _ []).
  - apply built_OnEvicted, built_New.
  - vm_compute. reflexivity.
Qed.

Lemma Add_present_frame_witness :
  built lru_over ∧
  MaxEntries lru_over < Z.of_nat (length (entries lru_over)) ∧
  ∃ c', Add lru_over "A" 9 = Some (c', []) ∧
        entries c' = [("A", 9); ("C", 3); ("B", 2)] ∧
        length (entries c') = length (entries lru_over).
Proof.
  split; [exact lru_over_built|]. split; [vm_compute; reflexivity|].
  assert (∃ m, cache lru_over = Some m ∧ m !! "A" = Some 0%nat) as (m & Hm & Hk).
  { eexists. split; [reflexivity|]. vm_compute. reflexivity. }
  destruct (Add_present_frame lru_over "A" 9 m 0%nat lru_over_built Hm Hk)
    as (c' & Hadd & Hes & _ & Hlen & _).
  exists c'. split; [exact Hadd|]. split; [|exact Hlen].
  rewrite Hes. vm_compute. reflexivity.
Defined.

(** [Add] evicts one entry, the last, at a time: on a cache that holds
    more than [MaxEntries] entries (the field was lowered) the length stays
    above the bound. *)
Lemma Add_evicts_one_entry :
  ∃ c', Add lru_over "D" 4 = Some (c', [("A", 1)]) ∧
        entries c' = [("D", 4); ("C", 3); ("B", 2)] ∧
        MaxEntries c' = 1.
Proof. vm_compute. eexists. split; [reflexivity|]. split; reflexivity. Qed.

End lru_examples.

(** * singleflight *)

Section sf.
Local Open Scope nat_scope.
Import singleflight.
Context {V Err : Type}.
Abbreviation goroutine := (goroutine V Err).
Abbreviation state := (state V Err).
Abbreviation call := (call V Err).
Implicit Types (s : state) (g : goroutine) (t : nat).

Lemma upd_lookup s t g' t1 g1 :
  is_Some (gs s !! t) →
  <[t := g']> (gs s) !! t1 = Some g1 ↔
  (t1 = t ∧ g1 = g') ∨ (t1 ≠ t ∧ gs s !! t1 = Some g1).
Proof.
  intros Ht. apply lookup_lt_is_Some in Ht. rewrite list_lookup_insert_Some.
  split.
  - intros [(-> & -> & _)|(? & ?)]; [by left|right; done].
  - intros [[-> ->]|[? ?]]; [left|right]; done.
Qed.

Lemma step_trans s t s' :
  step s t = Some s' ↔ ∃ g, gs s !! t = Some g ∧ trans s t g s'.
Proof.
  unfold step. split.
  - destruct (gs s !! t) as [g|] eqn:Hg; [|done]. cbn [mbind option_bind].
    intros H. exists g. split; [done|].
    destruct (at_pc g) eqn:Hpc; try done.
    + destruct (mu s) eqn:Hmu; [done|]. simplify_eq. by constructor.
    + fold (registry s (key g)) in H. destruct (registry s (key g)) eqn:Hr;
        simplify_eq; by constructor.
    + simplify_eq. by constructor.
    + destruct (c g) as [l|] eqn:Hc; [|done]. cbn [mbind option_bind] in H.
      destruct (heap s !! l) as [r|] eqn:Hr; [|done]. cbn [mbind option_bind] in H.
      destruct (decide (wg r = 0)); [|done]. simplify_eq. by econstructor.
    + destruct (c g) as [l|] eqn:Hc; [|done]. cbn [mbind option_bind] in H.
      destruct (heap s !! l) as [r|] eqn:Hr; [|done]. cbn [mbind option_bind] in H.
      simplify_eq. by econstructor.
    + destruct (m s) as [mp|] eqn:Hm; [|done]. cbn [mbind option_bind] in H.
      simplify_eq. by econstructor.
    + simplify_eq. by constructor.
    + simplify_eq. by constructor.
    + destruct (c g) as [l|] eqn:Hc; [|done]. cbn [mbind option_bind] in H.
      destruct (heap s !! l) as [r|] eqn:Hr; [|done]. cbn [mbind option_bind] in H.
      destruct (inv g) as [i|] eqn:Hi; [|done]. cbn [mbind option_bind] in H.
      simplify_eq. by econstructor.
    + destruct (c g) as [l|] eqn:Hc; [|done]. cbn [mbind option_bind] in H.
      destruct (heap s !! l) as [r|] eqn:Hr; [|done]. cbn [mbind option_bind] in H.
      destruct (wg r) as [|n] eqn:Hw; [done|]. simplify_eq. by econstructor.
    + destruct (mu s) eqn:Hmu; [done|]. simplify_eq. by constructor.
    + simplify_eq. by constructor.
    + simplify_eq. by constructor.
    + destruct (c g) as [l|] eqn:Hc; [|done]. cbn [mbind option_bind] in H.
      destruct (heap s !! l) as [r|] eqn:Hr; [|done]. cbn [mbind option_bind] in H.
      simplify_eq. by econstructor.
  - intros (g & -> & Ht). cbn [mbind option_bind].
    destruct Ht;
      repeat (match goal with
              | H : at_pc g = _ |- _ => rewrite H
              | H : mu s = _ |- _ => rewrite H
              | H : c g = _ |- _ => rewrite H
              | H : heap s !! _ = _ |- _ => rewrite H
              | H : inv g = _ |- _ => rewrite H
              | H : m s = _ |- _ => rewrite H
              | H : wg _ = _ |- _ => rewrite H
              | H : registry s _ = _ |- _ => unfold registry in H; rewrite H
              end; cbn [mbind option_bind]); try done.
Qed.

Ltac upd_cases :=
  repeat match goal with
  | H : <[?t := ?g']> (gs ?s) !! ?t1 = Some ?g1 |- _ =>
      apply (upd_lookup s t g' t1 g1) in H; [destruct H as [[-> ->]|[? H]] | by eauto]
  end.

Ltac simpl_pcs :=
  cbn [goto set_c set_inv set_ret at_pc key fn c inv ret
       holding registered owner called released removed duplicate woken
       returned missed arriving] in *.

Ltac start_step :=
  intros [HM HF HH HRO HOR HRG HRC HOI HD HDR HR HC HCI HCA] Hstep;
  apply step_trans in Hstep as (g & Hg & Ht);
  assert (is_Some (gs _ !! _)) as Hsome by (eexists; eassumption);
  destruct Ht;
  (match goal with
   | H : at_pc _ = _ |- _ =>
       cbn [gs mu m heap calls];
       intros; upd_cases; simpl_pcs;
       try rewrite H in *; simpl_pcs; rename H into Hpc
   end);
  try done; try (by intros []).

Lemma step_inv_mutex s t s' :
  Inv s → step s t = Some s' →
  ∀ t1 t2 g1 g2,
    gs s' !! t1 = Some g1 → gs s' !! t2 = Some g2 →
    holding (at_pc g1) → holding (at_pc g2) → t1 = t2.
Proof.
  start_step.
  all: try (by eapply HM).
  all: try (exfalso; by eapply (HF ltac:(done))).
  all: try (exfalso; match goal with
            | H1 : ?a ≠ ?b, H2 : gs _ !! ?a = Some ?ga |- _ =>
                apply H1; eapply (HM a b ga g); [done|done|done|by rewrite Hpc]
            end).
Qed.

Lemma step_inv_free s t s' :
  Inv s → step s t = Some s' →
  mu s' = false → ∀ t0 g0, gs s' !! t0 = Some g0 → ¬ holding (at_pc g0).
Proof.
  start_step.
  all: try (by eapply HF).
  all: try (by (exfalso; eapply (HF ltac:(done) _ g); [done|by rewrite Hpc])).
  all: try (intros ?; match goal with
            | H1 : ?a ≠ ?b, H2 : gs _ !! ?a = Some ?ga |- _ =>
                apply H1; eapply (HM a b ga g); [done|done|done|by rewrite Hpc]
            end).
Qed.

Lemma upd_self s t g' : is_Some (gs s !! t) → <[t := g']> (gs s) !! t = Some g'.
Proof. intros Ht. apply list_lookup_insert_eq. by apply lookup_lt_is_Some. Qed.

Lemma upd_other s t g' t0 : t0 ≠ t → <[t := g']> (gs s) !! t0 = gs s !! t0.
Proof. intros Hne. by apply list_lookup_insert_ne. Qed.

Lemma step_inv_held s t s' :
  Inv s → step s t = Some s' →
  mu s' = true → ∃ t0 g0, gs s' !! t0 = Some g0 ∧ holding (at_pc g0).
Proof.
  start_step.
  all: try (eexists t, _; split; [by apply upd_self|]; simpl_pcs; done).
  all: destruct (HH ltac:(done)) as (t0 & g0 & Hg0 & Hh0).
  all: destruct (decide (t0 = t)) as [->|Hne];
    [assert (g0 = g) as -> by congruence; rewrite Hpc in Hh0; try done|
     exists t0, g0; by rewrite upd_other].
Qed.

Lemma default_delete (k0 k : string) (mo : option (gmap string nat)) :
  default ∅ (delete k0 <$> mo) !! k = delete k0 (default ∅ mo) !! k.
Proof. destruct mo; simpl; [done|]. by rewrite delete_empty. Qed.

Lemma registry_init s k :
  registry (mkState (mu s) (Some (default ∅ (m s))) (heap s) (calls s) (gs s)) k
  = registry s k.
Proof. done. Qed.

Ltac old_witness H t g Hpc :=
  let t0 := fresh "t0" in let g0 := fresh "g0" in
  let Hg0 := fresh "Hg0" in let Hne := fresh "Hne" in
  destruct H as (t0 & g0 & Hg0 & H);
  destruct (decide (t0 = t)) as [->|Hne];
  [assert (g0 = g) as -> by congruence; rewrite ?Hpc in H; simpl_pcs;
   first [exfalso; by intuition
         |eexists t, _; split; [by apply upd_self|simpl_pcs]]
  |exists t0, g0; rewrite upd_other by done; split; [done|]].

Lemma step_inv_reg_owner s t s' :
  Inv s → step s t = Some s' →
  ∀ k l, registry s' k = Some l →
    ∃ t0 g0, gs s' !! t0 = Some g0 ∧ registered (at_pc g0) ∧ key g0 = k ∧ c g0 = Some l.
Proof.
  start_step.
  all: unfold registry in *; cbn [m from_option id] in *.
  all: try (match goal with
            | H : default ∅ (m _) !! _ = Some _ |- _ => apply HRO in H; old_witness H t g Hpc; by intuition
            end).
  - apply lookup_insert_Some in H1 as [[<- <-]|[Hne H1]].
    + eexists t, _. split; [by apply upd_self|]. done.
    + assert (default ∅ (m s) !! k = Some l) as H2 by (by rewrite H0).
      apply HRO in H2. old_witness H2 t g Hpc; by intuition.
  - rewrite default_delete in H0. apply lookup_delete_Some in H0 as [Hne H0].
    apply HRO in H0 as (t0 & g0 & Hg0 & Hr0 & Hk0 & Hc0).
    assert (t0 ≠ t) as Hne' by (intros ->; congruence).
    exists t0, g0. by rewrite upd_other.
Qed.

Lemma step_inv_owner_reg s t s' :
  Inv s → step s t = Some s' →
  ∀ t0 g0, gs s' !! t0 = Some g0 → registered (at_pc g0) →
    registry s' (key g0) = c g0.
Proof.
  start_step.
  all: unfold registry in *; cbn [m from_option id] in *.
  all: try (by eapply HOR).
  all: try (by (eapply (HOR t g); [done|by rewrite Hpc])).
  - by rewrite lookup_insert_eq.
  - rewrite lookup_insert_ne;
      [replace mp with (default ∅ (m s)) by (by rewrite H0); by eapply HOR|].
    intros Heq. destruct (HRG t g Hg Hpc) as [_ Hnone].
    destruct (HRC t0 g0) as (l & r & Hc & _); [done|by destruct (at_pc g0)|].
    pose proof (HOR t0 g0 ltac:(done) ltac:(done)) as Hreg.
    rewrite <- Heq, Hc in Hreg. congruence.
  - rewrite default_delete, lookup_delete_ne; [by eapply HOR|].
    intros Heq.
    match goal with Hne : t0 ≠ t |- _ => apply Hne end.
    eapply (HOI t0 t g0 g); [done|done|by destruct (at_pc g0)|by rewrite Hpc|].
    rewrite <- (HOR t0 g0), <- (HOR t g); [by rewrite Heq|done|by rewrite Hpc|done|done].
Qed.

Lemma step_inv_register s t s' :
  Inv s → step s t = Some s' →
  ∀ t0 g0, gs s' !! t0 = Some g0 → at_pc g0 = pRegister →
    is_Some (m s') ∧ registry s' (key g0) = None.
Proof.
  start_step.
  all: unfold registry in *; cbn [m from_option id] in *.
  all: try (by eapply HRG).
  all: try (exfalso; match goal with
            | H1 : ?a ≠ ?b, H2 : gs _ !! ?a = Some ?ga, H3 : at_pc ?ga = pRegister |- _ =>
                apply H1; eapply (HM a b ga g); [done|done|by rewrite H3|by rewrite Hpc]
            end).
  all: try (exfalso; match goal with
            | H2 : gs _ !! ?a = Some ?ga, H3 : at_pc ?ga = pRegister |- _ =>
                eapply (HF ltac:(done) a ga); [done|by rewrite H3]
            end).
Qed.

Lemma step_inv_record s t s' :
  Inv s → step s t = Some s' →
  ∀ t0 g0, gs s' !! t0 = Some g0 → owner (at_pc g0) →
    ∃ l r, c g0 = Some l ∧ record_of g0 = Some r ∧ heap s' !! l = Some r.
Proof.
  start_step.
  all: try (by eapply HRC).
  all: try (destruct (HRC t g Hg ltac:(by rewrite Hpc)) as (l' & r' & Hc' & Hr' & Hh');
            unfold record_of in *; simpl_pcs; rewrite Hpc in *; by eauto).
  - (* Register, the goroutine itself *)
    eexists _, _. split; [done|]. split; [done|].
    by rewrite lookup_app_r, Nat.sub_diag.
  - (* Register, another owner *)
    destruct (HRC t0 g0) as (l' & r' & Hc' & Hr' & Hh'); [done..|].
    exists l', r'. split; [done|]. split; [done|]. by apply lookup_app_l_Some.
  - (* the results are stored *)
    destruct (HRC t g Hg ltac:(by rewrite Hpc)) as (l' & r' & Hc' & Hr' & Hh').
    unfold record_of in *. simpl_pcs. rewrite Hpc in *.
    assert (l' = l) as -> by congruence. assert (r' = r) as -> by congruence.
    rewrite H2 in *. cbn [mbind option_bind] in *. simplify_eq.
    eexists _, _. split; [done|]. split; [done|].
    apply list_lookup_insert_eq. by eapply lookup_lt_Some.
  - destruct (HRC t0 g0) as (l' & r' & Hc' & Hr' & Hh'); [done..|].
    exists l', r'. split; [done|]. split; [done|].
    rewrite list_lookup_insert_ne; [done|]. intros <-.
    match goal with Hne : t0 ≠ t |- _ => apply Hne end.
    eapply (HOI t0 t g0 g); [done|done|done|by rewrite Hpc|congruence].
  - (* Done *)
    destruct (HRC t g Hg ltac:(by rewrite Hpc)) as (l' & r' & Hc' & Hr' & Hh').
    unfold record_of in *. simpl_pcs. rewrite Hpc in *.
    assert (l' = l) as -> by congruence. assert (r' = r) as -> by congruence.
    destruct (inv g) as [i|]; [|done]. cbn [mbind option_bind] in *. simplify_eq.
    cbn [wg val err] in *. simplify_eq.
    eexists _, _. split; [done|]. split; [done|].
    apply list_lookup_insert_eq. by eapply lookup_lt_Some.
  - destruct (HRC t0 g0) as (l' & r' & Hc' & Hr' & Hh'); [done..|].
    exists l', r'. split; [done|]. split; [done|].
    rewrite list_lookup_insert_ne; [done|]. intros <-.
    match goal with Hne : t0 ≠ t |- _ => apply Hne end.
    eapply (HOI t0 t g0 g); [done|done|done|by rewrite Hpc|congruence].
Qed.

Lemma step_inv_owner_inj s t s' :
  Inv s → step s t = Some s' →
  ∀ t1 t2 g1 g2,
    gs s' !! t1 = Some g1 → gs s' !! t2 = Some g2 →
    owner (at_pc g1) → owner (at_pc g2) → c g1 = c g2 → t1 = t2.
Proof.
  start_step.
  all: try (by eapply HOI).
  all: try (by (eapply (HOI _ t _ g); [done|done|done|by rewrite Hpc|done])).
  all: try (by (eapply (HOI t _ g _); [done|done|by rewrite Hpc|done|done])).
  - destruct (HRC t1 g1) as (l' & r' & Hc' & Hr' & Hh'); [done..|].
    apply lookup_lt_Some in Hh'. assert (l' = length (heap s)) by congruence. lia.
  - destruct (HRC t2 g2) as (l' & r' & Hc' & Hr' & Hh'); [done..|].
    apply lookup_lt_Some in Hh'. assert (l' = length (heap s)) by congruence. lia.
Qed.

Lemma step_inv_dup s t s' :
  Inv s → step s t = Some s' →
  ∀ t0 g0, gs s' !! t0 = Some g0 → duplicate (at_pc g0) →
    ∃ t' g', gs s' !! t' = Some g' ∧ owner (at_pc g') ∧ c g' = c g0 ∧
             key g' = key g0 ∧ (woken (at_pc g0) → released (at_pc g')).
Proof.
  start_step.
  all: try (match goal with
            | H1 : gs _ !! ?a = Some ?ga, H2 : Is_true (duplicate (at_pc ?ga)) |- _ =>
                let H := fresh in
                pose proof (HD a ga H1 H2) as H; old_witness H t g Hpc; by intuition
            end).
  all: try (let H := fresh in
            pose proof (HD t g Hg ltac:(by rewrite Hpc)) as H;
            rewrite Hpc in H; old_witness H t g Hpc; by intuition).
  - (* a record is found *)
    destruct (HRO _ _ H0) as (t' & g' & Hg' & Hr' & Hk' & Hc').
    assert (t' ≠ t) as Hne by (intros ->; assert (g' = g) as -> by congruence;
                                by rewrite Hpc in Hr').
    exists t', g'. rewrite upd_other by done. split; [done|].
    split; [by destruct (at_pc g')|]. done.
  - (* the wait is over *)
    destruct (HD t g Hg ltac:(by rewrite Hpc)) as (t' & g' & Hg' & Ho' & Hc' & Hk' & _).
    assert (t' ≠ t) as Hne by (intros ->; assert (g' = g) as -> by congruence;
                                by rewrite Hpc in Ho').
    exists t', g'. rewrite upd_other by done. split; [done|]. split; [done|].
    split; [done|]. split; [done|]. intros _.
    destruct (HRC t' g' Hg' Ho') as (l' & r' & Hc'' & Hr' & Hh').
    assert (l' = l) as -> by congruence. assert (r' = r) as -> by congruence.
    unfold record_of in Hr'.
    destruct (at_pc g'); try done; destruct (inv g');
      cbn [mbind option_bind] in Hr'; simplify_eq; cbn [wg] in *; done.
Qed.

Lemma step_inv_dup_ret s t s' :
  Inv s → step s t = Some s' →
  ∀ t0 g0, gs s' !! t0 = Some g0 → at_pc g0 = pHitDone →
    ∃ t' g', gs s' !! t' = Some g' ∧ owner (at_pc g') ∧ c g' = c g0 ∧
             key g' = key g0 ∧ ∃ i, inv g' = Some i ∧ ret g0 = Some (fn g' i).
Proof.
  start_step.
  all: try (match goal with
            | H1 : gs _ !! ?a = Some ?ga, H2 : at_pc ?ga = pHitDone |- _ =>
                let H := fresh in
                pose proof (HDR a ga H1 H2) as H; old_witness H t g Hpc;
                by intuition
            end).
  - (* a duplicate returns *)
    destruct (HD t g Hg ltac:(by rewrite Hpc)) as (t' & g' & Hg' & Ho' & Hc' & Hk' & Hrel).
    rewrite Hpc in Hrel. specialize (Hrel I).
    assert (t' ≠ t) as Hne by (intros ->; assert (g' = g) as -> by congruence;
                                by rewrite Hpc in Ho').
    exists t', g'. rewrite upd_other by done. split; [done|]. split; [done|].
    split; [done|]. split; [done|].
    destruct (HRC t' g' Hg' Ho') as (l' & r' & Hc'' & Hr' & Hh').
    assert (l' = l) as -> by congruence. assert (r' = r) as -> by congruence.
    unfold record_of in Hr'.
    destruct (at_pc g'); try done; destruct (inv g') as [i|];
      cbn [mbind option_bind] in Hr'; simplify_eq; cbn [val err];
      exists i; by destruct (fn g' i).
  - (* fn is entered: not by the owner of a record whose duplicate has returned *)
    destruct (HDR t0 g0 H0 H1) as (t' & g' & Hg' & Ho' & Hc' & Hk' & Hi').
    destruct (HD t0 g0 H0 ltac:(by rewrite H1)) as (t'' & g'' & Hg'' & Ho'' & Hc'' & _ & Hrel).
    rewrite H1 in Hrel. specialize (Hrel I).
    assert (t'' = t') as -> by (eapply HOI; [done..|congruence]).
    assert (g'' = g') as -> by congruence.
    assert (t' ≠ t) as Hne by (intros ->; assert (g' = g) as -> by congruence;
                                by rewrite Hpc in Hrel).
    exists t', g'. rewrite upd_other by done. done.
Qed.

Lemma step_inv_ret s t s' :
  Inv s → step s t = Some s' →
  ∀ t0 g0, gs s' !! t0 = Some g0 → at_pc g0 = pDone →
    ∃ i, inv g0 = Some i ∧ ret g0 = Some (fn g0 i).
Proof.
  start_step.
  all: try (by eapply HR).
  destruct (HRC t g Hg ltac:(by rewrite Hpc)) as (l' & r' & Hc' & Hr' & Hh').
  assert (l' = l) as -> by congruence. assert (r' = r) as -> by congruence.
  unfold record_of in Hr'. rewrite Hpc in Hr'.
  destruct (inv g) as [i|]; cbn [mbind option_bind] in Hr'; simplify_eq; cbn [val err].
  exists i. by destruct (fn g i).
Qed.

Lemma step_inv_called s t s' :
  Inv s → step s t = Some s' →
  ∀ t0 g0 i, gs s' !! t0 = Some g0 → inv g0 = Some i →
    called (at_pc g0) ∧ i < calls s'.
Proof.
  start_step.
  all: try (by eapply HC).
  all: try (by (destruct (HC t g _ Hg ltac:(eassumption)) as [Hcl Hlt];
                rewrite Hpc in Hcl)).
  all: try (split; [done|]; by eapply HC).
  - split; [done|]. simplify_eq. lia.
  - destruct (HC t0 g0 i H0 H1). split; [done|lia].
Qed.

Lemma step_inv_called_inj s t s' :
  Inv s → step s t = Some s' →
  ∀ t1 t2 g1 g2 i,
    gs s' !! t1 = Some g1 → gs s' !! t2 = Some g2 →
    inv g1 = Some i → inv g2 = Some i → t1 = t2.
Proof.
  start_step.
  all: try (by eapply HCI).
  all: try (by (eapply (HCI _ t _ g); [done|done|done|done])).
  all: try (by (eapply (HCI t _ g _); [done|done|done|done])).
  all: simplify_eq;
    match goal with
    | H1 : gs _ !! ?a = Some ?ga, H2 : inv ?ga = Some (calls _) |- _ =>
        destruct (HC a ga _ H1 H2); lia
    end.
Qed.

Lemma step_inv_calls s t s' :
  Inv s → step s t = Some s' →
  ∀ i, i < calls s' → ∃ t0 g0, gs s' !! t0 = Some g0 ∧ inv g0 = Some i.
Proof.
  start_step.
  all: try (match goal with
            | H1 : _ < calls _ |- _ =>
                let H := fresh in
                pose proof (HCA _ H1) as H; old_witness H t g Hpc; by intuition
            end).
  destruct (decide (i = calls s)) as [->|Hne].
  - eexists t, _. split; [by apply upd_self|done].
  - assert (i < calls s) as Hlt by lia.
    destruct (HCA _ Hlt) as (t0 & g0 & Hg0 & Hi0).
    assert (t0 ≠ t) as Hne'.
    { intros ->. assert (g0 = g) as -> by congruence.
      destruct (HC t g i Hg Hi0) as [Hcl _]. by rewrite Hpc in Hcl. }
    exists t0, g0. by rewrite upd_other.
Qed.

(** The steps keep the invariant, and the initial state has it. *)
Lemma step_Inv s t s' : Inv s → step s t = Some s' → Inv s'.
Proof.
  intros HI Hs. constructor.
  - by eapply step_inv_mutex.
  - by eapply step_inv_free.
  - by eapply step_inv_held.
  - by eapply step_inv_reg_owner.
  - by eapply step_inv_owner_reg.
  - by eapply step_inv_register.
  - by eapply step_inv_record.
  - by eapply step_inv_owner_inj.
  - by eapply step_inv_dup.
  - by eapply step_inv_dup_ret.
  - by eapply step_inv_ret.
  - by eapply step_inv_called.
  - by eapply step_inv_called_inj.
  - by eapply step_inv_calls.
Qed.

Lemma init_Inv (cs : list goroutine) : fresh cs → Inv (init cs).
Proof.
  intros Hf. unfold fresh in Hf. rewrite Forall_lookup in Hf.
  constructor; simpl; try done.
  - intros t1 t2 g1 g2 H1 H2 Hh. destruct (Hf _ _ H1) as (Hpc & _). by rewrite Hpc in Hh.
  - intros _ t g Hg Hh. destruct (Hf _ _ Hg) as (Hpc & _). by rewrite Hpc in Hh.
  - intros t g Hg Hr. destruct (Hf _ _ Hg) as (Hpc & _). by rewrite Hpc in Hr.
  - intros t g Hg Hpc'. destruct (Hf _ _ Hg) as (Hpc & _). congruence.
  - intros t g Hg Ho. destruct (Hf _ _ Hg) as (Hpc & _). by rewrite Hpc in Ho.
  - intros t1 t2 g1 g2 H1 H2 Ho. destruct (Hf _ _ H1) as (Hpc & _). by rewrite Hpc in Ho.
  - intros t g Hg Hd. destruct (Hf _ _ Hg) as (Hpc & _). by rewrite Hpc in Hd.
  - intros t g Hg Hpc'. destruct (Hf _ _ Hg) as (Hpc & _). congruence.
  - intros t g Hg Hpc'. destruct (Hf _ _ Hg) as (Hpc & _). congruence.
  - intros t g i Hg Hi. destruct (Hf _ _ Hg) as (_ & _ & Hinv & _). congruence.
  - intros t1 t2 g1 g2 i H1 H2 Hi. destruct (Hf _ _ H1) as (_ & _ & Hinv & _). congruence.
  - intros i Hi. lia.
Qed.

Lemma run_Inv s sched s' : Inv s → run s sched = Some s' → Inv s'.
Proof.
  revert s. induction sched as [|t sched IH]; intros s HI Hrun; simpl in Hrun.
  - by simplify_eq.
  - destruct (step s t) as [s1|] eqn:Hs; [|done]. simpl in Hrun.
    eapply IH; [|done]. by eapply step_Inv.
Qed.

(** *** Consequences of the invariant *)

Lemma registered_owner p : registered p → owner p.
Proof. by destruct p. Qed.


Lemma Inv_no_record s k :
  Inv s →
  (∀ t g, gs s !! t = Some g → key g = k → ¬ registered (at_pc g)) →
  registry s k = None.
Proof.
  intros HI Hno. destruct (registry s k) as [l|] eqn:Hr; [|done].
  destruct (inv_reg_owner s HI k l Hr) as (t & g & Hg & Hreg & Hk & _).
  by destruct (Hno t g Hg Hk).
Qed.

(** *** Runs *)

Lemma run_app s sched1 sched2 :
  run s (sched1 ++ sched2) = run s sched1 ≫= λ s1, run s1 sched2.
Proof.
  revert s. induction sched1 as [|t sched1 IH]; intros s; simpl; [done|].
  destruct (step s t); simpl; [apply IH|done].
Qed.

Lemma step_same s t s' :
  step s t = Some s' →
  length (gs s') = length (gs s) ∧
  ∀ t0 g0, gs s' !! t0 = Some g0 →
    ∃ g, gs s !! t0 = Some g ∧ key g0 = key g ∧ fn g0 = fn g.
Proof.
  intros Hstep. apply step_trans in Hstep as (g & Hg & Ht).
  assert (is_Some (gs s !! t)) as Hsome by eauto.
  destruct Ht; cbn [gs]; (split; [by rewrite length_insert|]);
    intros t0 g0 Hg0; apply upd_lookup in Hg0 as [[-> ->]|[? Hg0]]; eauto.
Qed.

Lemma run_same s sched s' :
  run s sched = Some s' →
  length (gs s') = length (gs s) ∧
  ∀ t0 g0, gs s' !! t0 = Some g0 →
    ∃ g, gs s !! t0 = Some g ∧ key g0 = key g ∧ fn g0 = fn g.
Proof.
  revert s. induction sched as [|t sched IH]; intros s Hrun; simpl in Hrun.
  - simplify_eq. eauto.
  - destruct (step s t) as [s1|] eqn:Hs; [|done]. simpl in Hrun.
    destruct (IH s1 Hrun) as [Hlen Hsame]. destruct (step_same s t s1 Hs) as [Hlen1 Hsame1].
    split; [congruence|]. intros t0 g0 H0.
    destruct (Hsame t0 g0 H0) as (g1 & H1 & Hk1 & Hf1).
    destruct (Hsame1 t0 g1 H1) as (g2 & H2 & Hk2 & Hf2).
    exists g2. split; [done|]. split; congruence.
Qed.

(** *** Joined runs *)





(** *** The claims *)


(** *** A call that runs alone *)

Lemma run_step s t s1 sched : step s t = Some s1 → run s (t :: sched) = run s1 sched.
Proof. intros Hs. simpl. by rewrite Hs. Qed.

Lemma goroutine_ext g1 g2 :
  key g1 = key g2 → fn g1 = fn g2 → at_pc g1 = at_pc g2 → c g1 = c g2 →
  inv g1 = inv g2 → ret g1 = ret g2 → g1 = g2.
Proof. destruct g1, g2; simpl; congruence. Qed.

(** A caller at the start of [Do] that finds the mutex free and no record
    under its key, and runs alone: it calls its [fn], returns the results
    of that call, and leaves no record. *)
Lemma solo_run s t g :
  gs s !! t = Some g → at_pc g = pLock → mu s = false → registry s (key g) = None →
  run s (replicate 11 t)
  = Some {| mu := false;
            m := Some (delete (key g) (<[key g := length (heap s)]> (default ∅ (m s))));
            heap := heap s ++ [mkCall 0 (fn g (calls s)).1 (fn g (calls s)).2];
            calls := S (calls s);
            gs := <[t := mkG (key g) (fn g) pDone (Some (length (heap s)))
                          (Some (calls s)) (Some (fn g (calls s)))]> (gs s) |}.
Proof.
  intros Hg Hpc Hmu Hreg.
  assert (t < length (gs s)) as Hlt by (by eapply lookup_lt_Some).
  cbn [replicate].
  erewrite run_step;
    [|apply step_trans; eexists; split; [exact Hg|by eapply t_Lock]].
  erewrite run_step;
    [|apply step_trans; eexists; split;
      [cbn [gs]; by apply list_lookup_insert_eq|by eapply t_Miss]].
  cbn [mu m heap calls gs goto key fn at_pc c inv ret].
  erewrite run_step;
    [|apply step_trans; eexists; split;
      [cbn [gs]; apply list_lookup_insert_eq; by rewrite length_insert
      |by eapply t_Register]].
  cbn [mu m heap calls gs goto set_c key fn at_pc c inv ret].
  erewrite run_step;
    [|apply step_trans; eexists; split;
      [cbn [gs]; apply list_lookup_insert_eq; by rewrite !length_insert
      |by eapply t_Unlock1]].
  cbn [mu m heap calls gs goto set_c key fn at_pc c inv ret].
  erewrite run_step;
    [|apply step_trans; eexists; split;
      [cbn [gs]; apply list_lookup_insert_eq; by rewrite !length_insert
      |by eapply t_Call]].
  cbn [mu m heap calls gs goto set_c set_inv key fn at_pc c inv ret].
  erewrite run_step;
    [|apply step_trans; eexists; split;
      [cbn [gs]; apply list_lookup_insert_eq; by rewrite !length_insert
      |eapply t_FnRet; cbn [mu m heap calls gs key fn at_pc c inv ret];
       [done|done|by rewrite lookup_app_r, Nat.sub_diag|done]]].
  cbn [mu m heap calls gs goto set_c set_inv key fn at_pc c inv ret wg].
  erewrite run_step;
    [|apply step_trans; eexists; split;
      [cbn [gs]; apply list_lookup_insert_eq; by rewrite !length_insert
      |eapply t_WgDone; cbn [mu m heap calls gs key fn at_pc c inv ret];
       [done|done
       |apply list_lookup_insert_eq; rewrite length_app; simpl; lia|done]]].
  cbn [mu m heap calls gs goto set_c set_inv key fn at_pc c inv ret wg val err].
  erewrite run_step;
    [|apply step_trans; eexists; split;
      [cbn [gs]; apply list_lookup_insert_eq; by rewrite !length_insert
      |by eapply t_Lock2]].
  cbn [mu m heap calls gs goto set_c set_inv key fn at_pc c inv ret wg val err].
  erewrite run_step;
    [|apply step_trans; eexists; split;
      [cbn [gs]; apply list_lookup_insert_eq; by rewrite !length_insert
      |by eapply t_Delete]].
  cbn [mu m heap calls gs goto set_c set_inv key fn at_pc c inv ret wg val err].
  erewrite run_step;
    [|apply step_trans; eexists; split;
      [cbn [gs]; apply list_lookup_insert_eq; by rewrite !length_insert
      |by eapply t_Unlock2]].
  cbn [mu m heap calls gs goto set_c set_inv key fn at_pc c inv ret wg val err].
  erewrite run_step;
    [|apply step_trans; eexists; split;
      [cbn [gs]; apply list_lookup_insert_eq; by rewrite !length_insert
      |eapply t_Ret; cbn [mu m heap calls gs key fn at_pc c inv ret];
       [done|done
       |apply list_lookup_insert_eq; rewrite length_insert, length_app; simpl; lia]]].
  cbn [run mu m heap calls gs goto set_c set_inv set_ret key fn at_pc c inv ret wg val err
       fmap option_fmap option_map].
  rewrite !list_insert_insert_eq.
  do 2 f_equal.
  - replace (length (heap s)) with (length (heap s) + 0) at 1 by lia.
    by rewrite insert_app_r.
  - f_equal. apply goroutine_ext; try reflexivity.
    cbn [ret set_ret]. by destruct (fn g (calls s)).
Qed.

(** C4.  In every state that the callers reach from the zero group: a
    caller that has run [fn] has returned the results of its call, whatever
    they are, value or error; a duplicate caller has returned the results
    of the call of a caller with its key; the record of a caller that has
    passed [delete] is not in the map, and the map holds no record under a
    key that no goroutine has registered and not yet deleted; and a caller
    that starts when the mutex is free and no record is registered under
    its key runs its own [fn], once, and returns its results: nothing of
    an earlier call is kept. *)
Theorem Do_verbatim_fresh (cs : list goroutine) (sched : list nat) (s : state) :
  fresh cs →
  run (init cs) sched = Some s →
  (∀ t g, gs s !! t = Some g → at_pc g = pDone →
     ∃ i, inv g = Some i ∧ ret g = Some (fn g i)) ∧
  (∀ t g, gs s !! t = Some g → at_pc g = pHitDone →
     ∃ t' g' i, gs s !! t' = Some g' ∧ key g' = key g ∧ inv g' = Some i ∧
                ret g = Some (fn g' i)) ∧
  (∀ t g l, gs s !! t = Some g → removed (at_pc g) → c g = Some l →
     registry s (key g) ≠ Some l) ∧
  (∀ k, (∀ t g, gs s !! t = Some g → key g = k → ¬ registered (at_pc g)) →
     registry s k = None) ∧
  (∀ t g, gs s !! t = Some g → at_pc g = pLock → mu s = false →
     (∀ t' g', gs s !! t' = Some g' → key g' = key g → ¬ registered (at_pc g')) →
     ∃ s' g', run s (replicate 11 t) = Some s' ∧
              calls s' = S (calls s) ∧ registry s' (key g) = None ∧
              gs s' !! t = Some g' ∧ at_pc g' = pDone ∧
              inv g' = Some (calls s) ∧ ret g' = Some (fn g (calls s))).
Proof.
  intros Hfresh Hrun.
  pose proof (run_Inv _ _ _ (init_Inv cs Hfresh) Hrun) as HI.
  split; [apply (inv_ret s HI)|]. split; [|split; [|split]].
  - intros t g Hg Hpc.
    destruct (inv_dup_ret s HI t g Hg Hpc) as (t' & g' & Hg' & _ & _ & Hk' & i & Hi & Hr).
    by exists t', g', i.
  - intros t g l Hg Hrm Hc Hreg.
    destruct (inv_reg_owner s HI _ _ Hreg) as (t' & g' & Hg' & Hr' & Hk' & Hc').
    assert (t' = t) as ->.
    { eapply (inv_owner_inj s HI t' t g' g); [done|done| | |congruence].
      - by apply registered_owner.
      - by destruct (at_pc g). }
    assert (g' = g) as -> by congruence. by destruct (at_pc g).
  - intros k. by apply Inv_no_record.
  - intros t g Hg Hpc Hmu Hno.
    pose proof (Inv_no_record s (key g) HI Hno) as Hreg.
    eexists _, _. split; [by apply solo_run|]. cbn [calls gs].
    split; [done|]. split; [|split].
    + unfold registry. cbn [m from_option id]. apply lookup_delete_eq.
    + apply list_lookup_insert_eq. by eapply lookup_lt_Some.
    + done.
Qed.

(** *** No deadlock *)

(** As long as a caller has not returned, some goroutine can step. *)
Lemma Inv_progress s :
  Inv s →
  (∃ t g, gs s !! t = Some g ∧ ¬ returned (at_pc g)) →
  ∃ t s', step s t = Some s'.
Proof.
  intros HI (t & g & Hg & Hnr).
  pose proof HI as [HM HF HH HRO HOR HRG HRC HOI HD HDR HR HC HCI HCA].
  assert (∀ t g, gs s !! t = Some g → owner (at_pc g) → ¬ holding (at_pc g) →
            ¬ released (at_pc g) → ∃ s', step s t = Some s') as Howner.
  { intros t1 g1 Hg1 Ho1 Hh1 Hr1.
    destruct (HRC t1 g1 Hg1 Ho1) as (l & r & Hc & Hrec & Hheap).
    unfold record_of in Hrec.
    destruct (at_pc g1) eqn:Hpc1; try done.
    - eexists. apply step_trans. exists g1. split; [done|]. by eapply t_Call.
    - destruct (inv g1) as [i|] eqn:Hi; [|done].
      eexists. apply step_trans. exists g1. split; [done|]. by eapply t_FnRet.
    - destruct (inv g1) as [i|] eqn:Hi; [|done]. simpl in Hrec. simplify_eq.
      eexists. apply step_trans. exists g1. split; [done|]. by eapply t_WgDone. }
  destruct (mu s) eqn:Hmu.
  - destruct (HH eq_refl) as (t0 & g0 & Hg0 & Hh0).
    exists t0. destruct (at_pc g0) eqn:Hpc0; try done.
    + destruct (registry s (key g0)) as [l|] eqn:Hr; eexists; apply step_trans;
        exists g0; (split; [done|]); [by eapply t_Hit|by eapply t_Miss].
    + eexists. apply step_trans. exists g0. split; [done|]. by eapply t_HitUnlock.
    + destruct (HRG t0 g0 Hg0 Hpc0) as [[mp Hmp] _].
      eexists. apply step_trans. exists g0. split; [done|]. by eapply t_Register.
    + eexists. apply step_trans. exists g0. split; [done|]. by eapply t_Unlock1.
    + eexists. apply step_trans. exists g0. split; [done|]. by eapply t_Delete.
    + eexists. apply step_trans. exists g0. split; [done|]. by eapply t_Unlock2.
  - pose proof (HF eq_refl t g Hg) as Hnh.
    destruct (at_pc g) eqn:Hpc; try (by destruct Hnh); try (by destruct Hnr).
    + exists t. eexists. apply step_trans. exists g. split; [done|]. by eapply t_Lock.
    + (* waiting: either the wait is over or the owner of the record can step *)
      destruct (HD t g Hg ltac:(by rewrite Hpc)) as (t' & g' & Hg' & Ho' & Hc' & _).
      destruct (HRC t' g' Hg' Ho') as (l & r & Hc'' & Hrec & Hheap).
      destruct (decide (wg r = 0)) as [Hw|Hw].
      * exists t. eexists. apply step_trans. exists g. split; [done|].
        eapply (t_Wait s t g l r); [done|congruence|done|done].
      * exists t'. apply (Howner t' g' Hg' Ho'); [by apply (HF eq_refl t' g')|].
        intros Hrel. unfold record_of in Hrec.
        destruct (at_pc g'); try done; destruct (inv g'); simpl in Hrec; by simplify_eq.
    + destruct (HD t g Hg ltac:(by rewrite Hpc)) as (t' & g' & Hg' & Ho' & Hc' & _).
      destruct (HRC t' g' Hg' Ho') as (l & r & Hc'' & Hrec & Hheap).
      exists t. eexists. apply step_trans. exists g. split; [done|].
      eapply (t_HitRet s t g l r); [done|congruence|done].
    + exists t. apply (Howner t g Hg); rewrite Hpc; first [done|by intros []].
    + exists t. apply (Howner t g Hg); rewrite Hpc; first [done|by intros []].
    + exists t. apply (Howner t g Hg); rewrite Hpc; first [done|by intros []].
    + exists t. eexists. apply step_trans. exists g. split; [done|]. by eapply t_Lock2.
    + destruct (HRC t g Hg ltac:(by rewrite Hpc)) as (l & r & Hc & Hrec & Hheap).
      exists t. eexists. apply step_trans. exists g. split; [done|]. by eapply t_Ret.
Qed.


End sf.

(** *** The examples *)

Section sf_examples.
Import singleflight.
Local Open Scope nat_scope.


Lemma fresh_callers (ks : list (string * (nat → outcome nat string))) :
  fresh ((λ kf, caller kf.1 kf.2) <$> ks).
Proof. unfold fresh. apply Forall_fmap, Forall_forall. done. Qed.


Lemma Do_verbatim_fresh_witness :
  fresh two_callers ∧
  run (init two_callers) (replicate 11 0) = Some (final two_callers (replicate 11 0)) ∧
  ∃ s' g', run (final two_callers (replicate 11 0)) (replicate 11 1) = Some s' ∧
           calls s' = 2 ∧ registry s' "x" = None ∧
           gs s' !! 1 = Some g' ∧ at_pc g' = pDone ∧ ret g' = Some (count 1).
Proof.
  assert (fresh two_callers) as Hf by (apply (fresh_callers [("x", count); ("x", count)])).
  assert (run (init two_callers) (replicate 11 0) = Some (final two_callers (replicate 11 0)))
    as Hrun by (vm_compute; reflexivity).
  assert (Forall (λ g, ¬ registered (at_pc g)) (gs (final two_callers (replicate 11 0))))
    as Hnr by (vm_compute; repeat constructor; by intros []).
  rewrite Forall_lookup in Hnr.
  split; [exact Hf|]. split; [exact Hrun|].
  destruct (Do_verbatim_fresh two_callers (replicate 11 0) _ Hf Hrun) as (_ & _ & _ & _ & Hfr).
  destruct (Hfr 1 (caller "x" count)) as (s' & g' & Hr & Hc & Hreg & Hg' & Hpc & _ & Hret).
  - vm_compute. reflexivity.
  - reflexivity.
  - vm_compute. reflexivity.
  - intros t' g1 Hg1 _. by eapply Hnr.
  - exists s', g'. split; [exact Hr|]. split; [exact Hc|]. split; [exact Hreg|].
    split; [exact Hg'|]. split; [exact Hpc|]. exact Hret.
Defined.

End sf_examples.

(** * More on the ring and the pool *)

Section ring_more.
Import consistenthash.

Lemma built_from_built ms m : built_from ms m → built m.
Proof. induction 1; by constructor. Qed.

Lemma sort_Ints_sorted (l : list Z) : StronglySorted Z.le l → sort_Ints l = l.
Proof.
  intros Hs. apply (StronglySorted_unique Z.le).
  - apply StronglySorted_merge_sort; apply _.
  - done.
  - apply merge_sort_Permutation.
Qed.

Lemma sort_Ints_Permutation (l1 l2 : list Z) : l1 ≡ₚ l2 → sort_Ints l1 = sort_Ints l2.
Proof.
  intros Hp. apply (StronglySorted_unique Z.le).
  - apply StronglySorted_merge_sort; apply _.
  - apply StronglySorted_merge_sort; apply _.
  - unfold sort_Ints. by rewrite !merge_sort_Permutation.
Qed.

(** The fold of [Add] reads the hash function, the replica count and the
    map of its start, not the sequence. *)
Lemma foldl_add_replica_hashMap key l m1 m2 :
  hash m1 = hash m2 → hashMap m1 = hashMap m2 →
  hash (foldl (add_replica key) m1 l) = hash (foldl (add_replica key) m2 l) ∧
  replicas (foldl (add_replica key) m1 l) = replicas m1 ∧
  hashMap (foldl (add_replica key) m1 l) = hashMap (foldl (add_replica key) m2 l).
Proof.
  revert m1 m2. induction l as [|i l IH]; intros m1 m2 Hh Hm; simpl; [done|].
  destruct (IH (add_replica key m1 i) (add_replica key m2 i)) as (H1 & H2 & H3).
  - done.
  - unfold add_replica. simpl. by rewrite Hh, Hm.
  - done.
Qed.

Lemma foldl_add_key_hashMap ks m1 m2 :
  hash m1 = hash m2 → replicas m1 = replicas m2 → hashMap m1 = hashMap m2 →
  hashMap (foldl add_key m1 ks) = hashMap (foldl add_key m2 ks).
Proof.
  revert m1 m2. induction ks as [|k ks IH]; intros m1 m2 Hh Hr Hm; simpl; [done|].
  apply IH.
  - by rewrite !add_key_hash.
  - by rewrite !add_key_replicas.
  - unfold add_key. rewrite Hr.
    by destruct (foldl_add_replica_hashMap k (seqZ 0 (replicas m2)) m1 m2 Hh Hm) as (_ & _ & ?).
Qed.

Lemma new_hashes_ext m m' ks :
  hash m' = hash m → replicas m' = replicas m → new_hashes m' ks = new_hashes m ks.
Proof.
  intros Hh Hr. unfold new_hashes. apply list_bind_ext; [|done].
  intros k. by apply replica_hashes_ext.
Qed.

Lemma Map_eq (m1 m2 : Map) :
  hash m1 = hash m2 → replicas m1 = replicas m2 → keys m1 = keys m2 →
  hashMap m1 = hashMap m2 → m1 = m2.
Proof. destruct m1, m2; simpl; by intros -> -> -> ->. Qed.

(** X1.  Adding members in two calls is adding them in one: the rings are
    equal, sequence and owner map. *)
Theorem Add_Add (m : Map) (ks1 ks2 : list string) :
  Add (Add m ks1) ks2 = Add m (ks1 ++ ks2).
Proof.
  apply Map_eq.
  - by rewrite !Add_hash.
  - by rewrite !Add_replicas.
  - rewrite !Add_keys. apply sort_Ints_Permutation.
    rewrite (new_hashes_ext m (Add m ks1)) by (apply Add_hash || apply Add_replicas).
    unfold sort_Ints at 1. rewrite merge_sort_Permutation.
    unfold new_hashes. by rewrite bind_app, app_assoc.
  - unfold Add at 1 3. cbn [hashMap]. rewrite foldl_app.
    apply foldl_add_key_hashMap; reflexivity.
Qed.

(** X2.  On a built ring, an [Add] of no members, or with a replica count
    of 0 or less, changes nothing. *)
Theorem Add_nothing (m : Map) (ks : list string) :
  built m → ks = [] ∨ replicas m ≤ 0 → Add m ks = m.
Proof.
  intros Hb Hno.
  assert (foldl add_key m ks = m) as Hfold.
  { destruct Hno as [->|Hr]; [done|].
    induction ks as [|k ks IH]; [done|]. simpl.
    unfold add_key at 2. rewrite (seqZ_nil 0 (replicas m)) by lia. done. }
  apply Map_eq; unfold Add; cbn [hash replicas keys hashMap]; rewrite Hfold; try done.
  apply sort_Ints_sorted. by apply built_sorted.
Qed.

Lemma Add_nothing_witness :
  built ring_642 ∧ Add ring_642 [] = ring_642.
Proof.
  assert (built ring_642) as Hb by (apply built_Add, built_New).
  split; [exact Hb|]. apply (Add_nothing ring_642 [] Hb). by left.
Defined.

(** *** The owner [Get] returns *)

Lemma built_from_bound ms m : built_from ms m → bound_in (λ o, o ∈ ms) m.
Proof.
  induction 1 as [|ms m ks Hb IH]; [apply New_bound|].
  apply Add_bound.
  - apply Forall_forall. intros k Hk. apply elem_of_app. by right.
  - intros h Hh. destruct (IH h Hh) as (o & Ho & Hin).
    exists o. split; [done|]. apply elem_of_app. by left.
Qed.

Lemma built_from_replicas ms m :
  built_from ms m → ∃ r fn, replicas m = r ∧ replicas (New r fn) = r.
Proof.
  induction 1 as [r fn|ms m ks Hb (r & fn & Hr & Hn)].
  - by exists r, fn.
  - exists r, fn. by rewrite Add_replicas.
Qed.

Lemma built_from_length ms m :
  built_from ms m → length (keys m) = (length ms * Z.to_nat (replicas m))%nat.
Proof.
  induction 1 as [|ms m ks Hb IH]; [done|].
  rewrite (Permutation_length (Add_keys_Permutation m ks)).
  rewrite length_app, new_hashes_length, IH, Add_replicas, length_app. lia.
Qed.

(** X3.  A ring built from the members [ms] is empty exactly when there are
    no members or the replica count is 0 or less; when it is not empty,
    [Get] returns one of the members, for every key. *)
Theorem Get_member (ms : list string) (m : Map) (key : string) :
  built_from ms m →
  (IsEmpty m = true ↔ ms = [] ∨ replicas m ≤ 0) ∧
  (IsEmpty m = false → Get m key ∈ ms).
Proof.
  intros Hb. split.
  - unfold IsEmpty. rewrite bool_decide_eq_true, (built_from_length ms m Hb).
    split.
    + intros H0. apply Nat.eq_mul_0 in H0 as [H0|H0].
      * left. by apply length_zero_iff_nil.
      * right. lia.
    + intros [->|Hr]; [done|]. rewrite Z2Nat.nonpos by done. lia.
  - intros He.
    destruct (Get_owner (λ o, o ∈ ms) m key (built_from_bound ms m Hb) He)
      as (x & _ & _ & Hin).
    exact Hin.
Qed.

Lemma Get_member_witness :
  built_from ["6"; "4"; "2"] ring_642 ∧ Get ring_642 "11" ∈ ["6"; "4"; "2"].
Proof.
  assert (built_from ["6"; "4"; "2"] ring_642) as Hb.
  { exact (built_from_Add [] _ ["6"; "4"; "2"] (built_from_New 3 (Some parse_decimal))). }
  split; [exact Hb|].
  apply (Get_member ["6"; "4"; "2"] ring_642 "11" Hb). reflexivity.
Defined.

(** *** An [Add] moves a key to a new member or not at all *)

Lemma Get_picks m key :
  StronglySorted Z.le (keys m) → IsEmpty m = false →
  ∃ x, picks (keys m) (uint32 (hash m key)) x ∧
       Get m key = default "" (hashMap m !! x).
Proof.
  intros Hs He. unfold Get. rewrite He.
  set (h := uint32 (hash m key)).
  destruct (Search_spec (λ i, bool_decide (h ≤ keys m !!! i)) (length (keys m))
              (Get_Search_mono (keys m) h Hs)) as (Hle & Hlo & Hhi).
  set (i := Search (length (keys m)) (λ i, bool_decide (h ≤ keys m !!! i))) in *.
  unfold IsEmpty in He. apply bool_decide_eq_false in He.
  assert (∀ j y, keys m !! j = Some y → (j < i)%nat → y < h) as Hbelow.
  { intros j y Hy Hj. specialize (Hlo j Hj). apply bool_decide_eq_false in Hlo.
    rewrite (list_lookup_total_correct _ _ _ Hy) in Hlo. lia. }
  destruct (decide (i = length (keys m))) as [Hi|Hi].
  - destruct (lookup_lt_is_Some_2 (keys m) 0) as [x Hx]; [lia|].
    exists x. rewrite (list_lookup_total_correct _ _ _ Hx). split; [|done].
    split; [by eapply list_elem_of_lookup_2|]. right. split.
    + intros y Hy. apply list_elem_of_lookup in Hy as [j Hj].
      apply (Hbelow j y Hj). rewrite Hi. by eapply lookup_lt_Some.
    + intros y Hy. apply list_elem_of_lookup in Hy as [j Hj].
      apply (StronglySorted_lookup_le (keys m) 0 j); [done|lia|done..].
  - destruct (lookup_lt_is_Some_2 (keys m) i) as [x Hx]; [lia|].
    exists x. rewrite (list_lookup_total_correct _ _ _ Hx). split; [|done].
    split; [by eapply list_elem_of_lookup_2|]. left.
    assert (h ≤ x) as Hhx.
    { specialize (Hhi i ltac:(lia)). apply bool_decide_eq_true in Hhi.
      by rewrite (list_lookup_total_correct _ _ _ Hx) in Hhi. }
    split; [done|].
    intros y Hy Hhy. apply list_elem_of_lookup in Hy as [j Hj].
    destruct (decide (j < i)%nat) as [Hji|Hji].
    + specialize (Hbelow j y Hj Hji). lia.
    + apply (StronglySorted_lookup_le (keys m) i j); [done|lia|done..].
Qed.

Lemma picks_unique l h x x' : picks l h x → picks l h x' → x = x'.
Proof.
  intros (Hx & [(Hh & Hmin)|(Hall & Hmin)]) (Hx' & [(Hh' & Hmin')|(Hall' & Hmin')]).
  - specialize (Hmin x' Hx' Hh'). specialize (Hmin' x Hx Hh). lia.
  - specialize (Hall' x Hx). lia.
  - specialize (Hall x' Hx'). lia.
  - specialize (Hmin x' Hx'). specialize (Hmin' x Hx). lia.
Qed.

Lemma picks_sub l l' h x :
  (∀ y, y ∈ l → y ∈ l') → picks l' h x → x ∈ l → picks l h x.
Proof.
  intros Hsub (_ & [(Hh & Hmin)|(Hall & Hmin)]) Hx; (split; [done|]).
  - left. split; [done|]. intros y Hy. apply Hmin. by apply Hsub.
  - right. split; intros y Hy; [apply Hall|apply Hmin]; by apply Hsub.
Qed.

(** After an [Add], a hash is bound to a member just added, or it is bound
    as before and, if it is in the sequence, it was before. *)
Lemma Add_binding m ks x :
  (hashMap (Add m ks) !! x = hashMap m !! x ∧ (x ∈ keys (Add m ks) → x ∈ keys m)) ∨
  (∃ o, o ∈ ks ∧ hashMap (Add m ks) !! x = Some o).
Proof.
  set (J := λ m' : Map,
    (hashMap m' !! x = hashMap m !! x ∧ (x ∈ keys m' → x ∈ keys m)) ∨
    (∃ o, o ∈ ks ∧ hashMap m' !! x = Some o)).
  assert (J (foldl add_key m ks)) as HJ.
  { apply (foldl_invariant J (λ k, k ∈ ks)); [|by apply Forall_forall|by left].
    intros m' k Hk Hm'. unfold add_key.
    apply (foldl_invariant J (λ _, True)); [|by apply Forall_forall|done].
    intros m'' i _ Hm''. unfold J, add_replica. cbn [hashMap keys].
    destruct (decide (uint32 (hash m'' (Itoa i +:+ k)) = x)) as [->|Hne].
    - right. exists k. by rewrite lookup_insert_eq.
    - rewrite lookup_insert_ne by done.
      destruct Hm'' as [(Hl & Hin)|Hr]; [left|by right].
      split; [done|]. intros Hx. apply elem_of_app in Hx as [Hx|Hx]; [auto|].
      apply list_elem_of_singleton in Hx. congruence. }
  destruct HJ as [(Hl & Hin)|Hr]; [left|by right].
  split; [done|]. intros Hx. apply Hin.
  unfold Add in Hx. cbn [keys] in Hx. unfold sort_Ints in Hx.
  by rewrite merge_sort_Permutation in Hx.
Qed.

(** X4.  Adding members to a built ring moves a key only to one of the
    members added: for every key, [Get] after the [Add] returns what it
    returned before, or one of the new members. *)
Theorem Add_minimal_disruption (m : Map) (ks : list string) (key : string) :
  built m →
  Get (Add m ks) key = Get m key ∨ Get (Add m ks) key ∈ ks.
Proof.
  intros Hb.
  assert (∀ y, y ∈ keys m → y ∈ keys (Add m ks)) as Hsub.
  { intros y Hy. rewrite (Add_keys_Permutation m ks). apply elem_of_app. by left. }
  destruct (IsEmpty (Add m ks)) eqn:He.
  - left. unfold Get at 1. rewrite He.
    unfold IsEmpty in He. apply bool_decide_eq_true in He.
    apply length_zero_iff_nil in He.
    assert (keys m = []) as Hm.
    { destruct (keys m) as [|y l] eqn:Hk; [done|].
      specialize (Hsub y ltac:(left)). rewrite He in Hsub.
      by apply elem_of_nil in Hsub. }
    unfold Get, IsEmpty. by rewrite Hm.
  - destruct (Get_picks (Add m ks) key (Add_sorted m ks) He) as (x' & Hp' & HG').
    rewrite Add_hash in Hp'.
    destruct (Add_binding m ks x') as [(Hl & Hin)|(o & Ho & Hl)].
    + left. destruct Hp' as [Hx' Hp']. pose proof (Hin Hx') as Hxm.
      assert (IsEmpty m = false) as Hem.
      { unfold IsEmpty. apply bool_decide_eq_false. intros H0.
        apply length_zero_iff_nil in H0. rewrite H0 in Hxm.
        by apply elem_of_nil in Hxm. }
      destruct (Get_picks m key (built_sorted m Hb) Hem) as (x & Hp & HG).
      assert (x = x') as ->.
      { apply (picks_unique (keys m) (uint32 (hash m key))); [done|].
        apply (picks_sub (keys m) (keys (Add m ks))); [done| |done].
        by split. }
      by rewrite HG', HG, Hl.
    + right. rewrite HG', Hl. done.
Qed.

Lemma Add_minimal_disruption_witness :
  built ring_642 ∧
  (Get (Add ring_642 ["8"]) "27" = Get ring_642 "27" ∨
   Get (Add ring_642 ["8"]) "27" ∈ ["8"]).
Proof.
  assert (built ring_642) as Hb by (apply built_Add, built_New).
  split; [exact Hb|]. exact (Add_minimal_disruption ring_642 ["8"] "27" Hb).
Defined.

(** X5.  The sequence of the ring does not depend on the order in which
    the members of an [Add] are given. *)
Theorem Add_order (m : Map) (ks ks' : list string) :
  ks ≡ₚ ks' →
  keys (Add m ks) = keys (Add m ks') ∧ IsEmpty (Add m ks) = IsEmpty (Add m ks').
Proof.
  intros Hp.
  assert (keys (Add m ks) = keys (Add m ks')) as Hk.
  { rewrite !Add_keys. apply sort_Ints_Permutation.
    unfold new_hashes. by rewrite Hp. }
  split; [done|]. unfold IsEmpty. by rewrite Hk.
Qed.

Lemma Add_order_witness :
  ["6"; "4"; "2"] ≡ₚ ["2"; "6"; "4"] ∧
  keys ring_642 = keys (Add (New 3 (Some parse_decimal)) ["2"; "6"; "4"]).
Proof.
  assert (["6"; "4"; "2"] ≡ₚ ["2"; "6"; "4"]) as Hp.
  { change (["6"; "4"] ++ ["2"] ≡ₚ ["2"] ++ ["6"; "4"]). apply Permutation_app_comm. }
  split; [exact Hp|].
  exact (proj1 (Add_order (New 3 (Some parse_decimal)) _ _ Hp)).
Defined.

(** *** The pool *)

Import groupcache groupcache_http.

Lemma Set_built_from p ps : built_from ps (peers (Set_ p ps)).
Proof.
  exact (built_from_Add [] _ ps (built_from_New (Replicas (opts p)) (HashFn (opts p)))).
Qed.

(** X6.  The pool [NewHTTPPoolOpts] makes never has a blank base path or
    0 replicas: a blank path becomes "/_groupcache/" and 0 replicas become
    50, and every other value is kept, a negative replica count too.  Its
    ring is empty, so that it picks no peer for any key.  [NewHTTPPool]
    makes the pool of the defaults, with the checksum as hash, and
    registers it under "/_groupcache/". *)
Theorem NewHTTPPoolOpts_defaults (self_ : string) (o : option HTTPPoolOptions) :
  let p := NewHTTPPoolOpts self_ o in
  self p = self_ ∧
  BasePath (opts p) ≠ "" ∧ Replicas (opts p) ≠ 0 ∧
  (∀ b r fn, o = Some (mkOptions b r fn) →
     opts p = mkOptions (if decide (b = "") then "/_groupcache/" else b)
                        (if decide (r = 0) then 50 else r) fn) ∧
  (o = None → opts p = mkOptions "/_groupcache/" 50 None) ∧
  IsEmpty (peers p) = true ∧
  (∀ key, PickPeer p key = (None, false)) ∧
  NewHTTPPool self_ = (NewHTTPPoolOpts self_ None, "/_groupcache/") ∧
  hash (peers (NewHTTPPool self_).1) = ChecksumIEEE.
Proof.
  cbn zeta. split; [done|]. split; [|split; [|split; [|split]]].
  - unfold NewHTTPPoolOpts. cbn. repeat (case_decide; cbn in * ); done.
  - unfold NewHTTPPoolOpts. cbn. repeat (case_decide; cbn in * ); done.
  - intros b r fn ->. unfold NewHTTPPoolOpts. cbn.
    repeat (case_decide; cbn in * ); done.
  - intros ->. done.
  - done.
Qed.

(** X7.  [Set] replaces the peers: what an earlier [Set] registered is
    gone.  After [Set] the getters are those of the peers given, each with
    the peer followed by the base path as its URL, and the ring is the
    ring of these peers. *)
Theorem Set_replaces (p : HTTPPool) (ps0 ps : list string) :
  Set_ (Set_ p ps0) ps = Set_ p ps ∧
  self (Set_ p ps) = self p ∧ opts (Set_ p ps) = opts p ∧
  (∀ peer, httpGetters (Set_ p ps) !! peer
           = if decide (peer ∈ ps)
             then Some (mkGetter (peer +:+ BasePath (opts p))) else None) ∧
  (∀ h, h ∈ keys (peers (Set_ p ps)) →
        ∃ peer, peer ∈ ps ∧ hashMap (peers (Set_ p ps)) !! h = Some peer) ∧
  length (keys (peers (Set_ p ps)))
  = (length ps * Z.to_nat (Replicas (opts p)))%nat.
Proof.
  split; [done|]. split; [done|]. split; [done|]. split; [|split].
  - intros peer. cbn [httpGetters Set_]. rewrite Set_getters.
    by destruct (decide (peer ∈ ps)).
  - intros h Hh.
    destruct (built_from_bound ps _ (Set_built_from p ps) h Hh) as (o & Ho & Hin).
    by exists o.
  - rewrite (built_from_length ps _ (Set_built_from p ps)).
    cbn [peers Set_]. by rewrite Add_replicas.
Qed.

(** X8.  A pool keeps every key to itself when no peers are set, when the
    replica count is 0 or less, or when the only peer set is the pool
    itself. *)
Theorem PickPeer_local (p : HTTPPool) (ps : list string) (key : string) :
  ps = [] ∨ Replicas (opts p) ≤ 0 ∨ (∀ peer, peer ∈ ps → peer = self p) →
  PickPeer (Set_ p ps) key = (None, false).
Proof.
  intros Hcase. unfold PickPeer.
  destruct (IsEmpty (peers (Set_ p ps))) eqn:He; [done|].
  destruct (Get_owner (λ o, o ∈ ps) (peers (Set_ p ps)) key
              (built_from_bound ps _ (Set_built_from p ps)) He) as (x & _ & _ & Hin).
  unfold IsEmpty in He. apply bool_decide_eq_false in He.
  rewrite (built_from_length ps _ (Set_built_from p ps)) in He.
  destruct Hcase as [->|[Hr|Hself]].
  - by destruct He.
  - destruct He. cbn [peers Set_]. rewrite Add_replicas. cbn.
    rewrite Z2Nat.nonpos by done. lia.
  - rewrite decide_False; [done|]. intros Hne. apply Hne. by apply Hself.
Qed.

Lemma PickPeer_local_witness :
  PickPeer (Set_ (NewHTTPPoolOpts "http://a:80" None) ["http://a:80"]) "k" = (None, false).
Proof.
  apply (PickPeer_local (NewHTTPPoolOpts "http://a:80" None) ["http://a:80"] "k").
  right. right. intros peer Hin. apply list_elem_of_singleton in Hin. exact Hin.
Defined.

End ring_more.

(** * The HTTP handler and the HTTP client *)

Section http_theory.
Import groupcache groupcache_http.

Lemma append_cons a s t : String a s +:+ t = String a (s +:+ t).
Proof. reflexivity. Qed.

Lemma append_nil s : "" +:+ s = s.
Proof. reflexivity. Qed.

Lemma bytes_cons a s : bytes (String a s) = a :: bytes s.
Proof. reflexivity. Qed.

Lemma bytes_app s t : bytes (s +:+ t) = bytes s ++ bytes t.
Proof. induction s as [|a s IH]; [done|]. rewrite append_cons, !bytes_cons, IH. done. Qed.

Lemma HasPrefix_spec s prefix :
  HasPrefix s prefix = true ↔ ∃ rest, s = prefix +:+ rest.
Proof.
  revert s. induction prefix as [|a p IH]; intros s.
  - split; [|by destruct s]. intros _. by exists s.
  - destruct s as [|b s]; simpl.
    + split; [done|]. intros [rest Hr]. by rewrite append_cons in Hr.
    + rewrite andb_true_iff, bool_decide_eq_true, IH. split.
      * intros [-> [rest ->]]. by exists rest.
      * intros [rest Hr]. rewrite append_cons in Hr. simplify_eq. eauto.
Qed.

Lemma slice_from_app prefix rest :
  slice_from (String.length prefix) (prefix +:+ rest) = rest.
Proof. induction prefix as [|a p IH]; simpl; [by destruct rest|done]. Qed.

Lemma cut_slash_Some s x y :
  cut_slash s = Some (x, y) ↔ s = x +:+ "/" +:+ y ∧ "/"%char ∉ bytes x.
Proof.
  revert x. induction s as [|a s IH]; intros x; simpl.
  - split; [done|]. intros [Hs _]. destruct x; by rewrite ?append_cons in Hs.
  - case_bool_decide as Ha.
    + subst a. split.
      * intros [= <- <-]. split; [done|]. apply not_elem_of_nil.
      * intros [Hs Hx]. destruct x as [|b x].
        -- rewrite append_nil, append_cons, append_nil in Hs. by simplify_eq.
        -- rewrite append_cons in Hs. simplify_eq.
           exfalso. apply Hx. rewrite bytes_cons. left.
    + split.
      * intros Hc. destruct (cut_slash s) as [[x' y']|]; simpl in Hc; simplify_eq.
        destruct (proj1 (IH x') eq_refl) as [-> Hx']. split; [done|].
        rewrite bytes_cons. by apply not_elem_of_cons.
      * intros [Hs Hx]. destruct x as [|b x].
        -- rewrite append_nil, append_cons in Hs. by simplify_eq.
        -- rewrite append_cons in Hs. simplify_eq.
           rewrite bytes_cons in Hx. apply not_elem_of_cons in Hx as [_ Hx].
           assert (cut_slash (x +:+ "/" +:+ y) = Some (x, y)) as -> by (by apply IH).
           done.
Qed.

Lemma cut_slash_None s : cut_slash s = None ↔ "/"%char ∉ bytes s.
Proof.
  induction s as [|a s IH]; simpl.
  - split; [intros _; apply not_elem_of_nil|done].
  - rewrite bytes_cons, not_elem_of_cons. case_bool_decide as Ha.
    + subst a. split; [done|]. by intros [? _].
    + rewrite fmap_None, IH. split; [by intros ?|by intros [_ ?]].
Qed.

(** The parts [SplitN] gives are two exactly when there is a ["/"]. *)
Lemma SplitN_slash_2_length s :
  length (SplitN_slash_2 s) = 2%nat ↔ "/"%char ∈ bytes s.
Proof.
  unfold SplitN_slash_2. destruct (cut_slash s) as [[x y]|] eqn:Hc.
  - split; [|done]. intros _. apply cut_slash_Some in Hc as [-> _].
    rewrite !bytes_app. apply elem_of_app. right. apply elem_of_app. left.
    rewrite bytes_cons. left.
  - apply cut_slash_None in Hc. split; [done|]. intros ?. done.
Qed.

(** *** [url.QueryEscape] *)

Lemma unreserved_not_special c :
  unreserved c → c ≠ "/"%char ∧ c ≠ " "%char ∧ c ≠ "%"%char ∧ c ≠ "+"%char.
Proof.
  unfold unreserved. intros Hc.
  repeat split; intros ->; vm_compute in Hc; done.
Qed.

Lemma upperhex_not_slash c :
  upperhex (Z.shiftr (Z.of_N (N_of_ascii c)) 4) ≠ "/"%char ∧
  upperhex (Z.land (Z.of_N (N_of_ascii c)) 15) ≠ "/"%char.
Proof.
  destruct c as [[] [] [] [] [] [] [] []]; vm_compute; split; done.
Qed.

Lemma QueryEscape_no_slash s : "/"%char ∉ bytes (QueryEscape s).
Proof.
  induction s as [|c s IH]; simpl; [apply not_elem_of_nil|].
  case_bool_decide as Hsp.
  - rewrite bytes_cons. apply not_elem_of_cons. done.
  - destruct (shouldEscape c) eqn:Hc.
    + destruct (upperhex_not_slash c) as [H1 H2].
      rewrite !bytes_cons. rewrite !not_elem_of_cons. done.
    + rewrite bytes_cons. apply not_elem_of_cons. split; [|done].
      intros Heq. by destruct (unreserved_not_special c Hc) as [? _].
Qed.

Lemma QueryEscape_unreserved s : Forall unreserved (bytes s) → QueryEscape s = s.
Proof.
  induction s as [|c s IH]; [done|]. rewrite bytes_cons. intros [Hc Hs]%Forall_cons.
  simpl. destruct (unreserved_not_special c Hc) as (_ & Hsp & _).
  rewrite bool_decide_eq_false_2 by done. rewrite Hc. f_equal. by apply IH.
Qed.

Lemma append_assoc s t u : (s +:+ t) +:+ u = s +:+ t +:+ u.
Proof. induction s as [|a s IH]; [done|]. by rewrite !append_cons, IH. Qed.

Section serve.
Context {Group Ctx Bytes : Type}.
Variable GetGroup : string → option Group.
Variable group_Get : Group → Ctx → string → Bytes + string.
Variable Marshal : Bytes → Bytes + string.
Variable Context_ : option (Request (Ctx:=Ctx) → Ctx).
Abbreviation ServeHTTP' := (ServeHTTP GetGroup group_Get Marshal Context_).
Abbreviation answer' := (answer GetGroup group_Get Marshal).

Lemma ServeHTTP_parts p r g k :
  Path r = BasePath (opts p) +:+ g +:+ "/" +:+ k → "/"%char ∉ bytes g →
  ServeHTTP' p r = Some (answer' (context_of Context_ r) g k).
Proof.
  intros HP Hg. unfold ServeHTTP.
  rewrite (proj2 (HasPrefix_spec _ _)) by eauto. cbn [negb].
  rewrite HP, slice_from_app. unfold SplitN_slash_2.
  rewrite (proj2 (cut_slash_Some _ g k)) by done.
  unfold answer, context_of. destruct (GetGroup g) as [group|]; [|done].
  destruct (group_Get group _ k) as [value|err]; [|done].
  by destruct (Marshal value).
Qed.

Lemma ServeHTTP_cases p r :
  (ServeHTTP' p r = None ∧ ¬ ∃ rest, Path r = BasePath (opts p) +:+ rest) ∨
  (∃ rest, Path r = BasePath (opts p) +:+ rest ∧ ("/"%char ∉ bytes rest) ∧
           ServeHTTP' p r = Some (Error_ "bad request" StatusBadRequest, None)) ∨
  (∃ g k, Path r = BasePath (opts p) +:+ g +:+ "/" +:+ k ∧ ("/"%char ∉ bytes g) ∧
          ServeHTTP' p r = Some (answer' (context_of Context_ r) g k)).
Proof.
  destruct (HasPrefix (Path r) (BasePath (opts p))) eqn:Hpre.
  - apply HasPrefix_spec in Hpre as [rest Hrest]. right.
    destruct (cut_slash rest) as [[g k]|] eqn:Hc.
    + right. apply cut_slash_Some in Hc as [-> Hg]. exists g, k.
      split; [done|]. split; [done|]. by apply ServeHTTP_parts.
    + left. exists rest. split; [done|]. split; [by apply cut_slash_None|].
      unfold ServeHTTP. rewrite (proj2 (HasPrefix_spec _ _)) by eauto. cbn [negb].
      rewrite Hrest, slice_from_app. unfold SplitN_slash_2. by rewrite Hc.
  - left. split; [unfold ServeHTTP; by rewrite Hpre|].
    intros Hex. apply HasPrefix_spec in Hex. congruence.
Qed.

(** X9.  [ServeHTTP] panics exactly when the path does not start with
    the base path.  Otherwise it answers 400 "bad request" when the rest
    of the path has no "/", and else takes the part before the first "/"
    as the group name and all that follows, further "/" included, as the
    key: 404 for an unknown group, 500 with the text of the error when the
    lookup or the encoding fails, and else the encoded value. *)
Theorem ServeHTTP_routes (p : HTTPPool) (r : Request) :
  (ServeHTTP' p r = None ↔ ¬ ∃ rest, Path r = BasePath (opts p) +:+ rest) ∧
  (∀ rest, Path r = BasePath (opts p) +:+ rest → "/"%char ∉ bytes rest →
     ServeHTTP' p r = Some (Error_ "bad request" 400, None)) ∧
  (∀ g k, Path r = BasePath (opts p) +:+ g +:+ "/" +:+ k → "/"%char ∉ bytes g →
     ServeHTTP' p r =
       Some match GetGroup g with
            | None => (Error_ ("no such group: " +:+ g) 404, None)
            | Some group =>
                match group_Get group (context_of Context_ r) k with
                | inr err => (Error_ err 500, Some group)
                | inl value =>
                    match Marshal value with
                    | inr err => (Error_ err 500, Some group)
                    | inl body => (Written "application/x-protobuf" body, Some group)
                    end
                end
            end).
Proof.
  split; [|split].
  - destruct (ServeHTTP_cases p r)
      as [[HS Hno]|[(rest & HP & _ & HS)|(g & k & HP & _ & HS)]]; rewrite HS.
    + done.
    + split; [done|]. intros []. eauto.
    + split; [done|]. intros []. eauto.
  - intros rest HP Hrest.
    destruct (ServeHTTP_cases p r)
      as [[HS Hno]|[(rest' & HP' & _ & HS)|(g & k & HP' & _ & HS)]].
    + destruct Hno. eauto.
    + done.
    + exfalso. rewrite HP in HP'. apply (inj (String.app _)) in HP'. subst rest.
      apply Hrest. rewrite !bytes_app. apply elem_of_app. right.
      apply elem_of_app. left. rewrite bytes_cons. left.
  - intros g k HP Hg. by apply ServeHTTP_parts.
Qed.

(** X10.  What an answer of [ServeHTTP] tells: a body is written only for
    a path of base path, group name, "/" and key, when the group exists
    and both the lookup and the encoding succeed, and its content type is
    that of protocol buffers; the counter of requests served goes up for
    the group of the path exactly when the group exists, also when the
    lookup fails then; without a group the answer is the 400 or the 404. *)
Theorem ServeHTTP_answer (p : HTTPPool) (r : Request) (resp : response) (grp : option Group) :
  ServeHTTP' p r = Some (resp, grp) →
  (∀ ct body, resp = Written ct body →
     ct = "application/x-protobuf" ∧
     ∃ g k group value,
       Path r = BasePath (opts p) +:+ g +:+ "/" +:+ k ∧ ("/"%char ∉ bytes g) ∧
       GetGroup g = Some group ∧ grp = Some group ∧
       group_Get group (context_of Context_ r) k = inl value ∧
       Marshal value = inl body) ∧
  (∀ group, grp = Some group →
     ∃ g k, Path r = BasePath (opts p) +:+ g +:+ "/" +:+ k ∧ ("/"%char ∉ bytes g) ∧
            GetGroup g = Some group) ∧
  (grp = None →
     resp = Error_ "bad request" 400 ∨
     ∃ g k, Path r = BasePath (opts p) +:+ g +:+ "/" +:+ k ∧ ("/"%char ∉ bytes g) ∧
            GetGroup g = None ∧ resp = Error_ ("no such group: " +:+ g) 404).
Proof.
  intros HS.
  destruct (ServeHTTP_cases p r)
    as [[HS' Hno]|[(rest & HP & _ & HS')|(g & k & HP & Hg & HS')]];
    rewrite HS' in HS; simplify_eq.
  - split; [done|]. split; [done|]. intros _. by left.
  - unfold answer in *.
    destruct (GetGroup g) as [group|] eqn:HG.
    + destruct (group_Get group (context_of Context_ r) k) as [value|err] eqn:Hget.
      * destruct (Marshal value) as [body|err] eqn:HM; simplify_eq.
        -- split; [|split; [|done]].
           ++ intros ct body' [= <- <-]. split; [done|]. by exists g, k, group, value.
           ++ intros group' [= <-]. by exists g, k.
        -- split; [done|]. split; [|done]. intros group' [= <-]. by exists g, k.
      * simplify_eq. split; [done|]. split; [|done]. intros group' [= <-]. by exists g, k.
    + simplify_eq. split; [done|]. split; [done|]. intros _. right. by exists g, k.
Qed.

(** X11.  The URL [httpGetter.Get] requests from a peer registered by
    [Set] is the peer, the base path, the escaped group name, "/", and the
    escaped key.  An escaped name has no "/", so a pool with that base
    path, served the part from the base path on, splits it at that "/":
    it never panics on it or answers 400, and looks the escaped key up in
    the group of the escaped name; names of letters, digits and [-_.~]
    are escaped to themselves. *)
Theorem Get_url_served (p : HTTPPool) (ps : list string) (peer : string)
    (h : httpGetter) (group key : string) :
  httpGetters (Set_ p ps) !! peer = Some h →
  peer ∈ ps ∧
  Get_url h group key
  = peer +:+ BasePath (opts p) +:+ QueryEscape group +:+ "/" +:+ QueryEscape key ∧
  ("/"%char ∉ bytes (QueryEscape group)) ∧
  (∀ (q : HTTPPool) (r : Request),
     BasePath (opts q) = BasePath (opts p) →
     Path r = BasePath (opts p) +:+ QueryEscape group +:+ "/" +:+ QueryEscape key →
     ServeHTTP' q r
     = Some (answer' (context_of Context_ r) (QueryEscape group) (QueryEscape key))) ∧
  (Forall unreserved (bytes group) → QueryEscape group = group) ∧
  (Forall unreserved (bytes key) → QueryEscape key = key).
Proof.
  intros Hh. cbn [httpGetters Set_] in Hh. rewrite Set_getters in Hh.
  destruct (decide (peer ∈ ps)) as [Hin|Hnin]; [|by rewrite lookup_empty in Hh].
  simplify_eq. split; [done|]. split; [|split; [|split; [|split]]].
  - unfold Get_url. cbn [baseURL]. by rewrite append_assoc.
  - apply QueryEscape_no_slash.
  - intros q r Hq HP. apply ServeHTTP_parts; [by rewrite Hq|].
    apply QueryEscape_no_slash.
  - apply QueryEscape_unreserved.
  - apply QueryEscape_unreserved.
Qed.

End serve.

End http_theory.

Section http_examples.
Import groupcache groupcache_http.

Lemma ServeHTTP_answer_witness :
  ServeHTTP (λ name, if decide (name = "g") then Some tt else None)
            (λ _ _ k, inl k) inl None
            (NewHTTPPoolOpts "http://a:80" None) (mkRequest "/_groupcache/g/a/b" tt)
  = Some (Written "application/x-protobuf" "a/b", Some tt) ∧
  ∃ g k, "/_groupcache/g/a/b" = "/_groupcache/" +:+ g +:+ "/" +:+ k ∧
         ("/"%char ∉ bytes g) ∧ (if decide (g = "g") then Some tt else None) = Some tt.
Proof.
  assert (ServeHTTP (λ name, if decide (name = "g") then Some tt else None)
            (λ _ _ k, inl k) inl None
            (NewHTTPPoolOpts "http://a:80" None) (mkRequest "/_groupcache/g/a/b" tt)
          = Some (Written (Bytes:=string) "application/x-protobuf" "a/b", Some tt)) as HS
    by (vm_compute; reflexivity).
  split; [exact HS|].
  destruct (ServeHTTP_answer _ _ _ _ _ _ _ _ HS) as (_ & Hgrp & _).
  exact (Hgrp tt eq_refl).
Defined.

Lemma Get_url_served_witness :
  httpGetters (Set_ (NewHTTPPoolOpts "http://a:80" None) ["http://b:80"]) !! "http://b:80"
  = Some (mkGetter "http://b:80/_groupcache/") ∧
  Get_url (mkGetter "http://b:80/_groupcache/") "my group" "a/b"
  = "http://b:80/_groupcache/my+group/a%2Fb" ∧
  ServeHTTP (λ name, if decide (name = "my+group") then Some tt else None)
            (λ _ _ k, inl k) inl None
            (NewHTTPPoolOpts "http://b:80" None)
            (mkRequest "/_groupcache/my+group/a%2Fb" tt)
  = Some (Written "application/x-protobuf" "a%2Fb", Some tt).
Proof.
  assert (httpGetters (Set_ (NewHTTPPoolOpts "http://a:80" None) ["http://b:80"])
            !! "http://b:80" = Some (mkGetter "http://b:80/_groupcache/")) as Hh
    by (vm_compute; reflexivity).
  split; [exact Hh|].
  destruct (Get_url_served (λ name, if decide (name = "my+group") then Some tt else None)
              (λ (_ : unit) (_ : unit) (k : string), inl k) inl None
              _ _ _ _ "my group" "a/b" Hh) as (_ & Hurl & _ & Hserve & _).
  split; [rewrite Hurl; vm_compute; reflexivity|].
  rewrite (Hserve (NewHTTPPoolOpts "http://b:80" None)
             (mkRequest "/_groupcache/my+group/a%2Fb" tt) eq_refl eq_refl).
  vm_compute. reflexivity.
Defined.

End http_examples.

(** * More on the LRU cache *)

Section lru_more.
Import lru.
Context {K : Type} `{Countable K} `{Comparable K} {V E : Type}.
Implicit Types (c : Cache K V E) (k : K) (v : V).

(** [Get] of the key of the first entry. *)
Lemma Get_front c k v rest :
  wf c → entries c = (k, v) :: rest →
  (self_equal k → ∃ c', Get c k = Some (c', Some v) ∧ entries c' = entries c) ∧
  (¬ self_equal k → Get c k = Some (c, None)).
Proof.
  intros Hwf Hes. pose proof (wf_entries_once c Hwf) as Ho.
  rewrite Hes, fmap_cons in Ho. apply once_cons in Ho as [_ Hk]. simpl in Hk.
  destruct (Get_spec c k Hwf)
    as [[Hnin HG]|(v0 & c' & Hin & HG & _ & _ & _ & _ & Hes' & Hself)].
  - split; [|done]. intros Hself. destruct Hnin. split; [done|].
    rewrite Hes, fmap_cons. left.
  - split; [|done]. intros _.
    assert (v0 = v) as ->.
    { rewrite Hes in Hin. apply elem_of_cons in Hin as [?|Hin]; [congruence|].
      destruct (Hk Hself). apply list_elem_of_fmap. by exists (k, v0). }
    exists c'. split; [done|]. rewrite Hes', Hes. unfold touch.
    rewrite filter_cons, decide_False by (by intros ?).
    by rewrite filter_key_notin by auto.
Qed.

(** X12.  No operation on a cache a program can hold panics: [Add], [Get],
    [Remove], [RemoveOldest], [Len] and [Clear] all return. *)
Theorem lru_never_panics c k v :
  built c →
  is_Some (Add c k v) ∧ is_Some (Get c k) ∧ is_Some (Remove c k) ∧
  is_Some (RemoveOldest c) ∧ is_Some (Len c) ∧ is_Some (Clear c).
Proof.
  intros Hb. pose proof (built_wf c Hb) as Hwf. repeat split.
  - destruct (Add_spec c k v Hwf) as (c' & _ & _ & _ & _ & _ & ->). eauto.
  - destruct (Get_spec c k Hwf) as [[_ ->]|(v0 & c' & _ & -> & _)]; eauto.
  - destruct (Remove_spec c k Hwf) as [[_ ->]|(v0 & c' & _ & -> & _)]; eauto.
  - destruct (RemoveOldest_spec c Hwf) as (c' & _ & _ & _ & _ & _ & _ & ->). eauto.
  - rewrite (Len_spec c Hwf). eauto.
  - destruct (Clear_spec c Hwf) as (evs & -> & _). eauto.
Qed.

(** X13.  The map and the list agree on the keys that are equal to
    themselves: on a cache whose map is set, a lookup finds exactly the
    keys of such entries of the list, no such key is in the list twice,
    and the map has as many bindings under such keys as the list has such
    entries.  [Len] is the length of the list; where every key in the
    list is equal to itself, no key is there twice and that is the
    number of these bindings. *)
Theorem lru_map_list_agree c (m : keymap K V) :
  built c → cache c = Some m →
  (∀ k, is_Some (m !! k) ↔ present k (entries c)) ∧
  once (entries c).*1 ∧
  size (found m) = length (filter (λ kv, self_equal kv.1) (entries c)) ∧
  Len c = Some (Z.of_nat (length (entries c))) ∧
  ((∀ k, k ∈ (entries c).*1 → self_equal k) →
   NoDup (entries c).*1 ∧ size (found m) = length (entries c) ∧
   Len c = Some (Z.of_nat (size (found m)))).
Proof.
  intros Hb Hm. pose proof (built_wf c Hb) as Hwf.
  destruct (wf_cases c Hwf) as [[Hm' _]|(m' & l & Hm' & Hl)]; [congruence|].
  assert (m' = m) as -> by congruence.
  pose proof (wf_entries_once c Hwf) as Ho.
  assert (size (found m) = length (filter (λ kv, self_equal kv.1) (entries c))) as Hsize.
  { rewrite <- (length_map_to_list (found m)).
    rewrite (wf_map_to_list c m l Hm Hl Hwf), length_fmap.
    rewrite (wf_entries c l Hl), (filter_fmap ent (λ kv, self_equal kv.1) l).
    by rewrite length_fmap. }
  split; [|split; [done|split; [done|split; [by apply Len_spec|]]]].
  - intros k. symmetry. apply (wf_lookup_iff c m l Hm Hl Hwf).
  - intros Hall.
    assert (filter (λ kv, self_equal kv.1) (entries c) = entries c) as Hf.
    { clear Hsize Ho. induction (entries c) as [|x es IH]; [done|].
      rewrite filter_cons, decide_True by (apply Hall; rewrite fmap_cons; left).
      f_equal. apply IH. intros k Hk. apply Hall. rewrite fmap_cons. by right. }
    rewrite Hf in Hsize. split; [by apply once_NoDup|]. split; [done|].
    by rewrite (Len_spec c Hwf), Hsize.
Qed.

(** X14.  [Add] then [Get] of the same key, a key that is equal to
    itself, returns the value added, and that [Get] leaves the order as
    it is.  There are two exceptions: the first [Add] to an empty cache
    with a negative [MaxEntries] evicts the entry it has just added; and
    a key that is not equal to itself is added but never found. *)
Theorem Add_then_Get c k v :
  built c →
  ∃ c' evs,
    Add c k v = Some (c', evs) ∧
    ((MaxEntries c < 0 ∧ entries c = [] ∧
      entries c' = [] ∧ evs = fired c (k, v) ∧ Get c' k = Some (c', None)) ∨
     (¬ (MaxEntries c < 0 ∧ entries c = []) ∧
      ∃ rest, entries c' = (k, v) :: rest ∧
              (self_equal k →
               ∃ c'', Get c' k = Some (c'', Some v) ∧ entries c'' = entries c') ∧
              (¬ self_equal k → Get c' k = Some (c', None)))).
Proof.
  intros Hb. pose proof (built_wf c Hb) as Hwf.
  destruct (Add_spec c k v Hwf) as (c' & Hwf' & _ & _ & _ & Hes & Hadd).
  exists c', ((add_entries (MaxEntries c) k v (entries c)).2 ≫= fired c).
  split; [done|]. unfold add_entries in *.
  assert (∀ rest, entries c' = (k, v) :: rest →
            ∃ rest, entries c' = (k, v) :: rest ∧
              (self_equal k →
               ∃ c'', Get c' k = Some (c'', Some v) ∧ entries c'' = entries c') ∧
              (¬ self_equal k → Get c' k = Some (c', None))) as Hhit.
  { intros rest Hrest. exists rest. split; [done|]. by eapply Get_front. }
  destruct (decide (present k (entries c))) as [Hin|Hnin]; cbn [fst snd] in *.
  - right. split.
    + intros [_ Hnil]. rewrite Hnil in Hin. by apply nil_not_present in Hin.
    + by eapply Hhit.
  - destruct (decide (MaxEntries c ≠ 0 ∧
                      MaxEntries c < Z.of_nat (length ((k, v) :: entries c))))
      as [[HM0 Hov]|Hno]; cbn [fst snd] in *.
    + destruct (entries c) as [|x es] eqn:Hc.
      * left. cbn in Hov. split; [lia|]. split; [done|]. split; [done|].
        split; [cbn; by rewrite app_nil_r|].
        destruct (Get_spec c' k Hwf') as [[_ HG]|(v0 & c'' & Hin' & _)]; [done|].
        rewrite Hes in Hin'. by apply elem_of_nil in Hin'.
      * right. split; [by intros [_ ?]|].
        apply (Hhit (take (length es) (x :: es))). by rewrite Hes.
    + right. split.
      * intros [HM Hnil]. apply Hno. rewrite Hnil. cbn. lia.
      * by eapply Hhit.
Qed.

(** X15.  [Get] of a key the cache does not hold, or of a key that is not
    equal to itself, changes nothing; a hit returns the value stored
    under the key and moves the entry to the front, keeping the other
    entries in their order, the length, the map, the bound and the
    callback. *)
Theorem Get_frame c k c' (r : option V) :
  built c → Get c k = Some (c', r) →
  (r = None ↔ ¬ present k (entries c)) ∧
  (r = None → c' = c) ∧
  (∀ v, r = Some v →
     (k, v) ∈ entries c ∧
     entries c' = (k, v) :: filter (λ kv, kv.1 ≠ k) (entries c) ∧
     entries c' ≡ₚ entries c ∧
     cache c' = cache c ∧ Len c' = Len c ∧
     MaxEntries c' = MaxEntries c ∧ OnEvicted c' = OnEvicted c ∧
     self_equal k).
Proof.
  intros Hb HG. pose proof (built_wf c Hb) as Hwf.
  destruct (Get_spec c k Hwf)
    as [[Hnin HG']|(v0 & c'' & Hin & HG' & Hwf' & HM & HO & Hm & Hes & Hself)];
    rewrite HG' in HG; simplify_eq.
  - split; [done|]. split; [done|]. by intros v [=].
  - assert (present k (entries c)) as Hk.
    { split; [done|]. apply list_elem_of_fmap. by exists (k, v0). }
    split; [split; [done|by intros ?]|]. split; [done|].
    intros v [= <-]. split; [done|]. split; [done|].
    assert (entries c' ≡ₚ entries c) as Hp.
    { rewrite Hes. unfold touch.
      rewrite <- (filter_key_Permutation k v0 (entries c)) at 2;
        [|by apply wf_entries_once|done|done].
      by rewrite Permutation_app_comm. }
    split; [done|]. split; [done|]. split; [|done].
    rewrite (Len_spec c Hwf), (Len_spec c' Hwf'). by rewrite Hp.
Qed.

(** X16.  After [Remove] of a key, [Get] of it misses; the entries under
    keys that are not [==] to it stay, in their order; the length goes
    down by one if the key was there and stays otherwise.  [Remove] of a
    key that is not equal to itself changes nothing. *)
Theorem Remove_then_Get c k c' (evs : list E) :
  built c → Remove c k = Some (c', evs) →
  Get c' k = Some (c', None) ∧
  entries c' = filter (λ kv, ¬ equal kv.1 k) (entries c) ∧
  (∀ k' v', k' ≠ k → (k', v') ∈ entries c' ↔ (k', v') ∈ entries c) ∧
  length (entries c') =
    (if decide (present k (entries c))
     then length (entries c) - 1 else length (entries c))%nat ∧
  (¬ self_equal k → c' = c ∧ evs = []).
Proof.
  intros Hb HR. pose proof (built_wf c Hb) as Hwf.
  assert (wf c' ∧ entries c' = filter (λ kv, ¬ equal kv.1 k) (entries c) ∧
          (¬ self_equal k → c' = c ∧ evs = [])) as (Hwf' & Hes & Hns).
  { destruct (Remove_spec c k Hwf)
      as [[Hnin HR']|(v0 & c'' & Hin & HR' & Hwf' & _ & _ & _ & Hes & Hself)];
      rewrite HR' in HR; simplify_eq.
    - split; [done|]. split; [|done].
      destruct (decide (self_equal k)) as [Hself|Hself].
      + rewrite filter_equal_self, filter_key_notin; [done| |done].
        intros ?. by apply Hnin.
      + by rewrite filter_equal_not_self.
    - split; [done|]. split; [by rewrite filter_equal_self|]. by intros ?. }
  assert (¬ present k (entries c')) as Hnin.
  { rewrite Hes. intros [Hself Hin].
    apply list_elem_of_fmap in Hin as (y & -> & Hy).
    apply list_elem_of_filter in Hy as [Hne _]. apply Hne.
    by apply equal_spec. }
  split; [|split; [done|split; [|split; [|done]]]].
  - destruct (Get_spec c' k Hwf') as [[_ HG]|(v0 & c'' & Hin & _ & _ & _ & _ & _ & _ & Hself)];
      [done|].
    destruct Hnin. split; [done|]. apply list_elem_of_fmap. by exists (k, v0).
  - intros k' v' Hne. rewrite Hes, list_elem_of_filter. simpl.
    rewrite equal_spec. split; [by intros [_ ?]|]. intros ?. split; [|done].
    by intros [? _].
  - rewrite Hes. destruct (decide (present k (entries c))) as [Hin|Hnin'].
    + rewrite filter_equal_self by apply Hin.
      pose proof (filter_key_length k (entries c) (wf_entries_once c Hwf) Hin). lia.
    + destruct (decide (self_equal k)) as [Hself|Hself].
      * rewrite filter_equal_self, filter_key_notin; [done| |done].
        intros ?. by apply Hnin'.
      * by rewrite filter_equal_not_self.
Qed.

(** X17.  With [MaxEntries] 0 there is no limit: [Add] never evicts and
    never calls the callback, and the cache holds every key added. *)
Theorem Add_unbounded c k v :
  built c → MaxEntries c = 0 →
  ∃ c', Add c k v = Some (c', []) ∧
        entries c' = (k, v) :: filter (λ kv, ¬ equal kv.1 k) (entries c) ∧
        (∀ k', k' ∈ (entries c).*1 → k' ∈ (entries c').*1) ∧
        MaxEntries c' = 0.
Proof.
  intros Hb HM. pose proof (built_wf c Hb) as Hwf.
  destruct (Add_spec c k v Hwf) as (c' & _ & HM' & _ & _ & Hes & Hadd).
  exists c'. unfold add_entries in *. rewrite HM in *.
  assert (entries c' = (k, v) :: filter (λ kv, ¬ equal kv.1 k) (entries c) ∧
          Add c k v = Some (c', [])) as [Hes' Hadd'].
  { destruct (decide (present k (entries c))) as [Hin|Hnin]; cbn [fst snd] in *.
    - split; [|done]. rewrite Hes. unfold touch. by rewrite filter_equal_self by apply Hin.
    - rewrite decide_False in Hes, Hadd by (intros [? _]; done).
      cbn [fst snd] in *. split; [|done]. rewrite Hes. f_equal.
      destruct (decide (self_equal k)) as [Hself|Hself].
      + rewrite filter_equal_self, filter_key_notin; [done| |done].
        intros ?. by apply Hnin.
      + by rewrite filter_equal_not_self. }
  split; [done|]. split; [done|]. split; [|congruence].
  intros k' Hk'. rewrite Hes', fmap_cons. cbn.
  destruct (decide (k' = k)) as [->|Hne]; [left|right].
  apply list_elem_of_fmap in Hk' as ([k0 v0] & -> & Hin).
  apply list_elem_of_fmap. exists (k0, v0). split; [done|].
  apply list_elem_of_filter. split; [|done]. simpl. rewrite equal_spec.
  by intros [? _].
Qed.

(** X18.  Once the length is within a positive [MaxEntries], every
    operation keeps it there. *)
Theorem bound_kept_by_operations c :
  built c → 0 < MaxEntries c → Z.of_nat (length (entries c)) ≤ MaxEntries c →
  (∀ k v c' evs, Add c k v = Some (c', evs) →
     Z.of_nat (length (entries c')) ≤ MaxEntries c' ∧ MaxEntries c' = MaxEntries c) ∧
  (∀ k c' r, Get c k = Some (c', r) →
     Z.of_nat (length (entries c')) ≤ MaxEntries c' ∧ MaxEntries c' = MaxEntries c) ∧
  (∀ k c' evs, Remove c k = Some (c', evs) →
     Z.of_nat (length (entries c')) ≤ MaxEntries c' ∧ MaxEntries c' = MaxEntries c) ∧
  (∀ c' evs, RemoveOldest c = Some (c', evs) →
     Z.of_nat (length (entries c')) ≤ MaxEntries c' ∧ MaxEntries c' = MaxEntries c) ∧
  (∀ c' evs, Clear c = Some (c', evs) →
     Z.of_nat (length (entries c')) ≤ MaxEntries c' ∧ MaxEntries c' = MaxEntries c).
Proof.
  intros Hb HM Hle. pose proof (built_wf c Hb) as Hwf.
  pose proof (wf_entries_once c Hwf) as Ho.
  split; [|split; [|split; [|split]]].
  - intros k v c' evs Hop.
    destruct (Add_spec c k v Hwf) as (c'' & _ & HM' & _ & _ & Hes & Hadd).
    rewrite Hadd in Hop. simplify_eq. split; [|done].
    rewrite HM', Hes. by apply add_entries_bound.
  - intros k c' r Hop.
    destruct (Get_spec c k Hwf)
      as [[_ HG]|(v0 & c'' & Hin & HG & _ & HM' & _ & _ & Hes & Hself)];
      rewrite HG in Hop; simplify_eq; [done|]. split; [|done].
    rewrite HM', Hes. unfold touch. cbn [length].
    assert (present k (entries c)) as Hk.
    { split; [done|]. apply list_elem_of_fmap. by exists (k, v0). }
    pose proof (filter_key_length k (entries c) Ho Hk). lia.
  - intros k c' evs Hop.
    destruct (Remove_spec c k Hwf)
      as [[_ HR]|(v0 & c'' & Hin & HR & _ & HM' & _ & _ & Hes & _)];
      rewrite HR in Hop; simplify_eq; [done|]. split; [|done].
    rewrite HM', Hes.
    pose proof (length_filter (λ kv : K * V, kv.1 ≠ k) (entries c)). lia.
  - intros c' evs Hop.
    destruct (RemoveOldest_spec c Hwf) as (c'' & _ & HM' & _ & _ & Hes & _ & HR).
    rewrite HR in Hop. simplify_eq. split; [|done].
    rewrite HM', Hes, length_take. lia.
  - intros c' evs Hop.
    destruct (Clear_spec c Hwf) as (evs' & HC & _). rewrite HC in Hop. simplify_eq.
    split; [|done]. unfold entries. cbn. lia.
Qed.

(** X19.  A [Get] protects the entry from the next eviction: after a hit
    on a cache of two entries or more, [RemoveOldest] removes another
    entry, the last of the others, and the entry read stays in front. *)
Theorem Get_protects c k v c' :
  built c → Get c k = Some (c', Some v) → (2 ≤ length (entries c))%nat →
  ∃ c'' evs others x,
    filter (λ kv, kv.1 ≠ k) (entries c) = others ++ [x] ∧
    RemoveOldest c' = Some (c'', evs) ∧
    evs = fired c x ∧
    entries c'' = (k, v) :: others.
Proof.
  intros Hb HG Hlen. pose proof (built_wf c Hb) as Hwf.
  pose proof (wf_entries_once c Hwf) as Ho.
  destruct (Get_spec c k Hwf)
    as [[_ HG']|(v0 & c1 & Hin & HG' & Hwf' & _ & HO & _ & Hes & Hself)];
    rewrite HG' in HG; simplify_eq.
  assert (present k (entries c)) as Hk.
  { split; [done|]. apply list_elem_of_fmap. by exists (k, v). }
  pose proof (filter_key_length k (entries c) Ho Hk) as Hfl.
  destruct (filter (λ kv, kv.1 ≠ k) (entries c)) as [|y ys] eqn:Hf using rev_ind;
    [cbn in Hfl; lia|]. clear IHys.
  destruct (RemoveOldest_spec c' Hwf') as (c'' & _ & _ & _ & _ & Hes'' & _ & HR).
  exists c'', (fired c y), ys, y. split; [done|].
  rewrite Hes in Hes'', HR. unfold touch in Hes'', HR. rewrite Hf in Hes'', HR.
  cbn [length] in Hes'', HR. rewrite length_app in Hes'', HR. cbn [length] in Hes'', HR.
  replace (S (length ys + 1) - 1)%nat with (S (length ys)) in Hes'', HR by lia.
  rewrite firstn_cons, take_app_length in Hes''.
  rewrite skipn_cons, drop_app_length in HR. cbn in HR. rewrite app_nil_r in HR.
  split; [|split; [|done]].
  - rewrite HR. f_equal. f_equal. unfold fired. by rewrite HO.
  - done.
Qed.

(** X20.  A cache made with a negative [MaxEntries] never holds an entry:
    every [Add] evicts the entry it adds and calls the callback on it. *)
Theorem Adds_negative (M : Z) (f : option (K → V → E)) (kvs : list (K * V)) :
  M < 0 →
  ∃ c, Adds (with_OnEvicted (New M) f) kvs
       = Some (c, kvs ≫= fired (with_OnEvicted (New M) f)) ∧
       entries c = [] ∧ Len c = Some 0.
Proof.
  intros HM.
  assert (∀ c, wf c → MaxEntries c = M → entries c = [] →
            ∃ c', Adds c kvs = Some (c', kvs ≫= fired c) ∧ wf c' ∧ entries c' = [])
    as Hgen.
  { induction kvs as [|[k v] kvs IH]; intros c Hwf HMc Hes.
    - exists c. done.
    - destruct (Add_spec c k v Hwf) as (c1 & Hwf1 & HM1 & HO1 & _ & Hes1 & Hadd).
      unfold add_entries in Hes1, Hadd. rewrite Hes in Hes1, Hadd.
      rewrite decide_False in Hes1, Hadd by apply nil_not_present.
      rewrite decide_True in Hes1, Hadd by (cbn; lia).
      cbn in Hes1, Hadd. rewrite app_nil_r in Hadd.
      destruct (IH c1 Hwf1 ltac:(congruence) Hes1) as (c' & Hadds & Hwf' & Hes').
      exists c'. cbn [Adds]. rewrite Hadd. cbn. rewrite Hadds. cbn.
      split; [|done]. do 2 f_equal.
      assert (fired c1 = fired c) as ->; [|done].
      unfold fired. by rewrite HO1. }
  destruct (Hgen (with_OnEvicted (New M) f)) as (c' & Hadds & Hwf' & Hes').
  - exact (wf_New M).
  - done.
  - done.
  - exists c'. split; [done|]. split; [done|].
    rewrite (Len_spec c' Hwf'), Hes'. done.
Qed.

(** X26.  A key that is not equal to itself is never found: [Get] of it
    misses and [Remove] of it removes nothing, whatever the cache holds;
    [Add] of it puts a new entry in front each time, leaving the others,
    also those under the same key, but for the last one when the cache is
    over its bound. *)
Theorem unequal_key_never_found c k v :
  built c → ¬ self_equal k →
  Get c k = Some (c, None) ∧
  Remove c k = Some (c, []) ∧
  ∃ c' gone,
    Add c k v = Some (c', gone ≫= fired c) ∧
    entries c' ++ gone = (k, v) :: entries c ∧
    (length gone ≤ 1)%nat ∧
    Get c' k = Some (c', None).
Proof.
  intros Hb Hns. pose proof (built_wf c Hb) as Hwf.
  split; [|split].
  - by destruct (Get_spec c k Hwf) as [[_ HG]|(? & ? & _ & _ & _ & _ & _ & _ & _ & ?)].
  - by destruct (Remove_spec c k Hwf) as [[_ HR]|(? & ? & _ & _ & _ & _ & _ & _ & _ & ?)].
  - destruct (Add_spec c k v Hwf) as (c' & Hwf' & _ & _ & _ & Hes & Hadd).
    exists c', (add_entries (MaxEntries c) k v (entries c)).2.
    split; [done|]. rewrite Hes. unfold add_entries.
    rewrite decide_False by (by intros [? _]).
    split; [|split].
    + destruct (decide _); cbn [fst snd]; [by rewrite take_drop|by rewrite app_nil_r].
    + destruct (decide _); cbn [fst snd length]; [|lia].
      rewrite length_drop. cbn [length]. lia.
    + by destruct (Get_spec c' k Hwf') as [[_ HG]|(? & ? & _ & _ & _ & _ & _ & _ & _ & ?)].
Qed.

End lru_more.

Section lru_more_examples.
Import lru.

Lemma lru_never_panics_witness :
  built lru_over ∧
  is_Some (Add lru_over "D" 4) ∧ is_Some (Get lru_over "D") ∧
  is_Some (Remove lru_over "D") ∧ is_Some (RemoveOldest lru_over) ∧
  is_Some (Len lru_over) ∧ is_Some (Clear lru_over).
Proof.
  split; [exact lru_over_built|].
  exact (lru_never_panics lru_over "D" 4 lru_over_built).
Defined.

Lemma lru_map_list_agree_witness :
  built lru_over ∧
  ∃ m, cache lru_over = Some m ∧ size (found m) = length (entries lru_over) ∧
       Len lru_over = Some (Z.of_nat (size (found m))).
Proof.
  split; [exact lru_over_built|].
  assert (∃ m, cache lru_over = Some m) as [m Hm] by (eexists; reflexivity).
  exists m. split; [exact Hm|].
  destruct (lru_map_list_agree lru_over m lru_over_built Hm) as (_ & _ & _ & _ & Hall).
  destruct (Hall (λ _ _, I)) as (_ & Hsize & Hlen).
  split; [exact Hsize|exact Hlen].
Defined.

Lemma Add_then_Get_witness :
  built lru_over ∧
  ∃ c' evs c'', Add lru_over "D" 4 = Some (c', evs) ∧ Get c' "D" = Some (c'', Some 4).
Proof.
  split; [exact lru_over_built|].
  destruct (Add_then_Get lru_over "D" 4 lru_over_built)
    as (c' & evs & Hadd & [(HM & _)|(_ & rest & _ & Hfound & _)]).
  - exfalso. revert HM. vm_compute. discriminate.
  - destruct (Hfound I) as (c'' & HG & _).
    exists c', evs, c''. split; [exact Hadd|exact HG].
Defined.

Lemma Get_frame_witness :
  built lru_over ∧
  ∃ c', Get lru_over "B" = Some (c', Some 2) ∧
        entries c' = [("B", 2); ("C", 3); ("A", 1)].
Proof.
  split; [exact lru_over_built|].
  assert (∃ c', Get lru_over "B" = Some (c', Some 2)) as [c' HG]
    by (eexists; vm_compute; reflexivity).
  exists c'. split; [exact HG|].
  destruct (Get_frame lru_over "B" c' (Some 2) lru_over_built HG) as (_ & _ & Hhit).
  destruct (Hhit 2 eq_refl) as (_ & Hes & _). rewrite Hes. vm_compute. reflexivity.
Defined.

Lemma Remove_then_Get_witness :
  built lru_over ∧
  ∃ c' evs, Remove lru_over "B" = Some (c', evs) ∧ Get c' "B" = Some (c', None) ∧
            entries c' = [("C", 3); ("A", 1)].
Proof.
  split; [exact lru_over_built|].
  assert (∃ c' evs, Remove lru_over "B" = Some (c', evs)) as (c' & evs & HR)
    by (eexists _, _; vm_compute; reflexivity).
  exists c', evs. split; [exact HR|].
  destruct (Remove_then_Get lru_over "B" c' evs lru_over_built HR) as (HG & Hes & _).
  split; [exact HG|]. rewrite Hes. vm_compute. reflexivity.
Defined.

Lemma Add_unbounded_witness :
  built (with_MaxEntries lru_over 0) ∧
  MaxEntries (with_MaxEntries lru_over 0) = 0 ∧
  ∃ c', Add (with_MaxEntries lru_over 0) "D" 4 = Some (c', []) ∧
        entries c' = [("D", 4); ("C", 3); ("B", 2); ("A", 1)].
Proof.
  assert (built (with_MaxEntries lru_over 0)) as Hb
    by (apply built_MaxEntries, lru_over_built).
  split; [exact Hb|]. split; [reflexivity|].
  destruct (Add_unbounded _ "D" 4 Hb eq_refl) as (c' & Hadd & Hes & _).
  exists c'. split; [exact Hadd|]. rewrite Hes. vm_compute. reflexivity.
Defined.

Lemma bound_kept_by_operations_witness :
  built lru_full ∧ 0 < MaxEntries lru_full ∧
  Z.of_nat (length (entries lru_full)) = MaxEntries lru_full ∧
  ∀ k v c' evs, Add lru_full k v = Some (c', evs) →
    Z.of_nat (length (entries c')) ≤ MaxEntries c'.
Proof.
  assert (built lru_full) as Hb.
  { eapply (Adds_built lru_two abc _ [("A", 1)]).
    - apply built_OnEvicted, built_New.
    - vm_compute. reflexivity. }
  assert (0 < MaxEntries lru_full) as HM by reflexivity.
  assert (Z.of_nat (length (entries lru_full)) = MaxEntries lru_full) as Hfull
    by reflexivity.
  assert (Z.of_nat (length (entries lru_full)) ≤ MaxEntries lru_full) as Hle
    by (rewrite Hfull; reflexivity).
  split; [exact Hb|]. split; [exact HM|]. split; [exact Hfull|].
  destruct (bound_kept_by_operations lru_full Hb HM Hle) as (Hadd & _).
  intros k v c' evs Hop. exact (proj1 (Hadd k v c' evs Hop)).
Defined.

Lemma Get_protects_witness :
  built lru_over ∧
  ∃ c' c'' evs, Get lru_over "A" = Some (c', Some 1) ∧
                RemoveOldest c' = Some (c'', evs) ∧
                entries c'' = [("A", 1); ("C", 3)].
Proof.
  split; [exact lru_over_built|].
  assert (∃ c', Get lru_over "A" = Some (c', Some 1)) as [c' HG]
    by (eexists; vm_compute; reflexivity).
  assert (2 ≤ length (entries lru_over))%nat as Hlen by (vm_compute; lia).
  destruct (Get_protects lru_over "A" 1 c' lru_over_built HG Hlen)
    as (c'' & evs & others & x & Hf & HR & _ & Hes).
  exists c', c'', evs. split; [exact HG|]. split; [exact HR|].
  rewrite Hes. f_equal.
  assert (filter (λ kv : string * Z, kv.1 ≠ "A") (entries lru_over)
          = [("C", 3)] ++ [("B", 2)]) as Hf' by (vm_compute; reflexivity).
  rewrite Hf' in Hf. by apply app_inj_tail in Hf as [<- _].
Defined.

Lemma Adds_negative_witness :
  ∃ c, Adds (with_OnEvicted (New (-1)) (Some pair)) abc
       = Some (c, abc ≫= fired (with_OnEvicted (New (-1)) (Some pair))) ∧
       entries c = [] ∧ Len c = Some 0.
Proof. exact (Adds_negative (-1) (Some pair) abc eq_refl). Defined.

Lemma unequal_key_never_found_witness :
  built (New 2 : Cache float_key Z unit) ∧ ¬ self_equal NaN ∧
  ∃ c' gone, Add (New 2 : Cache float_key Z unit) NaN 1 = Some (c', gone ≫= fired (New 2)) ∧
             entries c' ++ gone = [(NaN, 1)] ∧
             Get c' NaN = Some (c', None).
Proof.
  assert (¬ self_equal NaN) as Hns by (intros []).
  split; [apply built_New|]. split; [exact Hns|].
  destruct (unequal_key_never_found (New 2 : Cache float_key Z unit) NaN 1
              (built_New 2) Hns) as (_ & _ & c' & gone & Hadd & Hes & _ & HG).
  exists c', gone. split; [exact Hadd|]. split; [exact Hes|exact HG].
Defined.

End lru_more_examples.

(** * More on singleflight *)

Section sf_more.
Import singleflight.
Local Open Scope nat_scope.
Context {V Err : Type}.
Abbreviation goroutine := (goroutine V Err).
Abbreviation state := (state V Err).
Implicit Types (s : state) (g : goroutine) (t : nat).

Lemma sum_list_with_insert {A} (f : A → nat) (l : list A) i x y :
  l !! i = Some x →
  sum_list_with f (<[i := y]> l) + f x = sum_list_with f l + f y.
Proof.
  revert i. induction l as [|a l IH]; intros i Hi; [done|].
  destruct i as [|i]; simpl in *.
  - simplify_eq. lia.
  - specialize (IH i Hi). lia.
Qed.

Lemma sum_list_with_le {A} (f : A → nat) (l : list A) n :
  (∀ x, x ∈ l → f x ≤ n) → sum_list_with f l ≤ n * length l.
Proof.
  induction l as [|a l IH]; intros Hn; simpl; [lia|].
  specialize (Hn a (list_elem_of_here _ _)) as Ha.
  assert (sum_list_with f l ≤ n * length l); [|lia].
  apply IH. intros x Hx. apply Hn. by right.
Qed.

Lemma sum_list_with_const {A} (f : A → nat) (l : list A) n :
  Forall (λ x, f x = n) l → sum_list_with f l = n * length l.
Proof. induction 1; simpl; lia. Qed.

Ltac trans_sum f Hg :=
  match goal with
  | |- context [<[?t := ?g']> (gs ?s)] =>
      let Hs := fresh "Hs" in
      pose proof (sum_list_with_insert f (gs s) t _ g' Hg) as Hs;
      cbn [goto set_c set_inv set_ret at_pc] in Hs;
      match goal with H : at_pc _ = _ |- _ => rewrite H in Hs end;
      simpl in Hs
  end.

(** Every step takes the goroutine that moves nearer to its return. *)
Lemma step_potential s t s' : step s t = Some s' → potential s' < potential s.
Proof.
  intros (g & Hg & Ht)%step_trans. unfold potential.
  destruct Ht; cbn [gs]; trans_sum (λ g : goroutine, rank (at_pc g)) Hg; lia.
Qed.

Lemma run_potential s sched s' :
  run s sched = Some s' → length sched + potential s' ≤ potential s.
Proof.
  revert s. induction sched as [|t sched IH]; intros s Hrun; simpl in Hrun.
  - simplify_eq. simpl. lia.
  - destruct (step s t) as [s1|] eqn:Hs; [|done]. simpl in Hrun.
    pose proof (step_potential s t s1 Hs). specialize (IH s1 Hrun). simpl. lia.
Qed.

Lemma fresh_potential (cs : list goroutine) :
  fresh cs → potential (init cs) = 11 * length cs.
Proof.
  intros Hf. unfold potential. cbn [gs init]. apply sum_list_with_const.
  eapply Forall_impl; [exact Hf|]. intros g (-> & _). done.
Qed.

(** A step keeps: the calls counted are the goroutines that have entered
    [fn]. *)
Lemma step_entered s t s' :
  step s t = Some s' → calls s = entered s → calls s' = entered s'.
Proof.
  intros (g & Hg & Ht)%step_trans. unfold entered.
  destruct Ht; cbn [gs calls];
    trans_sum (λ g : goroutine, if called (at_pc g) then 1 else 0) Hg; lia.
Qed.

Lemma run_entered s sched s' :
  run s sched = Some s' → calls s = entered s → calls s' = entered s'.
Proof.
  revert s. induction sched as [|t sched IH]; intros s Hrun Hc; simpl in Hrun.
  - by simplify_eq.
  - destruct (step s t) as [s1|] eqn:Hs; [|done]. simpl in Hrun.
    eapply IH; [done|]. by eapply step_entered.
Qed.

Lemma fresh_entered (cs : list goroutine) : fresh cs → entered (init cs) = 0.
Proof.
  intros Hf. unfold entered. cbn [gs init].
  rewrite (sum_list_with_const _ cs 0); [done|].
  eapply Forall_impl; [exact Hf|]. intros g (-> & _). done.
Qed.

Lemma returned_split s :
  Forall (λ g, returned (at_pc g)) (gs s) →
  entered s + duplicates s = length (gs s).
Proof.
  unfold entered, duplicates. induction 1 as [|g l Hg _ IH]; simpl; [done|].
  destruct (at_pc g); try done; simpl; lia.
Qed.

(** From a state of the invariant some schedule takes every goroutine to
    its return. *)
Lemma Inv_terminates n s :
  Inv s → potential s < n →
  ∃ sched s', run s sched = Some s' ∧ Forall (λ g, returned (at_pc g)) (gs s').
Proof.
  revert s. induction n as [|n IH]; intros s HI Hn; [lia|].
  destruct (decide (Forall (λ g, returned (at_pc g)) (gs s))) as [Hall|Hnot].
  - exists [], s. done.
  - apply not_Forall_Exists in Hnot; [|apply _].
    apply Exists_exists in Hnot as (g & Hin & Hnr).
    apply list_elem_of_lookup in Hin as [t Hg].
    destruct (Inv_progress s HI) as (t1 & s1 & Hs); [by exists t, g|].
    pose proof (step_potential s t1 s1 Hs).
    destruct (IH s1) as (sched & s' & Hrun & Hall); [by eapply step_Inv|lia|].
    exists (t1 :: sched), s'. split; [|done]. simpl. by rewrite Hs.
Qed.

(** X21.  [Do] terminates: a run of [n] callers takes at most [11 n]
    steps, under whatever schedule, and from every state the callers reach
    some schedule takes all of them to their return. *)
Theorem Do_terminates (cs : list goroutine) (sched : list nat) (s : state) :
  fresh cs → run (init cs) sched = Some s →
  length sched ≤ 11 * length cs ∧
  ∃ sched' s', run s sched' = Some s' ∧
               ∀ t g, gs s' !! t = Some g → returned (at_pc g).
Proof.
  intros Hf Hrun. split.
  - pose proof (run_potential _ _ _ Hrun). rewrite (fresh_potential cs Hf) in *. lia.
  - pose proof (run_Inv _ _ _ (init_Inv cs Hf) Hrun) as HI.
    destruct (Inv_terminates (S (potential s)) s HI ltac:(lia)) as (sched' & s' & Hr & Hall).
    exists sched', s'. split; [done|]. by apply Forall_lookup.
Qed.

(** X22.  The work functions run once per caller that found no record:
    in every state the callers reach, the number of calls made is the
    number of callers that have entered their work function, at most the
    number of callers; when all have returned, it is the number of callers
    less the duplicates. *)
Theorem Do_calls_once (cs : list goroutine) (sched : list nat) (s : state) :
  fresh cs → run (init cs) sched = Some s →
  calls s = entered s ∧
  calls s ≤ length cs ∧
  ((∀ t g, gs s !! t = Some g → returned (at_pc g)) →
   calls s + duplicates s = length cs).
Proof.
  intros Hf Hrun.
  assert (calls s = entered s) as Hc.
  { eapply run_entered; [done|]. by rewrite fresh_entered. }
  destruct (run_same _ _ _ Hrun) as [Hlen _]. cbn [gs init] in Hlen.
  split; [done|]. split.
  - rewrite Hc, <- Hlen. unfold entered.
    etrans; [apply (sum_list_with_le _ _ 1)|lia].
    intros g _. destruct (called (at_pc g)); lia.
  - intros Hall. rewrite Hc, <- Hlen. apply returned_split. by apply Forall_lookup.
Qed.

(** X23.  Callers with different keys never share: none of them finds a
    record or waits, and each returns the results of its own call. *)
Theorem Do_distinct_keys (cs : list goroutine) (sched : list nat) (s : state) :
  fresh cs → NoDup (key <$> cs) → run (init cs) sched = Some s →
  ∀ t g, gs s !! t = Some g →
    ¬ duplicate (at_pc g) ∧
    (returned (at_pc g) → at_pc g = pDone ∧ ∃ i, inv g = Some i ∧ ret g = Some (fn g i)).
Proof.
  intros Hf Hnd Hrun t g Hg.
  pose proof (run_Inv _ _ _ (init_Inv cs Hf) Hrun) as HI.
  destruct (run_same _ _ _ Hrun) as [_ Hsame]. cbn [gs init] in Hsame.
  assert (¬ duplicate (at_pc g)) as Hnd'.
  { intros Hd.
    destruct (inv_dup s HI t g Hg Hd) as (t' & g' & Hg' & Ho' & _ & Hk & _).
    destruct (Hsame t g Hg) as (g0 & Hg0 & Hk0 & _).
    destruct (Hsame t' g' Hg') as (g0' & Hg0' & Hk0' & _).
    assert (t = t') as <-.
    { eapply (NoDup_lookup (key <$> cs)); [done| |].
      - rewrite list_lookup_fmap, Hg0. done.
      - rewrite list_lookup_fmap, Hg0'. simpl. congruence. }
    simplify_eq. by destruct (at_pc g). }
  split; [done|]. intros Hr.
  assert (at_pc g = pDone) as Hpc by (by destruct (at_pc g)).
  split; [done|]. by apply (inv_ret s HI t g Hg).
Qed.

(** X24.  The mutex: in every state the callers reach, at most one
    goroutine is between a [Lock] and the [Unlock] after it, where the map
    is read and written, and none is when the mutex is free. *)
Theorem Do_mutual_exclusion (cs : list goroutine) (sched : list nat) (s : state) :
  fresh cs → run (init cs) sched = Some s →
  (∀ t1 t2 g1 g2,
     gs s !! t1 = Some g1 → gs s !! t2 = Some g2 →
     holding (at_pc g1) → holding (at_pc g2) → t1 = t2) ∧
  (mu s = false → ∀ t g, gs s !! t = Some g → ¬ holding (at_pc g)) ∧
  (mu s = true → ∃ t g, gs s !! t = Some g ∧ holding (at_pc g)).
Proof.
  intros Hf Hrun.
  pose proof (run_Inv _ _ _ (init_Inv cs Hf) Hrun) as HI.
  split; [apply (inv_mutex s HI)|]. split; [apply (inv_free s HI)|apply (inv_held s HI)].
Qed.

(** X25.  [Do] does not panic: in every state the callers reach, a
    goroutine that cannot move has returned, or waits for the mutex while
    it is held, or waits on the record of a caller with its key that has
    not yet called [Done].  So the counter of a wait group never goes
    below 0, and no nil map is written. *)
Theorem Do_never_panics (cs : list goroutine) (sched : list nat) (s : state)
    (t : nat) (g : goroutine) :
  fresh cs → run (init cs) sched = Some s →
  gs s !! t = Some g → step s t = None → waits s g.
Proof.
  intros Hf Hrun Hg Hnone.
  pose proof (run_Inv _ _ _ (init_Inv cs Hf) Hrun) as HI.
  pose proof HI as [HM HF HH HRO HOR HRG HRC HOI HD HDR HR HC HCI HCA].
  assert (∀ s', ¬ trans s t g s') as Hno.
  { intros s' Ht. assert (step s t = Some s') as Hs; [|congruence].
    apply step_trans. by exists g. }
  unfold waits.
  destruct (at_pc g) eqn:Hpc.
  - destruct (mu s) eqn:Hmu; [right; left; split; [by left|done]|].
    edestruct Hno. by eapply t_Lock.
  - destruct (registry s (key g)) as [l|] eqn:Hr; edestruct Hno;
      [by eapply t_Hit|by eapply t_Miss].
  - edestruct Hno. by eapply t_HitUnlock.
  - destruct (HD t g Hg ltac:(by rewrite Hpc)) as (t' & g' & Hg' & Ho' & Hc' & Hk' & _).
    destruct (HRC t' g' Hg' Ho') as (l & r & Hc'' & Hrec & Hheap).
    destruct (decide (wg r = 0)) as [Hw|Hw].
    + edestruct Hno. eapply (t_Wait s t g l r); [done|congruence|done|done].
    + right. right. split; [done|]. exists t', g'.
      split; [done|]. split; [done|]. split; [done|]. split; [done|].
      intros Hrel. unfold record_of in Hrec.
      destruct (at_pc g'); try done; destruct (inv g'); simpl in Hrec; by simplify_eq.
  - destruct (HD t g Hg ltac:(by rewrite Hpc)) as (t' & g' & Hg' & Ho' & Hc' & _).
    destruct (HRC t' g' Hg' Ho') as (l & r & Hc'' & Hrec & Hheap).
    edestruct Hno. eapply (t_HitRet s t g l r); [done|congruence|done].
  - destruct (HRG t g Hg Hpc) as [[mp Hmp] _].
    edestruct Hno. by eapply t_Register.
  - edestruct Hno. by eapply t_Unlock1.
  - edestruct Hno. by eapply t_Call.
  - destruct (HRC t g Hg ltac:(by rewrite Hpc)) as (l & r & Hc & Hrec & Hheap).
    unfold record_of in Hrec. rewrite Hpc in Hrec.
    destruct (inv g) as [i|] eqn:Hi; [|done].
    edestruct Hno. by eapply t_FnRet.
  - destruct (HRC t g Hg ltac:(by rewrite Hpc)) as (l & r & Hc & Hrec & Hheap).
    unfold record_of in Hrec. rewrite Hpc in Hrec.
    destruct (inv g) as [i|] eqn:Hi; [|done]. simpl in Hrec. simplify_eq.
    edestruct Hno. by eapply (t_WgDone s t g l _ 0).
  - destruct (mu s) eqn:Hmu; [right; left; split; [by right|done]|].
    edestruct Hno. by eapply t_Lock2.
  - edestruct Hno. by eapply t_Delete.
  - edestruct Hno. by eapply t_Unlock2.
  - destruct (HRC t g Hg ltac:(by rewrite Hpc)) as (l & r & Hc & Hrec & Hheap).
    edestruct Hno. by eapply t_Ret.
  - by left.
  - by left.
Qed.

End sf_more.

Section sf_more_examples.
Import singleflight.
Local Open Scope nat_scope.

Lemma Do_terminates_witness :
  fresh two_callers ∧
  run (init two_callers) sched_joined = Some (final two_callers sched_joined) ∧
  length sched_joined ≤ 11 * length two_callers ∧
  ∃ sched' s', run (final two_callers sched_joined) sched' = Some s' ∧
               ∀ t g, gs s' !! t = Some g → returned (at_pc g).
Proof.
  assert (fresh two_callers) as Hf by (apply (fresh_callers [("x", count); ("x", count)])).
  assert (run (init two_callers) sched_joined = Some (final two_callers sched_joined))
    as Hrun by (vm_compute; reflexivity).
  split; [exact Hf|]. split; [exact Hrun|].
  exact (Do_terminates two_callers sched_joined _ Hf Hrun).
Defined.

Lemma Do_calls_once_witness :
  fresh two_callers ∧
  run (init two_callers) sched_joined = Some (final two_callers sched_joined) ∧
  calls (final two_callers sched_joined) = entered (final two_callers sched_joined) ∧
  calls (final two_callers sched_joined) ≤ length two_callers.
Proof.
  assert (fresh two_callers) as Hf by (apply (fresh_callers [("x", count); ("x", count)])).
  assert (run (init two_callers) sched_joined = Some (final two_callers sched_joined))
    as Hrun by (vm_compute; reflexivity).
  split; [exact Hf|]. split; [exact Hrun|].
  destruct (Do_calls_once two_callers sched_joined _ Hf Hrun) as (Hc & Hle & _).
  split; [exact Hc|exact Hle].
Defined.

Lemma Do_distinct_keys_witness :
  fresh [caller "x" count; caller "y" count] ∧
  NoDup (key <$> [caller "x" count; caller "y" count]) ∧
  ∃ s, run (init [caller "x" count; caller "y" count]) [0; 0; 0; 0; 1; 1; 1; 0] = Some s ∧
       ∀ t g, gs s !! t = Some g → ¬ duplicate (at_pc g).
Proof.
  assert (fresh [caller "x" count; caller "y" count]) as Hf
    by (apply (fresh_callers [("x", count); ("y", count)])).
  assert (NoDup (key <$> [caller "x" count; caller "y" count])) as Hnd.
  { cbn. apply NoDup_cons. split; [|apply NoDup_singleton].
    intros Hin. apply list_elem_of_singleton in Hin. discriminate. }
  assert (∃ s, run (init [caller "x" count; caller "y" count]) [0; 0; 0; 0; 1; 1; 1; 0]
               = Some s) as [s Hrun] by (eexists; vm_compute; reflexivity).
  split; [exact Hf|]. split; [exact Hnd|]. exists s. split; [exact Hrun|].
  intros t g Hg. exact (proj1 (Do_distinct_keys _ _ s Hf Hnd Hrun t g Hg)).
Defined.

Lemma Do_mutual_exclusion_witness :
  fresh two_callers ∧
  run (init two_callers) [0] = Some (final two_callers [0]) ∧
  mu (final two_callers [0]) = true ∧
  ∃ t g, gs (final two_callers [0]) !! t = Some g ∧ holding (at_pc g).
Proof.
  assert (fresh two_callers) as Hf by (apply (fresh_callers [("x", count); ("x", count)])).
  assert (run (init two_callers) [0] = Some (final two_callers [0]))
    as Hrun by (vm_compute; reflexivity).
  split; [exact Hf|]. split; [exact Hrun|]. split; [reflexivity|].
  destruct (Do_mutual_exclusion two_callers [0] _ Hf Hrun) as (_ & _ & Hheld).
  exact (Hheld eq_refl).
Defined.

Lemma Do_never_panics_witness :
  fresh two_callers ∧
  run (init two_callers) [0] = Some (final two_callers [0]) ∧
  step (final two_callers [0]) 1 = None ∧
  waits (final two_callers [0]) (caller "x" count).
Proof.
  assert (fresh two_callers) as Hf by (apply (fresh_callers [("x", count); ("x", count)])).
  assert (run (init two_callers) [0] = Some (final two_callers [0]))
    as Hrun by (vm_compute; reflexivity).
  assert (step (final two_callers [0]) 1 = None) as Hs by (vm_compute; reflexivity).
  split; [exact Hf|]. split; [exact Hrun|]. split; [exact Hs|].
  exact (Do_never_panics two_callers [0] _ 1 (caller "x" count) Hf Hrun eq_refl Hs).
Defined.

End sf_more_examples.
